(** * A shallow embedding of the Tetris engine of [main.py]

    The development follows the source file top to bottom: the shape
    table, [Piece], [Board] and the part of [Game] that drives the board
    (key dispatch and gravity).  Python exceptions are kept explicit in a
    small result monad, integers are [Z], lists are lists, and the global
    [random] module is a state component threaded through the board. *)

From Stdlib Require Import ZArith String Ascii Lia Bool ZifyBool.
From stdpp Require Import base list.

Local Open Scope Z_scope.

(** ** Results of Python calls *)

(** The exceptions the modelled code can raise: an index out of range
    ([list.pop] on an empty list, [l[i]] out of range) and [sys.exit()]. *)
Inductive exn : Type :=
| IndexError
| SystemExit.

(** [Diverge] is the answer of a [while] loop whose fuel ran out; the
    termination lemmas below show that no entry point ever returns it. *)
Inductive res (A : Type) : Type :=
| Ok (a : A)
| Raise (e : exn)
| Diverge.

Arguments Ok {A} a.
Arguments Raise {A} e.
Arguments Diverge {A}.

Definition bind {A B : Type} (m : res A) (k : A -> res B) : res B :=
  match m with
  | Ok a => k a
  | Raise e => Raise e
  | Diverge => Diverge
  end.

Notation "x <- m ;; k" := (bind m (fun x => k))
  (at level 100, m at next level, right associativity).

(** ** Python list indexing *)

(** [l[i]] for a list of length [n]: indices [0 .. n-1] and their negative
    aliases [-n .. -1] are accepted, everything else raises. *)
Definition py_index (n : nat) (i : Z) : res nat :=
  if (0 <=? i) && (i <? Z.of_nat n) then Ok (Z.to_nat i)
  else if (- Z.of_nat n <=? i) && (i <? 0) then Ok (Z.to_nat (Z.of_nat n + i))
  else Raise IndexError.

Definition py_getitem {A : Type} (l : list A) (i : Z) : res A :=
  k <- py_index (length l) i ;;
  match l !! k with
  | Some a => Ok a
  | None => Raise IndexError
  end.

Definition py_setitem {A : Type} (l : list A) (i : Z) (a : A) : res (list A) :=
  k <- py_index (length l) i ;;
  Ok (<[k := a]> l).

(** [enumerate(l)] with integer positions. *)
Fixpoint enumerate_from {A : Type} (i : Z) (l : list A) : list (Z * A) :=
  match l with
  | [] => []
  | a :: l' => (i, a) :: enumerate_from (i + 1) l'
  end.

Definition enumerate {A : Type} (l : list A) : list (Z * A) :=
  enumerate_from 0 l.

(** ** Configuration constants *)

Definition COLUMNS : Z := 10.
Definition ROWS : Z := 20.

(** The seven piece kinds, the keys of [COLORS] and [SHAPE_DEFS]. *)
Module Kind.

Inductive t : Type := I | J | L | O | S | T | Z.

Definition eqb (a b : t) : bool :=
  match a, b with
  | I, I | J, J | L, L | O, O | S, S | T, T | Z, Z => true
  | _, _ => false
  end.

End Kind.

Definition Color : Type := (Z * Z * Z)%type.

Definition COLORS (k : Kind.t) : Color :=
  match k with
  | Kind.I => (0, 240, 240)
  | Kind.J => (0, 0, 240)
  | Kind.L => (240, 160, 0)
  | Kind.O => (240, 240, 0)
  | Kind.S => (0, 240, 0)
  | Kind.T => (160, 0, 240)
  | Kind.Z => (240, 0, 0)
  end.

(** ** Shape table *)

Definition shape_from_grid (grid : list string) : list (Z * Z) :=
  flat_map
    (fun '(y, row) =>
       flat_map
         (fun '(x, ch) => if Ascii.eqb ch "X"%char then [(x, y)] else [])
         (enumerate (list_ascii_of_string row)))
    (enumerate grid).

(** The dictionary [SHAPE_DEFS], in insertion order. *)
Definition SHAPE_DEFS : list (Kind.t * list string) :=
  [ (Kind.I, ["...."; "XXXX"; "...."; "...."]%string);
    (Kind.J, ["X.."; "XXX"; "..."; "..."]%string);
    (Kind.L, ["..X"; "XXX"; "..."; "..."]%string);
    (Kind.O, [".XX."; ".XX."; "...."; "...."]%string);
    (Kind.S, [".XX"; "XX."; "..."; "..."]%string);
    (Kind.T, [".X."; "XXX"; "..."; "..."]%string);
    (Kind.Z, ["XX."; ".XX"; "..."; "..."]%string) ].

(** [list(SHAPE_DEFS.keys())]. *)
Definition SHAPE_DEFS_keys : list Kind.t := map fst SHAPE_DEFS.

Definition rotate_point (p : Z * Z) : Z * Z :=
  let '(px, py) := p in (3 - py, px).

(** The body of [for r in range(4)]: append [cur], then rotate it. *)
Fixpoint rotation_states (n : nat) (cur : list (Z * Z)) : list (list (Z * Z)) :=
  match n with
  | O => []
  | S n' => cur :: rotation_states n' (map rotate_point cur)
  end.

Definition TETROMINO_SHAPES_items : list (Kind.t * list (list (Z * Z))) :=
  map (fun '(name, grid) => (name, rotation_states 4 (shape_from_grid grid)))
      SHAPE_DEFS.

(** [TETROMINO_SHAPES[kind]]; every kind is a key, so the lookup is total. *)
Definition TETROMINO_SHAPES (k : Kind.t) : list (list (Z * Z)) :=
  match find (fun e => Kind.eqb (fst e) k) TETROMINO_SHAPES_items with
  | Some e => snd e
  | None => []
  end.

Definition WALL_KICKS : list (Z * Z) :=
  [(0, 0); (1, 0); (-1, 0); (0, -1); (2, 0); (-2, 0)].

(** ** Piece *)

Module Piece.

Record t : Type := mk { kind : Kind.t; x : Z; y : Z; rotation : Z }.

Definition color (p : t) : Color := COLORS (kind p).

(** [cells(rot=None)]. *)
Definition cells (p : t) (rot : option Z) : res (list (Z * Z)) :=
  let r := match rot with None => rotation p | Some r' => r' mod 4 end in
  shape <- py_getitem (TETROMINO_SHAPES (kind p)) r ;;
  Ok (map (fun '(cx, cy) => (x p + cx, y p + cy)) shape).

Definition rotated (p : t) (dr : Z) : t :=
  mk (kind p) (x p) (y p) ((rotation p + dr) mod 4).

End Piece.

(** ** Board *)

Section Engine.

(** The state of Python's global [random] module and [random.shuffle]:
    the shuffled list together with the next generator state. *)
Context {G : Type}.
Variable shuffle : G -> list Kind.t -> list Kind.t * G.

Definition Cell : Type := option Color.

Record Board : Type := mkBoard {
  cols : Z;
  rows : Z;
  grid : list (list Cell);
  current : option Piece.t;
  hold : option Kind.t;
  can_hold : bool;
  bag : list Kind.t;
  next_queue : list Kind.t;
  score : Z;
  lines_cleared : Z;
  level : Z;
  game_over : bool;
  rng : G
}.

(** Attribute assignments [self.f = v]. *)
Definition set_grid (v : list (list Cell)) (b : Board) : Board :=
  mkBoard (cols b) (rows b) v (current b) (hold b) (can_hold b) (bag b)
    (next_queue b) (score b) (lines_cleared b) (level b) (game_over b) (rng b).

Definition set_current (v : option Piece.t) (b : Board) : Board :=
  mkBoard (cols b) (rows b) (grid b) v (hold b) (can_hold b) (bag b)
    (next_queue b) (score b) (lines_cleared b) (level b) (game_over b) (rng b).

Definition set_hold (v : option Kind.t) (b : Board) : Board :=
  mkBoard (cols b) (rows b) (grid b) (current b) v (can_hold b) (bag b)
    (next_queue b) (score b) (lines_cleared b) (level b) (game_over b) (rng b).

Definition set_can_hold (v : bool) (b : Board) : Board :=
  mkBoard (cols b) (rows b) (grid b) (current b) (hold b) v (bag b)
    (next_queue b) (score b) (lines_cleared b) (level b) (game_over b) (rng b).

Definition set_bag (v : list Kind.t) (b : Board) : Board :=
  mkBoard (cols b) (rows b) (grid b) (current b) (hold b) (can_hold b) v
    (next_queue b) (score b) (lines_cleared b) (level b) (game_over b) (rng b).

Definition set_next_queue (v : list Kind.t) (b : Board) : Board :=
  mkBoard (cols b) (rows b) (grid b) (current b) (hold b) (can_hold b) (bag b)
    v (score b) (lines_cleared b) (level b) (game_over b) (rng b).

Definition set_score (v : Z) (b : Board) : Board :=
  mkBoard (cols b) (rows b) (grid b) (current b) (hold b) (can_hold b) (bag b)
    (next_queue b) v (lines_cleared b) (level b) (game_over b) (rng b).

Definition set_lines_cleared (v : Z) (b : Board) : Board :=
  mkBoard (cols b) (rows b) (grid b) (current b) (hold b) (can_hold b) (bag b)
    (next_queue b) (score b) v (level b) (game_over b) (rng b).

Definition set_level (v : Z) (b : Board) : Board :=
  mkBoard (cols b) (rows b) (grid b) (current b) (hold b) (can_hold b) (bag b)
    (next_queue b) (score b) (lines_cleared b) v (game_over b) (rng b).

Definition set_game_over (v : bool) (b : Board) : Board :=
  mkBoard (cols b) (rows b) (grid b) (current b) (hold b) (can_hold b) (bag b)
    (next_queue b) (score b) (lines_cleared b) (level b) v (rng b).

Definition set_rng (v : G) (b : Board) : Board :=
  mkBoard (cols b) (rows b) (grid b) (current b) (hold b) (can_hold b) (bag b)
    (next_queue b) (score b) (lines_cleared b) (level b) (game_over b) v.

(** *** Piece spawning and bag *)

Definition _refill_bag (b : Board) : Board :=
  let '(shuffled, g) := shuffle (rng b) SHAPE_DEFS_keys in
  set_rng g (set_bag shuffled b).

(** [l.pop()]: the last element leaves the list. *)
Definition py_pop {A : Type} (l : list A) : res (A * list A) :=
  match last l with
  | Some a => Ok (a, removelast l)
  | None => Raise IndexError
  end.

Definition _next_from_bag (b : Board) : res (Kind.t * Board) :=
  let b1 := match bag b with [] => _refill_bag b | _ :: _ => b end in
  r <- py_pop (bag b1) ;;
  Ok (fst r, set_bag (snd r) b1).

(** [self.next_queue.append(self._next_from_bag())]. *)
Definition append_next (b : Board) : res Board :=
  r <- _next_from_bag b ;;
  Ok (set_next_queue (next_queue (snd r) ++ [fst r]) (snd r)).

(** The loop [for _ in range(n)] of the constructor. *)
Fixpoint prefill (n : nat) (b : Board) : res Board :=
  match n with
  | O => Ok b
  | S n' => b' <- append_next b ;; prefill n' b'
  end.

(** [Board.__init__(cols, rows)], started with generator state [g]. *)
Definition Board_init (c r : Z) (g : G) : res Board :=
  prefill 5
    (mkBoard c r (replicate (Z.to_nat r) (replicate (Z.to_nat c) None))
       None None true [] [] 0 0 1 false g).

(** *** Validation and movement *)

Definition _in_bounds (b : Board) (x y : Z) : bool :=
  (0 <=? x) && (x <? cols b) && (y <? rows b).

(** [self.grid[y][x]]. *)
Definition grid_get (b : Board) (x y : Z) : res Cell :=
  row <- py_getitem (grid b) y ;;
  py_getitem row x.

(** The loop of [_valid] over the cells of the piece, with its early
    returns. *)
Fixpoint valid_cells (b : Board) (cs : list (Z * Z)) : res bool :=
  match cs with
  | [] => Ok true
  | (x, y) :: cs' =>
      if y <? 0 then
        if negb ((0 <=? x) && (x <? cols b)) then Ok false
        else valid_cells b cs'
      else if negb (_in_bounds b x y) then Ok false
      else
        c <- grid_get b x y ;;
        match c with
        | Some _ => Ok false
        | None => valid_cells b cs'
        end
  end.

Definition _valid (b : Board) (piece : Piece.t) : res bool :=
  cs <- Piece.cells piece None ;;
  valid_cells b cs.

Definition spawn (b : Board) : res Board :=
  b1 <- match next_queue b with
        | [] => append_next b
        | _ :: _ => Ok b
        end ;;
  match next_queue b1 with
  | [] => Raise IndexError
  | kind :: rest =>
      b2 <- append_next (set_next_queue rest b1) ;;
      let spawn_x := cols b2 / 2 - 2 in
      let spawn_y := 0 in
      let piece := Piece.mk kind spawn_x spawn_y 0 in
      let piece :=
        if Kind.eqb kind Kind.I
        then Piece.mk (Piece.kind piece) (Piece.x piece) (-1) (Piece.rotation piece)
        else piece in
      v <- _valid b2 piece ;;
      if negb v then Ok (set_game_over true b2)
      else Ok (set_can_hold true (set_current (Some piece) b2))
  end.

Definition hold_piece (b : Board) : res Board :=
  if negb (can_hold b) then Ok b
  else
    match current b with
    | None => Ok b
    | Some cur =>
        let cur_kind := Piece.kind cur in
        b1 <- match hold b with
              | None => spawn (set_hold (Some cur_kind) b)
              | Some held =>
                  let piece := Piece.mk held (cols b / 2 - 2) 0 0 in
                  let b' := set_hold (Some cur_kind) (set_current (Some piece) b) in
                  v <- _valid b' piece ;;
                  if negb v then Ok (set_game_over true b') else Ok b'
              end ;;
        Ok (set_can_hold false b1)
    end.

Definition try_move (b : Board) (dx dy : Z) : res (Board * bool) :=
  match current b with
  | None => Ok (b, false)
  | Some cur =>
      let moved :=
        Piece.mk (Piece.kind cur) (Piece.x cur + dx) (Piece.y cur + dy)
          (Piece.rotation cur) in
      v <- _valid b moved ;;
      if v then Ok (set_current (Some moved) b, true)
      else Ok (b, false)
  end.

(** The loop of [try_rotate] over the kick table. *)
Fixpoint try_kicks (b : Board) (rotated : Piece.t) (kicks : list (Z * Z))
  : res (Board * bool) :=
  match kicks with
  | [] => Ok (b, false)
  | (kx, ky) :: kicks' =>
      let candidate :=
        Piece.mk (Piece.kind rotated) (Piece.x rotated + kx)
          (Piece.y rotated + ky) (Piece.rotation rotated) in
      v <- _valid b candidate ;;
      if v then Ok (set_current (Some candidate) b, true)
      else try_kicks b rotated kicks'
  end.

Definition try_rotate (b : Board) (dr : Z) : res (Board * bool) :=
  match current b with
  | None => Ok (b, false)
  | Some cur => try_kicks b (Piece.rotated cur dr) WALL_KICKS
  end.

(** *** Locking and line clearing *)

(** Fuel for the probing loops: a piece whose anchor row is [y] can move
    down at most [max rows 0 - y] times, see [valid_anchor_bound]. *)
Definition drop_fuel (b : Board) (p : Piece.t) : nat :=
  S (Z.to_nat (Z.max (rows b) 0 - Piece.y p)).

(** The [while True] loop of [hard_drop_distance]. *)
Fixpoint hard_drop_loop (fuel : nat) (b : Board) (tmp : Piece.t) (dist : Z)
  : res Z :=
  match fuel with
  | O => Diverge
  | S fuel' =>
      let nxt :=
        Piece.mk (Piece.kind tmp) (Piece.x tmp) (Piece.y tmp + 1)
          (Piece.rotation tmp) in
      v <- _valid b nxt ;;
      if v then hard_drop_loop fuel' b nxt (dist + 1)
      else Ok dist
  end.

Definition hard_drop_distance (b : Board) : res Z :=
  match current b with
  | None => Ok 0
  | Some cur =>
      let dist := 0 in
      let tmp :=
        Piece.mk (Piece.kind cur) (Piece.x cur) (Piece.y cur)
          (Piece.rotation cur) in
      hard_drop_loop (drop_fuel b tmp) b tmp dist
  end.

(** [self.grid[y][x] = v]: the row object at [y] is updated in place. *)
Definition grid_set (b : Board) (x y : Z) (v : Cell) : res Board :=
  iy <- py_index (length (grid b)) y ;;
  match grid b !! iy with
  | None => Raise IndexError
  | Some row =>
      row' <- py_setitem row x v ;;
      Ok (set_grid (<[iy := row']> (grid b)) b)
  end.

(** The loop of [lock_piece] over the cells of the current piece. *)
Fixpoint lock_cells (b : Board) (color : Color) (cs : list (Z * Z)) : res Board :=
  match cs with
  | [] => Ok b
  | (x, y) :: cs' =>
      if y <? 0 then lock_cells (set_game_over true b) color cs'
      else b' <- grid_set b x y (Some color) ;; lock_cells b' color cs'
  end.

Definition line_scores_get (cleared : Z) : Z :=
  if cleared =? 1 then 100
  else if cleared =? 2 then 300
  else if cleared =? 3 then 500
  else if cleared =? 4 then 800
  else 0.

Definition _apply_scoring (b : Board) (cleared : Z) : Board :=
  let b1 := set_score (score b + line_scores_get cleared * level b) b in
  let b2 := set_lines_cleared (lines_cleared b1 + cleared) b1 in
  set_level (1 + lines_cleared b2 / 10) b2.

(** [any(cell is None for cell in row)]. *)
Definition has_empty_cell (row : list Cell) : bool :=
  existsb (fun cell => match cell with None => true | Some _ => false end) row.

Definition _clear_lines_efficient (b : Board) : Board :=
  let new_grid := List.filter has_empty_cell (grid b) in
  let cleared := rows b - Z.of_nat (length new_grid) in
  if 0 <? cleared then
    let empty_rows :=
      replicate (Z.to_nat cleared) (replicate (Z.to_nat (cols b)) (None : Cell)) in
    _apply_scoring (set_grid (empty_rows ++ new_grid) b) cleared
  else b.

Definition lock_piece (b : Board) : res Board :=
  match current b with
  | None => Ok b
  | Some cur =>
      cs <- Piece.cells cur None ;;
      b1 <- lock_cells b (Piece.color cur) cs ;;
      let b2 := set_current None b1 in
      let b3 := _clear_lines_efficient b2 in
      spawn b3
  end.

Definition hard_drop (b : Board) : res Board :=
  match current b with
  | None => Ok b
  | Some cur =>
      drop <- hard_drop_distance b ;;
      let b1 :=
        set_current
          (Some (Piece.mk (Piece.kind cur) (Piece.x cur) (Piece.y cur + drop)
                   (Piece.rotation cur))) b in
      b2 <- lock_piece b1 ;;
      Ok (set_score (score b2 + 2 * drop) b2)
  end.

Definition soft_drop (b : Board) : res (Board * bool) :=
  r <- try_move b 0 1 ;;
  let '(b1, moved) := r in
  if moved then Ok (set_score (score b1 + 1) b1, moved)
  else Ok (b1, moved).

(** *** Ghost piece *)

Definition ghost_cells (b : Board) : res (list (Z * Z)) :=
  match current b with
  | None => Ok []
  | Some cur =>
      dist <- hard_drop_distance b ;;
      cs <- Piece.cells cur None ;;
      Ok (map (fun '(x, y) => (x, y + dist)) cs)
  end.

(** ** Game: input dispatch and gravity *)

(** Python floats stay abstract: [lit n] is the float written as the
    decimal literal [n/100], and the operations are [+], [-], [>=], [>]. *)
Context {T : Type}.
Variable lit : Z -> T.
Variables t_add t_sub : T -> T -> T.
Variables t_ge t_gt : T -> T -> bool.

Definition LEVEL_SPEEDS : list T :=
  map lit [80; 72; 63; 55; 47; 38; 30; 22; 13; 10; 9; 8; 7; 6; 5].

(** The keys [handle_input] looks at, and the events of the queue. *)
Inductive Key : Type :=
| K_ESCAPE | K_LEFT | K_RIGHT | K_DOWN | K_UP | K_x | K_z | K_SPACE | K_c
| K_other.

Inductive Event : Type :=
| QUIT
| KEYDOWN (key : Key)
| OtherEvent.

(** [_move_accum] is [None] while the attribute does not exist. *)
Record Game : Type := mkGame {
  board : Board;
  time_since_gravity : T;
  _move_accum : option T
}.

Definition set_board (v : Board) (g : Game) : Game :=
  mkGame v (time_since_gravity g) (_move_accum g).

Definition set_time_since_gravity (v : T) (g : Game) : Game :=
  mkGame (board g) v (_move_accum g).

Definition set_move_accum (v : option T) (g : Game) : Game :=
  mkGame (board g) (time_since_gravity g) v.

(** [Game.__init__], without the window. *)
Definition Game_init (g0 : G) : res Game :=
  b <- Board_init COLUMNS ROWS g0 ;;
  b' <- spawn b ;;
  Ok (mkGame b' (lit 0) None).

(** The body of the event loop of [handle_input]. *)
Definition handle_event (g : Game) (event : Event) : res Game :=
  match event with
  | QUIT => Raise SystemExit
  | OtherEvent => Ok g
  | KEYDOWN K_ESCAPE => Raise SystemExit
  | KEYDOWN key =>
      if game_over (board g) then Ok g
      else
        match key with
        | K_LEFT => r <- try_move (board g) (-1) 0 ;; Ok (set_board (fst r) g)
        | K_RIGHT => r <- try_move (board g) 1 0 ;; Ok (set_board (fst r) g)
        | K_DOWN => r <- soft_drop (board g) ;; Ok (set_board (fst r) g)
        | K_UP | K_x => r <- try_rotate (board g) 1 ;; Ok (set_board (fst r) g)
        | K_z => r <- try_rotate (board g) (-1) ;; Ok (set_board (fst r) g)
        | K_SPACE => b <- hard_drop (board g) ;; Ok (set_board b g)
        | K_c => b <- hold_piece (board g) ;; Ok (set_board b g)
        | _ => Ok g
        end
  end.

Fixpoint handle_events (g : Game) (events : list Event) : res Game :=
  match events with
  | [] => Ok g
  | event :: events' => g' <- handle_event g event ;; handle_events g' events'
  end.

(** The event loop again, with the exit made visible.  [sys.exit()] is
    called with the game as the earlier events of the batch left it: the
    result is that game, and the flag tells whether the loop was left by
    [sys.exit()] or by running out of events. *)
Definition handle_event_exit (g : Game) (event : Event) : res (Game * bool) :=
  match event with
  | QUIT => Ok (g, true)
  | KEYDOWN K_ESCAPE => Ok (g, true)
  | _ => g' <- handle_event g event ;; Ok (g', false)
  end.

Fixpoint handle_events_exit (g : Game) (events : list Event)
  : res (Game * bool) :=
  match events with
  | [] => Ok (g, false)
  | event :: events' =>
      r <- handle_event_exit g event ;;
      if snd r then Ok r else handle_events_exit (fst r) events'
  end.

(** What the caller of the loop sees of it. *)
Definition exit_raises (r : res (Game * bool)) : res Game :=
  match r with
  | Ok (g, false) => Ok g
  | Ok (_, true) => Raise SystemExit
  | Raise e => Raise e
  | Diverge => Diverge
  end.

(** [clock_seconds] stands for [self.clock.get_time() / 1000.0]. *)
Definition _repeat_move (g : Game) (dx : Z) (clock_seconds : T) : res Game :=
  let g1 :=
    match _move_accum g with
    | None => set_move_accum (Some (lit 0)) g
    | Some _ => g
    end in
  let acc := match _move_accum g1 with Some a => a | None => lit 0 end in
  let g2 := set_move_accum (Some (t_add acc clock_seconds)) g1 in
  if t_gt (t_add acc clock_seconds) (lit 10) then
    r <- try_move (board g2) dx 0 ;;
    Ok (set_move_accum (Some (lit 0)) (set_board (fst r) g2))
  else Ok g2.

(** [handle_input(dt)]: [events] is what [pygame.event.get()] returns and
    [keys] what [pygame.key.get_pressed()] returns during the call. *)
Definition handle_input (g : Game) (dt : T) (events : list Event)
    (keys : Key -> bool) (clock_seconds : T) : res Game :=
  g1 <- handle_events g events ;;
  if negb (game_over (board g1)) then
    if keys K_LEFT then _repeat_move g1 (-1) clock_seconds
    else if keys K_RIGHT then _repeat_move g1 1 clock_seconds
    else Ok g1
  else Ok g1.

Definition gravity_interval (g : Game) : res T :=
  let idx := Z.min (level (board g) - 1) (Z.of_nat (length LEVEL_SPEEDS) - 1) in
  py_getitem LEVEL_SPEEDS idx.

(** Fuel for the loop of [update]: every pass but the last moves the
    current piece one row down. *)
Definition gravity_fuel (b : Board) : nat :=
  match current b with
  | Some cur => drop_fuel b cur
  | None => 1%nat
  end.

(** The [while] loop of [update]. *)
Fixpoint gravity_loop (fuel : nat) (g : Game) (interval : T) : res Game :=
  match fuel with
  | O => Diverge
  | S fuel' =>
      if t_ge (time_since_gravity g) interval then
        let g1 := set_time_since_gravity (t_sub (time_since_gravity g) interval) g in
        r <- try_move (board g1) 0 1 ;;
        let g2 := set_board (fst r) g1 in
        if negb (snd r) then
          b <- lock_piece (board g2) ;;
          Ok (set_board b g2)
        else gravity_loop fuel' g2 interval
      else Ok g
  end.

Definition update (g : Game) (dt : T) : res Game :=
  if game_over (board g) then Ok g
  else
    let g1 := set_time_since_gravity (t_add (time_since_gravity g) dt) g in
    interval <- gravity_interval g1 ;;
    gravity_loop (gravity_fuel (board g1)) g1 interval.

(** The calls [update] makes on the board, in order; the instrumented
    loop below returns them next to the state. *)
Inductive BoardCall : Type :=
| CallTryMoveDown (moved : bool)
| CallLockPiece.

Fixpoint gravity_loop_calls (fuel : nat) (g : Game) (interval : T)
  : res (Game * list BoardCall) :=
  match fuel with
  | O => Diverge
  | S fuel' =>
      if t_ge (time_since_gravity g) interval then
        let g1 := set_time_since_gravity (t_sub (time_since_gravity g) interval) g in
        r <- try_move (board g1) 0 1 ;;
        let g2 := set_board (fst r) g1 in
        if negb (snd r) then
          b <- lock_piece (board g2) ;;
          Ok (set_board b g2, [CallTryMoveDown false; CallLockPiece])
        else
          rest <- gravity_loop_calls fuel' g2 interval ;;
          Ok (fst rest, CallTryMoveDown true :: snd rest)
      else Ok (g, [])
  end.

Definition update_calls (g : Game) (dt : T) : res (Game * list BoardCall) :=
  if game_over (board g) then Ok (g, [])
  else
    let g1 := set_time_since_gravity (t_add (time_since_gravity g) dt) g in
    interval <- gravity_interval g1 ;;
    gravity_loop_calls (gravity_fuel (board g1)) g1 interval.

(** ** Well-formed boards *)

(** The grid is a [rows] by [cols] matrix. *)
Definition grid_wf (b : Board) : Prop :=
  Z.of_nat (length (grid b)) = rows b /\
  Forall (fun row => Z.of_nat (length row) = cols b) (grid b).

(** A row is full when no cell of it is empty. *)
Definition full_rows (g : list (list Cell)) : list (list Cell) :=
  List.filter (fun row => negb (has_empty_cell row)) g.

(** A cell of a piece is free on the board: inside the side walls and,
    below the top edge, above the floor and on an empty grid cell. *)
Definition cell_free (b : Board) (c : Z * Z) : Prop :=
  0 <= fst c < cols b /\
  (snd c < 0 \/ (snd c < rows b /\ grid_get b (fst c) (snd c) = Ok None)).

(** ** Vocabulary of the statements *)

(** An offset of the shape table lies in the 4 by 4 box. *)
Definition offset_in_box (c : Z * Z) : Prop :=
  0 <= fst c <= 3 /\ 0 <= snd c <= 3.

(** [cells()] indexes the four states with [self.rotation] as it is, so it
    works for the rotations [-4 .. 3] and raises for the others. *)
Definition rotation_ok (p : Piece.t) : Prop := -4 <= Piece.rotation p < 4.

(** The candidate [try_rotate] builds for one entry of the kick table. *)
Definition kick_candidate (rotated : Piece.t) (k : Z * Z) : Piece.t :=
  Piece.mk (Piece.kind rotated) (Piece.x rotated + fst k)
    (Piece.y rotated + snd k) (Piece.rotation rotated).

(** The piece [d] rows further down. *)
Definition shift_down (p : Piece.t) (d : Z) : Piece.t :=
  Piece.mk (Piece.kind p) (Piece.x p) (Piece.y p + d) (Piece.rotation p).

(** What [lock_cells] may change: the grid, and the game-over flag from
    false to true. *)
Definition only_grid_and_over (b b' : Board) : Prop :=
  cols b' = cols b /\ rows b' = rows b /\ current b' = current b /\
  hold b' = hold b /\ can_hold b' = can_hold b /\ bag b' = bag b /\
  next_queue b' = next_queue b /\ score b' = score b /\
  lines_cleared b' = lines_cleared b /\ level b' = level b /\
  rng b' = rng b /\ (game_over b = true -> game_over b' = true).

(** A cell [lock_cells] can write, or skips because it is above the top. *)
Definition cell_in_range (b : Board) (c : Z * Z) : Prop :=
  snd c < 0 \/ (0 <= fst c < cols b /\ snd c < rows b).

(** What drawing from the bag may change: the bag, the queue and the
    generator. *)
Definition only_bag_and_queue (b b' : Board) : Prop :=
  cols b' = cols b /\ rows b' = rows b /\ grid b' = grid b /\
  current b' = current b /\ hold b' = hold b /\ can_hold b' = can_hold b /\
  score b' = score b /\ lines_cleared b' = lines_cleared b /\
  level b' = level b /\ game_over b' = game_over b.

(** The piece [spawn] builds for [kind] on a board [c] columns wide. *)
Definition spawn_piece (c : Z) (kind : Kind.t) : Piece.t :=
  Piece.mk kind (c / 2 - 2) (if Kind.eqb kind Kind.I then -1 else 0) 0.

(** The public operations of the board, as one type. *)
Inductive Op : Type :=
| OpSpawn
| OpMove (dx dy : Z)
| OpRotate (dr : Z)
| OpSoftDrop
| OpHardDrop
| OpLock
| OpHold.

Definition run_op (op : Op) (b : Board) : res Board :=
  match op with
  | OpSpawn => spawn b
  | OpMove dx dy => r <- try_move b dx dy ;; Ok (fst r)
  | OpRotate dr => r <- try_rotate b dr ;; Ok (fst r)
  | OpSoftDrop => r <- soft_drop b ;; Ok (fst r)
  | OpHardDrop => hard_drop b
  | OpLock => lock_piece b
  | OpHold => hold_piece b
  end.

(** The two halves of the invariant of the specification. *)
Definition piece_or_over (b : Board) : Prop :=
  is_Some (current b) \/ game_over b = true.

Definition exactly_one_of_piece_and_over (b : Board) : Prop :=
  (is_Some (current b) /\ game_over b = false) \/
  (current b = None /\ game_over b = true).

(** What [spawn] leaves of the piece and the flag: [v] is the answer of
    [_valid] for the piece of the kind at the front of the queue. *)
Definition spawn_outcome (b b' : Board) : Prop :=
  exists kind v,
    (forall k q, next_queue b = k :: q -> kind = k) /\
    _valid b (spawn_piece (cols b) kind) = Ok v /\
    current b' = (if v then Some (spawn_piece (cols b) kind) else current b) /\
    game_over b' = (if v then game_over b else true) /\
    (exactly_one_of_piece_and_over b'
     <-> if v then game_over b = false else current b = None).

(** What [lock_piece] leaves of them when [cur] is the current piece:
    [b1] is the board with the cells written and [v] the answer of
    [_valid] for the next piece on the cleared grid. *)
Definition lock_outcome (b : Board) (cur : Piece.t) (b' : Board) : Prop :=
  exists cs b1 kind v,
    Piece.cells cur None = Ok cs /\
    lock_cells b (Piece.color cur) cs = Ok b1 /\
    (forall k q, next_queue b = k :: q -> kind = k) /\
    _valid (_clear_lines_efficient (set_current None b1))
      (spawn_piece (cols b) kind) = Ok v /\
    current b' = (if v then Some (spawn_piece (cols b) kind) else None) /\
    game_over b'
    = (if v then game_over b || existsb (fun c => snd c <? 0) cs else true) /\
    (exactly_one_of_piece_and_over b'
     <-> v = false \/
         (game_over b = false /\ existsb (fun c => snd c <? 0) cs = false)).

(** What [hold_piece] leaves of them when it does not return at once:
    [piece] is the piece brought in, the held kind at row 0 or, with
    nothing held, the piece [spawn] builds, and [v] the answer of
    [_valid] for it. *)
Definition hold_outcome (b : Board) (cur : Piece.t) (b' : Board) : Prop :=
  exists piece v,
    (forall held, hold b = Some held ->
                  piece = Piece.mk held (cols b / 2 - 2) 0 0) /\
    (hold b = None -> forall k q, next_queue b = k :: q ->
                                  piece = spawn_piece (cols b) k) /\
    _valid b piece = Ok v /\
    current b'
    = Some (if v then piece
            else match hold b with Some _ => piece | None => cur end) /\
    game_over b' = (if v then game_over b else true) /\
    (exactly_one_of_piece_and_over b' <-> v = true /\ game_over b = false).

(** The boards a session can be in: built by the constructor, then driven
    by completed public operations. *)
Inductive reachable : Board -> Prop :=
| reachable_init (c r : Z) (g : G) (b : Board) :
    Board_init c r g = Ok b -> reachable b
| reachable_step (op : Op) (b b' : Board) :
    reachable b -> run_op op b = Ok b' -> reachable b'.

(** The result of a call, seen through [f]. *)
Definition res_map {A B : Type} (f : A -> B) (m : res A) : res B :=
  match m with
  | Ok a => Ok (f a)
  | Raise e => Raise e
  | Diverge => Diverge
  end.

(** The number of [lock_piece] calls in a list of calls. *)
Definition count_locks (calls : list BoardCall) : nat :=
  length (List.filter (fun c => match c with CallLockPiece => true | _ => false end)
            calls).

(** A sequence of public operations, stopping at the first exception. *)
Fixpoint run_ops (ops : list Op) (b : Board) : res Board :=
  match ops with
  | [] => Ok b
  | op :: ops' => b' <- run_op op b ;; run_ops ops' b'
  end.

(** ** Vocabulary of the further properties *)

(** [n] consecutive calls of [_next_from_bag], with the kinds drawn. *)
Fixpoint draw_many (n : nat) (b : Board) : res (list Kind.t * Board) :=
  match n with
  | O => Ok ([], b)
  | S n' =>
      r <- _next_from_bag b ;;
      rest <- draw_many n' (snd r) ;;
      Ok (fst r :: fst rest, snd rest)
  end.

(** [n] consecutive calls of [soft_drop], whatever they answer. *)
Fixpoint soft_drops (n : nat) (b : Board) : res Board :=
  match n with
  | O => Ok b
  | S n' => r <- soft_drop b ;; soft_drops n' (fst r)
  end.

(** The board after [j] successful soft drops of the piece [cur]. *)
Definition soft_dropped (b : Board) (cur : Piece.t) (j : Z) : Board :=
  set_score (score b + j) (set_current (Some (shift_down cur j)) b).

(** The current piece, when there is one, sits at a valid position. *)
Definition current_valid (b : Board) : Prop :=
  match current b with
  | Some cur => _valid b cur = Ok true
  | None => True
  end.

(** What play keeps true of a board: the grid is a matrix, the current
    piece is valid as long as the game is not over, the level follows the
    lines, and the counters are not negative. *)
Definition board_inv (b : Board) : Prop :=
  grid_wf b /\
  (game_over b = false -> current_valid b) /\
  0 <= lines_cleared b /\
  level b = 1 + lines_cleared b / 10 /\
  0 <= score b.

(** The part of [board_inv] that does not look at the current piece. *)
Definition core_ok (b : Board) : Prop :=
  grid_wf b /\
  0 <= lines_cleared b /\ level b = 1 + lines_cleared b / 10 /\ 0 <= score b.

(** From [b] to [b'] the dimensions stay and no counter goes down. *)
Definition grows (b b' : Board) : Prop :=
  cols b' = cols b /\ rows b' = rows b /\
  score b <= score b' /\ lines_cleared b <= lines_cleared b' /\
  level b <= level b'.

(** An event that ends the program. *)
Definition exit_event (event : Event) : Prop :=
  event = QUIT \/ event = KEYDOWN K_ESCAPE.

(** The decimal literals of [LEVEL_SPEEDS], in hundredths. *)
Definition LEVEL_SPEEDS_hundredths : list Z :=
  [80; 72; 63; 55; 47; 38; 30; 22; 13; 10; 9; 8; 7; 6; 5].

End Engine.

(** * Concrete sessions

    The boards and games the examples below run on.  The generator is
    the deterministic shuffle that reverses its argument, so the kinds
    come out of the bag in the order I, J, L, O, S, T, Z; time is counted
    in hundredths of a second. *)

Definition rev_shuffle (g : unit) (l : list Kind.t) : list Kind.t * unit :=
  (rev l, g).

Definition from_Ok {A : Type} (default : A) (r : res A) : A :=
  match r with
  | Ok a => a
  | _ => default
  end.

Definition no_board : @Board unit :=
  mkBoard 0 0 [] None None true [] [] 0 0 1 false tt.

(** [Board(10, 20)]. *)
Definition new_board : @Board unit :=
  Eval vm_compute in from_Ok no_board (Board_init rev_shuffle 10 20 tt).

(** The board of a fresh game: [Board(10, 20)] after its first [spawn()]. *)
Definition started_board : @Board unit :=
  Eval vm_compute in from_Ok no_board (spawn rev_shuffle new_board).

(** The first piece goes to the hold slot; the next eleven are pushed
    three columns aside (the I piece to the left, the others to the
    right) and dropped. *)
Definition drop_right : list Op :=
  [OpMove 1 0; OpMove 1 0; OpMove 1 0; OpHardDrop].

Definition drop_left : list Op :=
  [OpMove (-1) 0; OpMove (-1) 0; OpMove (-1) 0; OpHardDrop].

Definition stacking_ops : list Op :=
  OpHold
  :: concat
       [ drop_right; drop_right; drop_right; drop_right; drop_right;
         drop_right; drop_left; drop_right; drop_right; drop_right;
         drop_right ].

Definition stacked_board : @Board unit :=
  Eval vm_compute in
    from_Ok no_board (run_ops rev_shuffle stacking_ops started_board).

(** The stacked board after one more [hold_piece()]. *)
Definition swapped_board : @Board unit :=
  Eval vm_compute in from_Ok no_board (hold_piece rev_shuffle stacked_board).

(** A row drawn as a string: [X] is a locked cell, anything else is
    empty. *)
Definition row_of_string (s : string) : list Cell :=
  map (fun ch => if Ascii.eqb ch "X"%char then Some (COLORS Kind.T) else None)
      (list_ascii_of_string s).

(** Eight rows of four cells; rows 2 and 5 are full. *)
Definition two_full_board : @Board unit :=
  mkBoard 4 8
    (map row_of_string
       ["...."; "X..."; "XXXX"; ".X.."; "..X."; "XXXX"; "...X"; "XX.."]%string)
    None None true [] [Kind.J; Kind.L; Kind.O; Kind.S; Kind.T] 0 0 1 false tt.

(** A flat I piece over a single locked cell: turned clockwise in place
    it would hit the cell, one column to either side it fits. *)
Definition kick_piece : Piece.t := Piece.mk Kind.I 3 5 0.

Definition kick_board : @Board unit :=
  Eval vm_compute in
    from_Ok no_board
      (b <- grid_set started_board 5 8 (Some (COLORS Kind.T)) ;;
       Ok (set_current (Some kick_piece) b)).

(** Games over these boards, with integer time: [hundredths n] is the
    float [n/100]. *)
Definition hundredths (n : Z) : Z := n.

Definition started_game : @Game unit Z := mkGame started_board 0 None.


(** The stacked board after one more [spawn()]. *)
Definition respawned_board : @Board unit :=
  Eval vm_compute in from_Ok no_board (spawn rev_shuffle stacked_board).

(** The fresh game after [update(100.0)], and the calls it made. *)
Definition after_gravity_game : @Game unit Z :=
  Eval vm_compute in
    fst (from_Ok (started_game, [])
           (update_calls rev_shuffle hundredths Z.add Z.sub Z.geb
              started_game 10000)).

Definition after_gravity_calls : list BoardCall :=
  Eval vm_compute in
    snd (from_Ok (started_game, [])
           (update_calls rev_shuffle hundredths Z.add Z.sub Z.geb
              started_game 10000)).


(** The first piece of a fresh game turned upright, pushed three columns
    to the left and locked where it is, its top cell above the grid. *)
Definition upright_lock_ops : list Op :=
  [OpRotate 1; OpMove (-1) 0; OpMove (-1) 0; OpMove (-1) 0; OpLock].

Definition upright_lock_board : @Board unit :=
  Eval vm_compute in
    from_Ok no_board (run_ops rev_shuffle upright_lock_ops started_board).

(** The fresh game after a hard drop of its first piece. *)
Definition dropped_board : @Board unit :=
  Eval vm_compute in from_Ok no_board (hard_drop rev_shuffle started_board).

(** Play that goes on after the swap that ended the game. *)
Definition played_on_board : @Board unit :=
  Eval vm_compute in
    from_Ok no_board
      (run_ops rev_shuffle [OpMove (-1) 0; OpHardDrop; OpSpawn] swapped_board).

(** * Facts *)

Section EngineFacts.

Set Default Proof Using "Type".

Context {G T : Type}.
Variable shuffle : G -> list Kind.t -> list Kind.t * G.
Variable lit : Z -> T.
Variables t_add t_sub : T -> T -> T.
Variables t_ge t_gt : T -> T -> bool.

Local Abbreviation Board := (@Board G).
Local Abbreviation Game := (@Game G T).

(** [random.shuffle] is assumed to do its job: the shuffled list is a
    permutation of its argument.  Only the lemmas that say so in their
    [Proof using] line depend on it. *)
Hypothesis shuffle_perm : forall g l, fst (shuffle g l) ≡ₚ l.

(** [tauto] and [intuition] take a section variable of function type for
    an implication they may use; the wrappers below put the parameters
    the goal does not mention out of their sight first. *)
Ltac hide_parameters :=
  try clear shuffle_perm; try clear shuffle;
  try clear t_gt; try clear t_ge; try clear t_sub; try clear t_add;
  try clear lit.

Ltac prop_tauto := hide_parameters; tauto.

Ltac prop_congruence := hide_parameters; intuition congruence.

(** ** Indexing *)

Lemma bind_Ok {A B : Type} (m : res A) (k : A -> res B) (r : B) :
  bind m k = Ok r -> exists a, m = Ok a /\ k a = Ok r.
Proof. destruct m; simpl; intros H; try discriminate. eauto. Qed.

Lemma py_index_Ok (n : nat) (i : Z) (k : nat) :
  py_index n i = Ok k ->
  (k < n)%nat /\ (Z.of_nat k = i \/ Z.of_nat k = Z.of_nat n + i).
Proof.
  unfold py_index.
  destruct ((0 <=? i) && (i <? Z.of_nat n)) eqn:E1.
  - intros [= <-]. lia.
  - destruct ((- Z.of_nat n <=? i) && (i <? 0)) eqn:E2; [|discriminate].
    intros [= <-]. lia.
Qed.

Lemma py_index_nonneg (n : nat) (i : Z) :
  0 <= i < Z.of_nat n -> py_index n i = Ok (Z.to_nat i).
Proof.
  intros H. unfold py_index.
  destruct ((0 <=? i) && (i <? Z.of_nat n)) eqn:E1; [reflexivity | lia].
Qed.

Lemma py_index_not_Diverge (n : nat) (i : Z) : py_index n i <> Diverge.
Proof.
  unfold py_index.
  destruct ((0 <=? i) && (i <? Z.of_nat n)); [discriminate|].
  destruct ((- Z.of_nat n <=? i) && (i <? 0)); discriminate.
Qed.

Lemma py_getitem_elem_of {A : Type} (l : list A) (i : Z) (a : A) :
  py_getitem l i = Ok a -> a ∈ l.
Proof.
  unfold py_getitem. intros H. apply bind_Ok in H as (k & _ & H).
  destruct (l !! k) eqn:E; [|discriminate].
  injection H as <-. eapply list_elem_of_lookup_2; eauto.
Qed.

Lemma py_getitem_nonneg {A : Type} (l : list A) (i : Z) :
  0 <= i < Z.of_nat (length l) ->
  exists a, py_getitem l i = Ok a /\ l !! Z.to_nat i = Some a.
Proof.
  intros H. unfold py_getitem. rewrite py_index_nonneg by lia. simpl.
  destruct (lookup_lt_is_Some_2 l (Z.to_nat i)) as [a Ha]; [lia|].
  rewrite Ha. eauto.
Qed.

Lemma py_getitem_total {A : Type} (l : list A) (i : Z) :
  - Z.of_nat (length l) <= i < Z.of_nat (length l) ->
  exists a, py_getitem l i = Ok a.
Proof.
  intros H. unfold py_getitem.
  destruct (py_index (length l) i) as [k| |] eqn:E.
  - apply py_index_Ok in E as [Hk _].
    destruct (lookup_lt_is_Some_2 l k Hk) as [a Ha]. simpl. rewrite Ha. eauto.
  - unfold py_index in E.
    destruct ((0 <=? i) && (i <? Z.of_nat (length l))) eqn:E1; [discriminate|].
    destruct ((- Z.of_nat (length l) <=? i) && (i <? 0)) eqn:E2; [discriminate|].
    lia.
  - apply py_index_not_Diverge in E. contradiction.
Qed.

Lemma py_getitem_range {A : Type} (l : list A) (i : Z) (a : A) :
  py_getitem l i = Ok a -> - Z.of_nat (length l) <= i < Z.of_nat (length l).
Proof.
  unfold py_getitem. intros H. apply bind_Ok in H as (k & Hk & _).
  apply py_index_Ok in Hk. lia.
Qed.

Lemma py_getitem_not_Diverge {A : Type} (l : list A) (i : Z) :
  py_getitem l i <> Diverge.
Proof.
  unfold py_getitem. pose proof (py_index_not_Diverge (length l) i).
  destruct (py_index (length l) i); simpl; try congruence.
  destruct (l !! a); discriminate.
Qed.

(** ** The shape table *)

Lemma shape_table_states (k : Kind.t) :
  length (TETROMINO_SHAPES k) = 4%nat /\
  Forall (fun st => length st = 4%nat /\ Forall offset_in_box st)
    (TETROMINO_SHAPES k).
Proof.
  destruct k; (split; [reflexivity|]);
    repeat (constructor; [split; [reflexivity|];
      repeat (constructor; [unfold offset_in_box; simpl; lia|]); constructor|]);
    constructor.
Qed.

Lemma cells_shape (p : Piece.t) (cs : list (Z * Z)) :
  Piece.cells p None = Ok cs ->
  exists shape,
    cs = map (fun '(cx, cy) => (Piece.x p + cx, Piece.y p + cy)) shape /\
    length shape = 4%nat /\ Forall offset_in_box shape.
Proof.
  unfold Piece.cells. intros H. apply bind_Ok in H as (shape & Hs & H).
  injection H as <-. exists shape. split; [reflexivity|].
  apply py_getitem_elem_of in Hs.
  destruct (shape_table_states (Piece.kind p)) as [_ Hall].
  rewrite Forall_forall in Hall. apply Hall in Hs. exact Hs.
Qed.

Lemma cells_total (p : Piece.t) :
  rotation_ok p -> exists cs, Piece.cells p None = Ok cs.
Proof.
  unfold rotation_ok. intros H. unfold Piece.cells.
  destruct (py_getitem_total (TETROMINO_SHAPES (Piece.kind p)) (Piece.rotation p))
    as (shape & ->).
  - destruct (shape_table_states (Piece.kind p)) as [-> _]. lia.
  - simpl. eauto.
Qed.

Lemma cells_rotation_ok (p : Piece.t) (cs : list (Z * Z)) :
  Piece.cells p None = Ok cs -> rotation_ok p.
Proof.
  unfold Piece.cells. intros H. apply bind_Ok in H as (shape & Hs & _).
  apply py_getitem_range in Hs.
  destruct (shape_table_states (Piece.kind p)) as [Hlen _].
  rewrite Hlen in Hs. exact Hs.
Qed.

Lemma valid_rotation_ok (p : Piece.t) (b : Board) (v : bool) :
  _valid b p = Ok v -> rotation_ok p.
Proof.
  unfold _valid. intros H. apply bind_Ok in H as (cs & Hcs & _).
  eapply cells_rotation_ok; eauto.
Qed.

Lemma cells_not_Diverge (p : Piece.t) (rot : option Z) :
  Piece.cells p rot <> Diverge.
Proof.
  unfold Piece.cells.
  match goal with |- context [py_getitem ?l ?i] =>
    pose proof (py_getitem_not_Diverge l i); destruct (py_getitem l i) end;
    simpl; congruence.
Qed.

(** Translating a piece translates its cells. *)
Lemma cells_translate (p : Piece.t) (dx dy : Z) (cs : list (Z * Z)) :
  Piece.cells p None = Ok cs ->
  Piece.cells
    (Piece.mk (Piece.kind p) (Piece.x p + dx) (Piece.y p + dy) (Piece.rotation p))
    None
  = Ok (map (fun '(x, y) => (x + dx, y + dy)) cs).
Proof.
  unfold Piece.cells. simpl. intros H. apply bind_Ok in H as (shape & -> & H).
  injection H as <-. simpl. f_equal. rewrite map_map.
  apply map_ext. intros [cx cy]. f_equal; lia.
Qed.

(** ** Validity *)

Lemma grid_get_in_bounds (b : Board) (x y : Z) :
  grid_wf b -> 0 <= x < cols b -> 0 <= y < rows b ->
  exists row c,
    grid b !! Z.to_nat y = Some row /\ row !! Z.to_nat x = Some c /\
    grid_get b x y = Ok c.
Proof.
  intros [Hlen Hrows] Hx Hy. unfold grid_get.
  destruct (py_getitem_nonneg (grid b) y) as (row & Hg & Hrow); [lia|].
  rewrite Hg. simpl.
  assert (Hw : Z.of_nat (length row) = cols b).
  { rewrite Forall_forall in Hrows. apply Hrows.
    eapply list_elem_of_lookup_2; eauto. }
  destruct (py_getitem_nonneg row x) as (c & Hc & Hcell); [lia|].
  eauto.
Qed.

Lemma grid_get_not_Diverge (b : Board) (x y : Z) : grid_get b x y <> Diverge.
Proof.
  unfold grid_get. pose proof (py_getitem_not_Diverge (grid b) y).
  destruct (py_getitem (grid b) y) as [row| |]; simpl; try congruence.
  apply py_getitem_not_Diverge.
Qed.

Lemma valid_cells_total (b : Board) (cs : list (Z * Z)) :
  grid_wf b -> exists v, valid_cells b cs = Ok v.
Proof.
  intros Hwf. induction cs as [|[x y] cs IH]; simpl; [eauto|].
  destruct (y <? 0) eqn:Ey.
  - destruct (negb ((0 <=? x) && (x <? cols b))); eauto.
  - unfold _in_bounds.
    destruct (negb ((0 <=? x) && (x <? cols b) && (y <? rows b))) eqn:Eb; [eauto|].
    destruct (grid_get_in_bounds b x y Hwf) as (row & c & _ & _ & ->); [lia|lia|].
    simpl. destruct c; eauto.
Qed.

Lemma valid_cells_not_Diverge (b : Board) (cs : list (Z * Z)) :
  valid_cells b cs <> Diverge.
Proof.
  induction cs as [|[x y] cs IH]; simpl; [discriminate|].
  destruct (y <? 0).
  - destruct (negb _); [discriminate | exact IH].
  - destruct (negb _); [discriminate|].
    pose proof (grid_get_not_Diverge b x y).
    destruct (grid_get b x y) as [[c|]| |]; simpl; congruence.
Qed.

Lemma valid_not_Diverge (b : Board) (p : Piece.t) : _valid b p <> Diverge.
Proof.
  unfold _valid. pose proof (cells_not_Diverge p None).
  destruct (Piece.cells p None); simpl; try congruence.
  apply valid_cells_not_Diverge.
Qed.

Lemma valid_total (b : Board) (p : Piece.t) :
  grid_wf b -> rotation_ok p -> exists v, _valid b p = Ok v.
Proof.
  intros Hwf Hr. unfold _valid.
  destruct (cells_total p Hr) as [cs ->]. simpl.
  apply valid_cells_total, Hwf.
Qed.

(** [valid_cells] answers [True] exactly when every cell is free. *)
Lemma valid_cells_true (b : Board) (cs : list (Z * Z)) :
  valid_cells b cs = Ok true <-> Forall (cell_free b) cs.
Proof.
  induction cs as [|[x y] cs IH]; simpl.
  - split; [constructor | reflexivity].
  - rewrite Forall_cons. unfold cell_free at 1. simpl.
    destruct (y <? 0) eqn:Ey.
    + destruct ((0 <=? x) && (x <? cols b)) eqn:Ex; simpl.
      * rewrite IH. split; [intros H; split; [lia | exact H] | prop_tauto].
      * split; [discriminate | lia].
    + unfold _in_bounds.
      destruct ((0 <=? x) && (x <? cols b) && (y <? rows b)) eqn:Eb; simpl.
      * destruct (grid_get b x y) as [[c|]| |] eqn:Eg; simpl.
        -- split; [discriminate|]. intros [[_ [H|[_ H]]] _]; [lia | discriminate].
        -- rewrite IH. split; [intros H; split; [split; [lia|right; split; [lia|auto]] | exact H] | prop_tauto].
        -- split; [discriminate|]. intros [[_ [H|[_ H]]] _]; [lia | discriminate].
        -- split; [discriminate|]. intros [[_ [H|[_ H]]] _]; [lia | discriminate].
      * split; [discriminate | lia].
Qed.

(** A valid piece has its anchor row above the floor. *)
Lemma valid_anchor_bound (b : Board) (p : Piece.t) :
  _valid b p = Ok true -> Piece.y p < Z.max (rows b) 0.
Proof.
  unfold _valid. intros H. apply bind_Ok in H as (cs & Hcs & H).
  apply valid_cells_true in H.
  apply cells_shape in Hcs as (shape & -> & Hlen & Hbox).
  destruct shape as [|[cx cy] shape]; [discriminate|].
  apply Forall_cons in Hbox as [[_ Hcy] _]. simpl in Hcy.
  simpl in H. apply Forall_cons in H as [[_ H] _]. simpl in H. lia.
Qed.

(** Validity only reads the dimensions and the grid. *)
Lemma valid_cells_ext (b b' : Board) (cs : list (Z * Z)) :
  cols b' = cols b -> rows b' = rows b -> grid b' = grid b ->
  valid_cells b' cs = valid_cells b cs.
Proof.
  intros Hc Hr Hg. induction cs as [|[x y] cs IH]; simpl; [reflexivity|].
  unfold _in_bounds, grid_get. rewrite Hc, Hr, Hg, IH. reflexivity.
Qed.

Lemma valid_ext (b b' : Board) (p : Piece.t) :
  cols b' = cols b -> rows b' = rows b -> grid b' = grid b ->
  _valid b' p = _valid b p.
Proof.
  intros Hc Hr Hg. unfold _valid.
  destruct (Piece.cells p None); simpl; try reflexivity.
  apply valid_cells_ext; assumption.
Qed.

(** ** Movement *)

Lemma try_move_cases (b : Board) (cur : Piece.t) (dx dy : Z) :
  current b = Some cur ->
  let moved :=
    Piece.mk (Piece.kind cur) (Piece.x cur + dx) (Piece.y cur + dy)
      (Piece.rotation cur) in
  forall r, try_move b dx dy = r ->
  match _valid b moved with
  | Ok true => r = Ok (set_current (Some moved) b, true)
  | Ok false => r = Ok (b, false)
  | Raise e => r = Raise e
  | Diverge => r = Diverge
  end.
Proof.
  intros Hcur moved r <-. unfold try_move. rewrite Hcur. fold moved.
  destruct (_valid b moved) as [[|]| |]; reflexivity.
Qed.

(** ** Rotation *)

Lemma try_kicks_cons (b : Board) (rotated : Piece.t) (k : Z * Z)
    (kicks : list (Z * Z)) :
  try_kicks b rotated (k :: kicks)
  = (v <- _valid b (kick_candidate rotated k) ;;
     if v then Ok (set_current (Some (kick_candidate rotated k)) b, true)
     else try_kicks b rotated kicks).
Proof. destruct k as [kx ky]. reflexivity. Qed.

Lemma try_kicks_first_valid (b : Board) (rotated : Piece.t) (kicks : list (Z * Z)) :
  (forall k, k ∈ kicks -> exists v, _valid b (kick_candidate rotated k) = Ok v) ->
  (exists i k,
      kicks !! i = Some k /\
      _valid b (kick_candidate rotated k) = Ok true /\
      (forall j k', (j < i)%nat -> kicks !! j = Some k' ->
                    _valid b (kick_candidate rotated k') = Ok false) /\
      try_kicks b rotated kicks
      = Ok (set_current (Some (kick_candidate rotated k)) b, true))
  \/
  ((forall k, k ∈ kicks -> _valid b (kick_candidate rotated k) = Ok false) /\
   try_kicks b rotated kicks = Ok (b, false)).
Proof.
  induction kicks as [|[kx ky] kicks IH]; intros Hall.
  - right. split; [intros k Hk; inversion Hk | reflexivity].
  - simpl.
    change (Piece.mk (Piece.kind rotated) (Piece.x rotated + kx)
              (Piece.y rotated + ky) (Piece.rotation rotated))
      with (kick_candidate rotated (kx, ky)).
    destruct (Hall (kx, ky)) as [v Hv]; [left|].
    rewrite Hv. simpl. destruct v.
    + left. exists 0%nat, (kx, ky). repeat split; auto. intros j k' Hj. lia.
    + destruct IH as [(i & k & Hi & Hk & Hbefore & Hres)|[Hnone Hres]].
      * intros k Hk. apply Hall. right. exact Hk.
      * left. exists (S i), k. repeat split; auto.
        intros [|j] k' Hj Hlook; simpl in Hlook.
        -- injection Hlook as <-. exact Hv.
        -- apply (Hbefore j); [lia | exact Hlook].
      * right. split; [|exact Hres].
        intros k Hk. apply elem_of_cons in Hk as [->|Hk]; auto.
Qed.

Lemma rotated_rotation_ok (p : Piece.t) (dr : Z) :
  rotation_ok (Piece.rotated p dr).
Proof.
  unfold rotation_ok. simpl.
  pose proof (Z.mod_pos_bound (Piece.rotation p + dr) 4). lia.
Qed.

(** ** Hard-drop distance *)

Lemma shift_down_0 (p : Piece.t) : shift_down p 0 = p.
Proof. destruct p. unfold shift_down. simpl. f_equal. lia. Qed.

Lemma shift_down_add (p : Piece.t) (d e : Z) :
  shift_down (shift_down p d) e = shift_down p (d + e).
Proof. unfold shift_down. simpl. f_equal. lia. Qed.

(** With the fuel of [drop_fuel] the probing loop always finishes. *)
Lemma hard_drop_loop_not_Diverge (fuel : nat) (b : Board) (tmp : Piece.t) (dist : Z) :
  (Z.to_nat (Z.max (rows b) 0 - Piece.y tmp) < fuel)%nat ->
  hard_drop_loop fuel b tmp dist <> Diverge.
Proof.
  revert tmp dist. induction fuel as [|fuel IH]; intros tmp dist Hfuel; [lia|].
  simpl. change (Piece.mk _ _ _ _) with (shift_down tmp 1).
  pose proof (valid_not_Diverge b (shift_down tmp 1)) as Hnd.
  destruct (_valid b (shift_down tmp 1)) as [[|]| |] eqn:Ev; simpl;
    try congruence.
  apply IH. apply valid_anchor_bound in Ev. simpl in Ev. simpl. lia.
Qed.

(** More fuel than needed does not change the answer. *)
Lemma hard_drop_loop_fuel_irrelevant (fuel fuel' : nat) (b : Board)
    (tmp : Piece.t) (dist : Z) :
  (Z.to_nat (Z.max (rows b) 0 - Piece.y tmp) < fuel)%nat ->
  (fuel <= fuel')%nat ->
  hard_drop_loop fuel' b tmp dist = hard_drop_loop fuel b tmp dist.
Proof.
  revert fuel' tmp dist.
  induction fuel as [|fuel IH]; intros fuel' tmp dist Hfuel Hle; [lia|].
  destruct fuel' as [|fuel']; [lia|].
  simpl. change (Piece.mk _ _ _ _) with (shift_down tmp 1).
  destruct (_valid b (shift_down tmp 1)) as [[|]| |] eqn:Ev; simpl;
    try reflexivity.
  apply IH; [|lia]. apply valid_anchor_bound in Ev. simpl in Ev. simpl. lia.
Qed.

(** The loop returns the number of consecutive valid one-row steps. *)
Lemma hard_drop_loop_spec (fuel : nat) (b : Board) (tmp : Piece.t) (dist : Z) :
  (Z.to_nat (Z.max (rows b) 0 - Piece.y tmp) < fuel)%nat ->
  grid_wf b -> rotation_ok tmp ->
  exists n : nat,
    hard_drop_loop fuel b tmp dist = Ok (dist + Z.of_nat n) /\
    (forall i : Z, 1 <= i <= Z.of_nat n -> _valid b (shift_down tmp i) = Ok true) /\
    _valid b (shift_down tmp (Z.of_nat n + 1)) = Ok false.
Proof.
  intros Hfuel Hwf. revert tmp dist Hfuel.
  induction fuel as [|fuel IH]; intros tmp dist Hfuel Hrot; [lia|].
  simpl. change (Piece.mk _ _ _ _) with (shift_down tmp 1).
  destruct (valid_total b (shift_down tmp 1) Hwf Hrot) as [v Ev].
  rewrite Ev. simpl. destruct v.
  - destruct (IH (shift_down tmp 1) (dist + 1)) as (n & Hres & Hsteps & Hstop).
    + apply valid_anchor_bound in Ev. simpl in Ev. simpl. lia.
    + exact Hrot.
    + exists (S n). split; [rewrite Hres; f_equal; lia|]. split.
      * intros i Hi. destruct (Z.eq_dec i 1) as [->|Hne]; [exact Ev|].
        replace i with (1 + (i - 1)) by lia. rewrite <- shift_down_add.
        apply Hsteps. lia.
      * rewrite shift_down_add in Hstop.
        replace (Z.of_nat (S n) + 1) with (1 + (Z.of_nat n + 1)) by lia.
        exact Hstop.
  - exists 0%nat. split; [f_equal; lia|]. split; [intros i Hi; lia | exact Ev].
Qed.

Lemma hard_drop_distance_not_Diverge (b : Board) : hard_drop_distance b <> Diverge.
Proof.
  unfold hard_drop_distance. destruct (current b) as [cur|]; [|discriminate].
  apply hard_drop_loop_not_Diverge. unfold drop_fuel. simpl. lia.
Qed.

Lemma hard_drop_distance_spec (b : Board) (cur : Piece.t) :
  grid_wf b -> current b = Some cur -> rotation_ok cur ->
  exists n : nat,
    hard_drop_distance b = Ok (Z.of_nat n) /\
    (forall i : Z, 1 <= i <= Z.of_nat n -> _valid b (shift_down cur i) = Ok true) /\
    _valid b (shift_down cur (Z.of_nat n + 1)) = Ok false.
Proof.
  intros Hwf Hcur Hrot. unfold hard_drop_distance. rewrite Hcur.
  destruct cur as [k x y r].
  destruct (hard_drop_loop_spec (drop_fuel b (Piece.mk k x y r)) b
              (Piece.mk k x y r) 0) as (n & Hres & Hsteps & Hstop);
    [unfold drop_fuel; simpl; lia | exact Hwf | exact Hrot |].
  exists n. simpl. simpl in Hres. rewrite Hres. auto.
Qed.

(** ** Locking *)

Lemma only_grid_and_over_refl (b : Board) : only_grid_and_over b b.
Proof. unfold only_grid_and_over. prop_tauto. Qed.

Lemma only_grid_and_over_trans (b1 b2 b3 : Board) :
  only_grid_and_over b1 b2 -> only_grid_and_over b2 b3 ->
  only_grid_and_over b1 b3.
Proof. unfold only_grid_and_over. prop_congruence. Qed.

Lemma cell_free_in_range (b : Board) (c : Z * Z) :
  cell_free b c -> cell_in_range b c.
Proof. unfold cell_free, cell_in_range. prop_tauto. Qed.

Lemma grid_set_frame (b b' : Board) (x y : Z) (v : Cell) :
  grid_set b x y v = Ok b' -> exists g', b' = set_grid g' b.
Proof.
  unfold grid_set. intros H. apply bind_Ok in H as (iy & _ & H).
  destruct (grid b !! iy) as [row|]; [|discriminate].
  apply bind_Ok in H as (row' & _ & H). injection H as <-. eauto.
Qed.

Lemma grid_set_in_bounds (b : Board) (x y : Z) (v : Cell) :
  grid_wf b -> 0 <= x < cols b -> 0 <= y < rows b ->
  exists row,
    grid b !! Z.to_nat y = Some row /\
    grid_set b x y v
    = Ok (set_grid (<[Z.to_nat y := <[Z.to_nat x := v]> row]> (grid b)) b).
Proof.
  intros [Hlen Hrows] Hx Hy. unfold grid_set.
  rewrite py_index_nonneg by lia. simpl.
  destruct (lookup_lt_is_Some_2 (grid b) (Z.to_nat y)) as [row Hrow]; [lia|].
  rewrite Hrow. exists row. split; [reflexivity|].
  assert (Hw : Z.of_nat (length row) = cols b).
  { rewrite Forall_forall in Hrows. apply Hrows.
    eapply list_elem_of_lookup_2; eauto. }
  unfold py_setitem. rewrite py_index_nonneg by lia. reflexivity.
Qed.

Lemma grid_wf_insert (b : Board) (i j : nat) (row : list Cell) (v : Cell) :
  grid_wf b -> grid b !! i = Some row ->
  grid_wf (set_grid (<[i := <[j := v]> row]> (grid b)) b).
Proof.
  intros [Hlen Hrows] Hrow. split; simpl.
  - rewrite length_insert. exact Hlen.
  - apply Forall_insert; [exact Hrows|].
    rewrite length_insert. rewrite Forall_forall in Hrows. apply Hrows.
    eapply list_elem_of_lookup_2; eauto.
Qed.

Lemma lock_cells_frame (b b' : Board) (color : Color) (cs : list (Z * Z)) :
  lock_cells b color cs = Ok b' -> only_grid_and_over b b'.
Proof.
  revert b. induction cs as [|[x y] cs IH]; intros b H; simpl in H.
  - injection H as <-. apply only_grid_and_over_refl.
  - destruct (y <? 0).
    + apply IH in H. eapply only_grid_and_over_trans; [|exact H].
      unfold only_grid_and_over. simpl. prop_tauto.
    + apply bind_Ok in H as (b1 & Hset & H). apply IH in H.
      apply grid_set_frame in Hset as [g' ->].
      eapply only_grid_and_over_trans; [|exact H].
      unfold only_grid_and_over. simpl. prop_tauto.
Qed.

Lemma lock_cells_total (b : Board) (color : Color) (cs : list (Z * Z)) :
  grid_wf b -> Forall (cell_in_range b) cs ->
  exists b', lock_cells b color cs = Ok b' /\ grid_wf b'.
Proof.
  revert b. induction cs as [|[x y] cs IH]; intros b Hwf Hcs; simpl.
  - eauto.
  - apply Forall_cons in Hcs as [Hc Hcs]. unfold cell_in_range in Hc. simpl in Hc.
    destruct (y <? 0) eqn:Ey.
    + apply IH; [exact Hwf | exact Hcs].
    + destruct (grid_set_in_bounds b x y (Some color) Hwf) as (row & Hrow & ->);
        [lia | lia |].
      simpl. apply IH.
      * apply grid_wf_insert; assumption.
      * exact Hcs.
Qed.

Lemma lock_cells_not_Diverge (b : Board) (color : Color) (cs : list (Z * Z)) :
  lock_cells b color cs <> Diverge.
Proof.
  revert b. induction cs as [|[x y] cs IH]; intros b; simpl; [discriminate|].
  destruct (y <? 0); [apply IH|].
  unfold grid_set. pose proof (py_index_not_Diverge (length (grid b)) y).
  destruct (py_index (length (grid b)) y) as [iy| |]; simpl; try congruence.
  destruct (grid b !! iy) as [row|]; [|discriminate].
  unfold py_setitem. pose proof (py_index_not_Diverge (length row) x).
  destruct (py_index (length row) x); simpl; try congruence; try apply IH.
Qed.

(** ** Line clearing *)

Lemma filter_partition_length {A : Type} (f : A -> bool) (l : list A) :
  (length (List.filter f l) + length (List.filter (fun a => negb (f a)) l)
   = length l)%nat.
Proof.
  induction l as [|a l IH]; simpl; [reflexivity|].
  destruct (f a); simpl; lia.
Qed.

Lemma filter_all_kept {A : Type} (f : A -> bool) (l : list A) :
  length (List.filter f l) = length l -> List.filter f l = l.
Proof.
  induction l as [|a l IH]; simpl; [reflexivity|].
  pose proof (filter_partition_length f l) as Hpart.
  destruct (f a); simpl; intros H; [f_equal; apply IH; lia | lia].
Qed.

(** The count the code computes is the number of full rows. *)
Lemma cleared_count (b : Board) :
  grid_wf b ->
  rows b - Z.of_nat (length (List.filter has_empty_cell (grid b)))
  = Z.of_nat (length (full_rows (grid b))).
Proof.
  intros [Hlen _]. unfold full_rows.
  pose proof (filter_partition_length has_empty_cell (grid b)). lia.
Qed.

Lemma clear_lines_grid (b : Board) :
  grid_wf b ->
  grid (_clear_lines_efficient b)
  = replicate (length (full_rows (grid b)))
      (replicate (Z.to_nat (cols b)) (None : Cell))
    ++ List.filter has_empty_cell (grid b).
Proof.
  intros Hwf. unfold _clear_lines_efficient.
  rewrite (cleared_count b Hwf).
  destruct (0 <? Z.of_nat (length (full_rows (grid b)))) eqn:E.
  - simpl. rewrite Nat2Z.id. reflexivity.
  - assert (H0 : length (full_rows (grid b)) = 0%nat) by lia.
    rewrite H0. simpl. symmetry. apply filter_all_kept.
    pose proof (filter_partition_length has_empty_cell (grid b)).
    unfold full_rows in H0. lia.
Qed.

Lemma clear_lines_dims (b : Board) :
  cols (_clear_lines_efficient b) = cols b /\
  rows (_clear_lines_efficient b) = rows b.
Proof. unfold _clear_lines_efficient. destruct (0 <? _); simpl; auto. Qed.

Lemma clear_lines_wf (b : Board) :
  grid_wf b -> grid_wf (_clear_lines_efficient b).
Proof.
  intros Hwf. pose proof (clear_lines_grid b Hwf) as Hg.
  destruct (clear_lines_dims b) as [Hc Hr]. destruct Hwf as [Hlen Hrows].
  split; rewrite Hg.
  - rewrite Hr, length_app, length_replicate.
    pose proof (filter_partition_length has_empty_cell (grid b)).
    unfold full_rows. lia.
  - rewrite Hc. apply Forall_app. split.
    + destruct (full_rows (grid b)) as [|row fr] eqn:Ef; [constructor|].
      assert (Hin : In row (grid b)).
      { assert (Hin : In row (full_rows (grid b))) by (rewrite Ef; left; reflexivity).
        unfold full_rows in Hin. apply filter_In in Hin. prop_tauto. }
      rewrite Forall_forall in Hrows.
      apply list_elem_of_In, Hrows in Hin.
      apply Forall_replicate. rewrite length_replicate. lia.
    + rewrite Forall_forall in *. intros row Hin.
      apply Hrows. apply list_elem_of_In in Hin. apply filter_In in Hin as [Hin _].
      apply list_elem_of_In. exact Hin.
Qed.

(** ** Bag and next-queue *)

Lemma only_bag_and_queue_refl (b : Board) : only_bag_and_queue b b.
Proof. unfold only_bag_and_queue. prop_tauto. Qed.

Lemma only_bag_and_queue_trans (b1 b2 b3 : Board) :
  only_bag_and_queue b1 b2 -> only_bag_and_queue b2 b3 ->
  only_bag_and_queue b1 b3.
Proof. unfold only_bag_and_queue. prop_congruence. Qed.

Lemma py_pop_snoc {A : Type} (l : list A) (a : A) :
  py_pop (l ++ [a]) = Ok (a, l).
Proof. unfold py_pop. rewrite last_snoc, removelast_last. reflexivity. Qed.

Lemma py_pop_nonempty {A : Type} (l : list A) :
  l <> [] -> exists a l', l = l' ++ [a] /\ py_pop l = Ok (a, l').
Proof.
  intros Hne. destruct (exists_last Hne) as (l' & a & ->).
  exists a, l'. split; [reflexivity | apply py_pop_snoc].
Qed.

Lemma py_pop_not_Diverge {A : Type} (l : list A) : py_pop l <> Diverge.
Proof. unfold py_pop. destruct (last l); discriminate. Qed.

Lemma next_from_bag_frame (b b' : Board) (k : Kind.t) :
  _next_from_bag shuffle b = Ok (k, b') ->
  only_bag_and_queue b b' /\ next_queue b' = next_queue b.
Proof.
  unfold _next_from_bag. intros H. apply bind_Ok in H as ([k' l'] & _ & H).
  injection H as <- <-. unfold _refill_bag.
  destruct (bag b); [destruct (shuffle (rng b) SHAPE_DEFS_keys)|];
    unfold only_bag_and_queue; simpl; prop_tauto.
Qed.

Lemma next_from_bag_not_Diverge (b : Board) : _next_from_bag shuffle b <> Diverge.
Proof.
  unfold _next_from_bag.
  match goal with |- context [py_pop ?l] =>
    pose proof (py_pop_not_Diverge l); destruct (py_pop l) end;
    simpl; congruence.
Qed.

Lemma append_next_inv (b b' : Board) :
  append_next shuffle b = Ok b' ->
  only_bag_and_queue b b' /\ exists k, next_queue b' = next_queue b ++ [k].
Proof.
  unfold append_next. intros H. apply bind_Ok in H as ([k b1] & Hn & H).
  injection H as <-. simpl. apply next_from_bag_frame in Hn as [Hf Hq].
  split.
  - eapply only_bag_and_queue_trans; [exact Hf|].
    unfold only_bag_and_queue. simpl. prop_tauto.
  - exists k. simpl. rewrite Hq. reflexivity.
Qed.

Lemma append_next_not_Diverge (b : Board) : append_next shuffle b <> Diverge.
Proof.
  unfold append_next. pose proof (next_from_bag_not_Diverge b).
  destruct (_next_from_bag shuffle b); simpl; congruence.
Qed.

(** ** Spawning *)

Lemma spawn_inv (b b' : Board) :
  spawn shuffle b = Ok b' ->
  exists kind b2,
    only_bag_and_queue b b2 /\
    (forall k q, next_queue b = k :: q ->
                 kind = k /\ exists k', next_queue b2 = q ++ [k']) /\
    ((_valid b (spawn_piece (cols b) kind) = Ok false /\
      b' = set_game_over true b2) \/
     (_valid b (spawn_piece (cols b) kind) = Ok true /\
      b' = set_can_hold true
             (set_current (Some (spawn_piece (cols b) kind)) b2))).
Proof.
  unfold spawn. intros H. apply bind_Ok in H as (b1 & H1 & H).
  destruct (next_queue b1) as [|kind rest] eqn:Eq1; [discriminate|].
  apply bind_Ok in H as (b2 & H2 & H).
  apply append_next_inv in H2 as [Hf2 [k2 Hq2]]. simpl in Hq2.
  assert (Hf1 : only_bag_and_queue b b1 /\
                (forall k q, next_queue b = k :: q -> next_queue b1 = k :: q)).
  { destruct (next_queue b) eqn:Eq.
    - apply append_next_inv in H1 as [Hf _]. split; [exact Hf | discriminate].
    - injection H1 as <-. split; [apply only_bag_and_queue_refl|].
      intros k q Hkq. rewrite <- Hkq. exact Eq. }
  destruct Hf1 as [Hf1 Hq1].
  assert (Hf : only_bag_and_queue b b2).
  { eapply only_bag_and_queue_trans; [exact Hf1|].
    eapply only_bag_and_queue_trans; [|exact Hf2].
    unfold only_bag_and_queue. simpl. prop_tauto. }
  exists kind, b2. split; [exact Hf|]. split.
  - intros k q Hq. apply Hq1 in Hq. rewrite Eq1 in Hq. injection Hq as -> ->.
    split; [reflexivity | eauto].
  - apply bind_Ok in H as (v & Hv & H).
    assert (Hp : (if Kind.eqb kind Kind.I
                  then Piece.mk kind (cols b2 / 2 - 2) (-1) 0
                  else Piece.mk kind (cols b2 / 2 - 2) 0 0)
                 = spawn_piece (cols b) kind).
    { destruct Hf as [-> _]. unfold spawn_piece.
      destruct (Kind.eqb kind Kind.I); reflexivity. }
    simpl in Hv, H. rewrite Hp in Hv, H.
    rewrite (valid_ext b b2) in Hv by (unfold only_bag_and_queue in Hf; prop_tauto).
    destruct v; simpl in H; injection H as <-; [right | left]; auto.
Qed.

Lemma spawn_not_Diverge (b : Board) : spawn shuffle b <> Diverge.
Proof.
  unfold spawn.
  assert (H1 : match next_queue b with [] => append_next shuffle b | _ :: _ => Ok b end
               <> Diverge).
  { destruct (next_queue b); [apply append_next_not_Diverge | discriminate]. }
  destruct (match next_queue b with [] => append_next shuffle b | _ :: _ => Ok b end)
    as [b1| |]; simpl; try congruence.
  destruct (next_queue b1) as [|kind rest]; [discriminate|].
  pose proof (append_next_not_Diverge (set_next_queue rest b1)).
  destruct (append_next shuffle (set_next_queue rest b1)) as [b2| |]; simpl; try congruence.
  match goal with |- context [_valid ?bb ?pp] =>
    pose proof (valid_not_Diverge bb pp); destruct (_valid bb pp) as [[|]| |] end;
    simpl; congruence.
Qed.

Lemma lock_piece_not_Diverge (b : Board) : lock_piece shuffle b <> Diverge.
Proof.
  unfold lock_piece. destruct (current b) as [cur|]; [|discriminate].
  pose proof (cells_not_Diverge cur None).
  destruct (Piece.cells cur None) as [cs| |]; simpl; try congruence.
  pose proof (lock_cells_not_Diverge b (Piece.color cur) cs).
  destruct (lock_cells b (Piece.color cur) cs); simpl; try congruence.
  apply spawn_not_Diverge.
Qed.

Lemma next_from_bag_total (b : Board) :
  exists k b', _next_from_bag shuffle b = Ok (k, b').
Proof using Type shuffle_perm.
  unfold _next_from_bag.
  assert (Hne : bag (match bag b with [] => _refill_bag shuffle b | _ :: _ => b end) <> []).
  { destruct (bag b) eqn:Eb; [|congruence].
    unfold _refill_bag. pose proof (shuffle_perm (rng b) SHAPE_DEFS_keys) as Hp.
    destruct (shuffle (rng b) SHAPE_DEFS_keys) as [l g]. simpl in *.
    intros ->. apply Permutation_nil_l in Hp. discriminate. }
  destruct (py_pop_nonempty _ Hne) as (a & l' & _ & ->). simpl. eauto.
Qed.

Lemma append_next_total (b : Board) : exists b', append_next shuffle b = Ok b'.
Proof using Type shuffle_perm.
  unfold append_next. destruct (next_from_bag_total b) as (k & b' & ->).
  simpl. eauto.
Qed.

Lemma spawn_total (b : Board) : grid_wf b -> exists b', spawn shuffle b = Ok b'.
Proof using Type shuffle_perm.
  intros Hwf. unfold spawn.
  assert (H1 : exists b1,
             match next_queue b with [] => append_next shuffle b | _ :: _ => Ok b end
             = Ok b1 /\ next_queue b1 <> [] /\ only_bag_and_queue b b1).
  { destruct (next_queue b) eqn:Eq.
    - destruct (append_next_total b) as [b1 H1]. exists b1.
      split; [exact H1|]. apply append_next_inv in H1 as [Hf [k Hk]].
      split; [rewrite Hk; destruct (next_queue b); discriminate | exact Hf].
    - exists b. split; [reflexivity|].
      split; [congruence | apply only_bag_and_queue_refl]. }
  destruct H1 as (b1 & -> & Hne & Hf1). simpl.
  destruct (next_queue b1) as [|kind rest]; [congruence|].
  destruct (append_next_total (set_next_queue rest b1)) as [b2 H2].
  rewrite H2. simpl. apply append_next_inv in H2 as [Hf2 _].
  assert (Hf : only_bag_and_queue b b2).
  { eapply only_bag_and_queue_trans; [exact Hf1|].
    eapply only_bag_and_queue_trans; [|exact Hf2].
    unfold only_bag_and_queue. simpl. prop_tauto. }
  match goal with |- context [_valid b2 ?pp] =>
    destruct (valid_total b2 pp) as [v ->] end.
  - destruct Hwf as [Hl Hr]. unfold only_bag_and_queue in Hf.
    destruct Hf as (Hc & Hro & Hg & _).
    unfold grid_wf. rewrite Hg, Hc, Hro. split; assumption.
  - unfold rotation_ok. destruct (Kind.eqb kind Kind.I); simpl; lia.
  - simpl. destruct v; simpl; eauto.
Qed.

Lemma prefill_inv (n : nat) (b b' : Board) :
  prefill shuffle n b = Ok b' ->
  only_bag_and_queue b b' /\
  length (next_queue b') = (length (next_queue b) + n)%nat.
Proof.
  revert b. induction n as [|n IH]; intros b H; simpl in H.
  - injection H as <-. split; [apply only_bag_and_queue_refl | lia].
  - apply bind_Ok in H as (b1 & H1 & H). apply IH in H as [Hf Hl].
    apply append_next_inv in H1 as [Hf1 [k Hk]].
    split; [eapply only_bag_and_queue_trans; eauto|].
    rewrite Hl, Hk, length_app. simpl. lia.
Qed.

Lemma prefill_total (n : nat) (b : Board) : exists b', prefill shuffle n b = Ok b'.
Proof using Type shuffle_perm.
  revert b. induction n as [|n IH]; intros b; simpl; [eauto|].
  destruct (append_next_total b) as [b1 ->]. simpl. apply IH.
Qed.

(** ** The public operations, one by one *)

Lemma clear_lines_frame (b : Board) :
  cols (_clear_lines_efficient b) = cols b /\
  rows (_clear_lines_efficient b) = rows b /\
  current (_clear_lines_efficient b) = current b /\
  hold (_clear_lines_efficient b) = hold b /\
  can_hold (_clear_lines_efficient b) = can_hold b /\
  bag (_clear_lines_efficient b) = bag b /\
  next_queue (_clear_lines_efficient b) = next_queue b /\
  game_over (_clear_lines_efficient b) = game_over b /\
  rng (_clear_lines_efficient b) = rng b.
Proof.
  unfold _clear_lines_efficient. destruct (0 <? _); simpl; prop_tauto.
Qed.

Lemma lock_piece_inv (b b' : Board) (cur : Piece.t) :
  current b = Some cur -> lock_piece shuffle b = Ok b' ->
  exists cs b1,
    Piece.cells cur None = Ok cs /\
    lock_cells b (Piece.color cur) cs = Ok b1 /\
    spawn shuffle (_clear_lines_efficient (set_current None b1)) = Ok b'.
Proof.
  intros Hcur H. unfold lock_piece in H. rewrite Hcur in H.
  apply bind_Ok in H as (cs & Hcs & H). apply bind_Ok in H as (b1 & Hb1 & H).
  eauto.
Qed.

Lemma hold_piece_inv (b b' : Board) :
  hold_piece shuffle b = Ok b' ->
  b' = b \/
  exists cur,
    can_hold b = true /\ current b = Some cur /\
    ((hold b = None /\
      exists b1, spawn shuffle (set_hold (Some (Piece.kind cur)) b) = Ok b1 /\
                 b' = set_can_hold false b1) \/
     (exists held v,
        hold b = Some held /\
        let piece := Piece.mk held (cols b / 2 - 2) 0 0 in
        let b1 := set_hold (Some (Piece.kind cur)) (set_current (Some piece) b) in
        _valid b piece = Ok v /\
        b' = set_can_hold false (if v then b1 else set_game_over true b1))).
Proof.
  unfold hold_piece. intros H.
  destruct (can_hold b) eqn:Ec; simpl in H; [|left; congruence].
  destruct (current b) as [cur|] eqn:Ecur; [|left; congruence].
  right. exists cur. split; [reflexivity|]. split; [reflexivity|].
  apply bind_Ok in H as (b1 & H1 & H). injection H as <-.
  destruct (hold b) as [held|] eqn:Eh.
  - right. apply bind_Ok in H1 as (v & Hv & H1).
    rewrite valid_ext with (b := b) in Hv by reflexivity.
    exists held, v. split; [reflexivity|]. simpl. split; [exact Hv|].
    destruct v; simpl in H1; injection H1 as <-; reflexivity.
  - left. split; [reflexivity|]. eauto.
Qed.

Lemma hard_drop_inv (b b' : Board) (cur : Piece.t) :
  current b = Some cur -> hard_drop shuffle b = Ok b' ->
  exists drop b2,
    hard_drop_distance b = Ok drop /\
    lock_piece shuffle (set_current (Some (shift_down cur drop)) b) = Ok b2 /\
    b' = set_score (score b2 + 2 * drop) b2.
Proof.
  intros Hcur H. unfold hard_drop in H. rewrite Hcur in H.
  apply bind_Ok in H as (drop & Hd & H). apply bind_Ok in H as (b2 & Hl & H).
  injection H as <-. exists drop, b2. auto.
Qed.

Lemma try_move_inv (b b' : Board) (dx dy : Z) (r : bool) :
  try_move b dx dy = Ok (b', r) ->
  (r = false /\ b' = b) \/
  (r = true /\ exists cur,
      current b = Some cur /\
      b' = set_current
             (Some (Piece.mk (Piece.kind cur) (Piece.x cur + dx)
                      (Piece.y cur + dy) (Piece.rotation cur))) b).
Proof.
  unfold try_move. destruct (current b) as [cur|].
  - intros H. apply bind_Ok in H as (v & _ & H).
    destruct v; injection H as <- <-; [right | left]; eauto.
  - intros [= <- <-]. left. auto.
Qed.

Lemma try_kicks_inv (b b' : Board) (rotated : Piece.t) (kicks : list (Z * Z))
    (r : bool) :
  try_kicks b rotated kicks = Ok (b', r) ->
  (r = false /\ b' = b) \/
  (r = true /\ exists k, k ∈ kicks /\
      b' = set_current (Some (kick_candidate rotated k)) b).
Proof.
  induction kicks as [|[kx ky] kicks IH]; simpl.
  - intros [= <- <-]. left. auto.
  - intros H. apply bind_Ok in H as (v & _ & H). destruct v.
    + injection H as <- <-. right. split; [reflexivity|].
      exists (kx, ky). split; [left | reflexivity].
    + apply IH in H as [H|(Hr & k & Hk & Hb)]; [left; exact H|].
      right. split; [exact Hr|]. exists k. split; [right; exact Hk | exact Hb].
Qed.

Lemma try_rotate_inv (b b' : Board) (dr : Z) (r : bool) :
  try_rotate b dr = Ok (b', r) ->
  (r = false /\ b' = b) \/
  (r = true /\ exists p, is_Some (current b) /\ b' = set_current (Some p) b).
Proof.
  unfold try_rotate. destruct (current b) as [cur|] eqn:Ecur.
  - intros H. apply try_kicks_inv in H as [H|(Hr & k & _ & Hb)]; [left; exact H|].
    right. split; [exact Hr|]. eauto.
  - intros [= <- <-]. left. auto.
Qed.

Lemma soft_drop_inv (b b' : Board) (r : bool) :
  soft_drop b = Ok (b', r) ->
  (r = false /\ b' = b) \/
  (r = true /\ exists b1,
      try_move b 0 1 = Ok (b1, true) /\ b' = set_score (score b1 + 1) b1).
Proof.
  unfold soft_drop. intros H. apply bind_Ok in H as ([b1 moved] & Hm & H).
  destruct moved; injection H as <- <-.
  - right. eauto.
  - left. apply try_move_inv in Hm as [[_ ->]|[Hr _]]; [auto | discriminate].
Qed.

(** *** Spawn *)

Lemma spawn_game_over_mono (b b' : Board) :
  spawn shuffle b = Ok b' -> game_over b = true -> game_over b' = true.
Proof.
  intros H Hover. apply spawn_inv in H as (kind & b2 & Hf & _ & [[_ ->]|[_ ->]]);
    simpl; [reflexivity|].
  unfold only_bag_and_queue in Hf. prop_congruence.
Qed.

Lemma spawn_piece_or_over (b b' : Board) :
  spawn shuffle b = Ok b' -> piece_or_over b'.
Proof.
  intros H. apply spawn_inv in H as (kind & b2 & _ & _ & [[_ ->]|[_ ->]]).
  - right. reflexivity.
  - left. simpl. eauto.
Qed.

Lemma spawn_exactly_one (b b' : Board) :
  spawn shuffle b = Ok b' -> current b = None -> game_over b = false ->
  exactly_one_of_piece_and_over b'.
Proof.
  intros H Hcur Hover.
  apply spawn_inv in H as (kind & b2 & Hf & _ & [[_ ->]|[_ ->]]);
    unfold only_bag_and_queue in Hf.
  - right. simpl. prop_congruence.
  - left. simpl. split; [eauto | prop_congruence].
Qed.

Lemma spawn_queue_length (b b' : Board) :
  spawn shuffle b = Ok b' -> next_queue b <> [] ->
  length (next_queue b') = length (next_queue b).
Proof.
  intros H Hne. apply spawn_inv in H as (kind & b2 & _ & Hq & Hb').
  destruct (next_queue b) as [|k q] eqn:Eq; [congruence|].
  destruct (Hq k q eq_refl) as [_ [k' Hk']].
  assert (Hn : next_queue b' = next_queue b2).
  { destruct Hb' as [[_ ->]|[_ ->]]; reflexivity. }
  rewrite Hn, Hk', length_app. simpl. lia.
Qed.

(** *** Lock *)

Lemma lock_piece_game_over_mono (b b' : Board) :
  lock_piece shuffle b = Ok b' -> game_over b = true -> game_over b' = true.
Proof.
  intros H Hover. destruct (current b) as [cur|] eqn:Ecur.
  - apply (lock_piece_inv b b' cur Ecur) in H as (cs & b1 & _ & Hl & Hs).
    apply spawn_game_over_mono in Hs; [exact Hs|].
    destruct (clear_lines_frame (set_current None b1)) as (_ & _ & _ & _ & _ & _ & _ & -> & _).
    simpl. apply lock_cells_frame in Hl. unfold only_grid_and_over in Hl. prop_tauto.
  - unfold lock_piece in H. rewrite Ecur in H. congruence.
Qed.

Lemma lock_piece_piece_or_over (b b' : Board) :
  lock_piece shuffle b = Ok b' -> piece_or_over b -> piece_or_over b'.
Proof.
  intros H Hinv. destruct (current b) as [cur|] eqn:Ecur.
  - apply (lock_piece_inv b b' cur Ecur) in H as (cs & b1 & _ & _ & Hs).
    eapply spawn_piece_or_over; eauto.
  - unfold lock_piece in H. rewrite Ecur in H. congruence.
Qed.

Lemma lock_piece_queue_length (b b' : Board) :
  lock_piece shuffle b = Ok b' -> next_queue b <> [] ->
  length (next_queue b') = length (next_queue b).
Proof.
  intros H Hne. destruct (current b) as [cur|] eqn:Ecur.
  - apply (lock_piece_inv b b' cur Ecur) in H as (cs & b1 & _ & Hl & Hs).
    apply lock_cells_frame in Hl. unfold only_grid_and_over in Hl.
    destruct Hl as (_ & _ & _ & _ & _ & _ & Hq & _).
    destruct (clear_lines_frame (set_current None b1)) as (_ & _ & _ & _ & _ & _ & Hq' & _).
    simpl in Hq'. apply spawn_queue_length in Hs; [|congruence]. congruence.
  - unfold lock_piece in H. rewrite Ecur in H. congruence.
Qed.

(** *** Hard drop *)

Lemma hard_drop_cases (b b' : Board) :
  hard_drop shuffle b = Ok b' ->
  b' = b \/
  exists p b2 s,
    lock_piece shuffle (set_current (Some p) b) = Ok b2 /\ b' = set_score s b2.
Proof.
  intros H. destruct (current b) as [cur|] eqn:Ecur.
  - destruct (hard_drop_inv b b' cur Ecur H) as (drop & b2 & _ & Hl & Hb').
    right. exists (shift_down cur drop), b2, (score b2 + 2 * drop). auto.
  - unfold hard_drop in H. rewrite Ecur in H. left. congruence.
Qed.

(** *** All operations *)

Lemma run_op_game_over_mono (op : Op) (b b' : Board) :
  run_op shuffle op b = Ok b' -> game_over b = true -> game_over b' = true.
Proof.
  destruct op; simpl; intros H Hover.
  - eapply spawn_game_over_mono; eauto.
  - apply bind_Ok in H as ([b1 r] & H1 & H). injection H as <-.
    apply try_move_inv in H1 as [[_ ->]|(_ & cur & _ & ->)]; auto.
  - apply bind_Ok in H as ([b1 r] & H1 & H). injection H as <-.
    apply try_rotate_inv in H1 as [[_ ->]|(_ & p & _ & ->)]; auto.
  - apply bind_Ok in H as ([b1 r] & H1 & H). injection H as <-.
    apply soft_drop_inv in H1 as [[_ ->]|(_ & b2 & Hm & ->)]; auto.
    apply try_move_inv in Hm as [[_ ->]|(_ & cur & _ & ->)]; auto.
  - apply hard_drop_cases in H as [->|(p & b2 & s & Hl & ->)]; auto.
    simpl. eapply lock_piece_game_over_mono; eauto.
  - eapply lock_piece_game_over_mono; eauto.
  - apply hold_piece_inv in H
      as [->|(cur & _ & _ & [(_ & b1 & Hs & ->)|(held & v & _ & _ & ->)])]; auto.
    + simpl. eapply spawn_game_over_mono; eauto.
    + destruct v; simpl; auto.
Qed.

Lemma run_op_piece_or_over (op : Op) (b b' : Board) :
  run_op shuffle op b = Ok b' -> piece_or_over b -> piece_or_over b'.
Proof.
  destruct op; simpl; intros H Hinv.
  - eapply spawn_piece_or_over; eauto.
  - apply bind_Ok in H as ([b1 r] & H1 & H). injection H as <-.
    apply try_move_inv in H1 as [[_ ->]|(_ & cur & _ & ->)]; auto.
    left. simpl. eauto.
  - apply bind_Ok in H as ([b1 r] & H1 & H). injection H as <-.
    apply try_rotate_inv in H1 as [[_ ->]|(_ & p & _ & ->)]; auto.
    left. simpl. eauto.
  - apply bind_Ok in H as ([b1 r] & H1 & H). injection H as <-.
    apply soft_drop_inv in H1 as [[_ ->]|(_ & b2 & Hm & ->)]; auto.
    apply try_move_inv in Hm as [[_ ->]|(_ & cur & _ & ->)]; auto.
    left. simpl. eauto.
  - apply hard_drop_cases in H as [->|(p & b2 & s & Hl & ->)]; auto.
    apply lock_piece_piece_or_over in Hl; [exact Hl|]. left. simpl. eauto.
  - eapply lock_piece_piece_or_over; eauto.
  - apply hold_piece_inv in H
      as [->|(cur & _ & _ & [(_ & b1 & Hs & ->)|(held & v & _ & _ & ->)])]; auto.
    + apply spawn_piece_or_over in Hs. exact Hs.
    + left. destruct v; simpl; eauto.
Qed.

Lemma run_op_queue_length (op : Op) (b b' : Board) :
  run_op shuffle op b = Ok b' -> next_queue b <> [] ->
  length (next_queue b') = length (next_queue b).
Proof.
  destruct op; simpl; intros H Hne.
  - eapply spawn_queue_length; eauto.
  - apply bind_Ok in H as ([b1 r] & H1 & H). injection H as <-.
    apply try_move_inv in H1 as [[_ ->]|(_ & cur & _ & ->)]; auto.
  - apply bind_Ok in H as ([b1 r] & H1 & H). injection H as <-.
    apply try_rotate_inv in H1 as [[_ ->]|(_ & p & _ & ->)]; auto.
  - apply bind_Ok in H as ([b1 r] & H1 & H). injection H as <-.
    apply soft_drop_inv in H1 as [[_ ->]|(_ & b2 & Hm & ->)]; auto.
    apply try_move_inv in Hm as [[_ ->]|(_ & cur & _ & ->)]; auto.
  - apply hard_drop_cases in H as [->|(p & b2 & s & Hl & ->)]; auto.
    simpl. apply lock_piece_queue_length in Hl; auto.
  - eapply lock_piece_queue_length; eauto.
  - apply hold_piece_inv in H
      as [->|(cur & _ & _ & [(_ & b1 & Hs & ->)|(held & v & _ & _ & ->)])]; auto.
    + simpl. apply spawn_queue_length in Hs; auto.
    + destruct v; reflexivity.
Qed.

(** ** Scoring *)

Lemma spawn_frame (b b' : Board) :
  spawn shuffle b = Ok b' ->
  cols b' = cols b /\ rows b' = rows b /\ grid b' = grid b /\
  hold b' = hold b /\ score b' = score b /\
  lines_cleared b' = lines_cleared b /\ level b' = level b.
Proof.
  intros H. apply spawn_inv in H as (kind & b2 & Hf & _ & [[_ ->]|[_ ->]]);
    unfold only_bag_and_queue in Hf; simpl; prop_tauto.
Qed.

Lemma clear_lines_score (b : Board) :
  grid_wf b ->
  score (_clear_lines_efficient b)
  = score b
    + line_scores_get (Z.of_nat (length (full_rows (grid b)))) * level b.
Proof.
  intros Hwf. unfold _clear_lines_efficient. rewrite (cleared_count b Hwf).
  destruct (0 <? Z.of_nat (length (full_rows (grid b)))) eqn:E; simpl.
  - reflexivity.
  - assert (H0 : Z.of_nat (length (full_rows (grid b))) = 0) by lia.
    rewrite H0. change (line_scores_get 0) with 0. lia.
Qed.

Lemma clear_lines_level (b : Board) :
  grid_wf b -> (0 < length (full_rows (grid b)))%nat ->
  level (_clear_lines_efficient b)
  = 1 + lines_cleared (_clear_lines_efficient b) / 10.
Proof.
  intros Hwf Hpos. unfold _clear_lines_efficient. rewrite (cleared_count b Hwf).
  destruct (0 <? Z.of_nat (length (full_rows (grid b)))) eqn:E; [|lia].
  reflexivity.
Qed.

Lemma clear_lines_lines_cleared (b : Board) :
  grid_wf b ->
  lines_cleared (_clear_lines_efficient b)
  = lines_cleared b + Z.of_nat (length (full_rows (grid b))).
Proof.
  intros Hwf. unfold _clear_lines_efficient. rewrite (cleared_count b Hwf).
  destruct (0 <? Z.of_nat (length (full_rows (grid b)))) eqn:E; simpl; lia.
Qed.

(** A valid piece is locked without any index error. *)
Lemma lock_cells_valid (b : Board) (p : Piece.t) (cs : list (Z * Z)) :
  grid_wf b -> _valid b p = Ok true -> Piece.cells p None = Ok cs ->
  exists b1, lock_cells b (Piece.color p) cs = Ok b1 /\ grid_wf b1.
Proof.
  intros Hwf Hv Hcs. unfold _valid in Hv. rewrite Hcs in Hv. simpl in Hv.
  apply valid_cells_true in Hv. apply lock_cells_total; [exact Hwf|].
  eapply Forall_impl; [exact Hv|]. intros c. apply cell_free_in_range.
Qed.

Lemma lock_piece_total (b : Board) (cur : Piece.t) :
  grid_wf b -> current b = Some cur -> _valid b cur = Ok true ->
  exists cs b1 b',
    Piece.cells cur None = Ok cs /\
    lock_cells b (Piece.color cur) cs = Ok b1 /\ grid_wf b1 /\
    lock_piece shuffle b = Ok b' /\
    spawn shuffle (_clear_lines_efficient (set_current None b1)) = Ok b'.
Proof using Type shuffle_perm.
  intros Hwf Hcur Hv.
  destruct (cells_total cur (valid_rotation_ok _ _ _ Hv)) as [cs Hcs].
  destruct (lock_cells_valid b cur cs Hwf Hv Hcs) as (b1 & Hl & Hwf1).
  destruct (spawn_total (_clear_lines_efficient (set_current None b1)))
    as [b' Hs].
  { apply clear_lines_wf. exact Hwf1. }
  exists cs, b1, b'.
  split; [exact Hcs|]. split; [exact Hl|]. split; [exact Hwf1|].
  split; [|exact Hs].
  unfold lock_piece. rewrite Hcur, Hcs. simpl. rewrite Hl. simpl. exact Hs.
Qed.

Lemma lock_piece_score (b b1 b' : Board) :
  grid_wf b1 -> only_grid_and_over b b1 ->
  spawn shuffle (_clear_lines_efficient (set_current None b1)) = Ok b' ->
  score b' = score b
             + line_scores_get (Z.of_nat (length (full_rows (grid b1)))) * level b.
Proof.
  intros Hwf1 Hf Hs. apply spawn_frame in Hs as (_ & _ & _ & _ & -> & _).
  rewrite clear_lines_score by exact Hwf1. simpl.
  unfold only_grid_and_over in Hf. destruct Hf as (_ & _ & _ & _ & _ & _ & _ & -> & _ & -> & _).
  reflexivity.
Qed.

Lemma hard_drop_total (b : Board) (cur : Piece.t) :
  grid_wf b -> current b = Some cur -> _valid b cur = Ok true ->
  exists (n : nat) cs b1 b',
    hard_drop_distance b = Ok (Z.of_nat n) /\
    Piece.cells (shift_down cur (Z.of_nat n)) None = Ok cs /\
    lock_cells (set_current (Some (shift_down cur (Z.of_nat n))) b)
      (Piece.color cur) cs = Ok b1 /\
    hard_drop shuffle b = Ok b' /\
    score b'
    = score b
      + line_scores_get (Z.of_nat (length (full_rows (grid b1)))) * level b
      + 2 * Z.of_nat n.
Proof using Type shuffle_perm.
  intros Hwf Hcur Hv.
  pose proof (valid_rotation_ok _ _ _ Hv) as Hrot.
  destruct (hard_drop_distance_spec b cur Hwf Hcur Hrot) as (n & Hd & Hsteps & _).
  set (p := shift_down cur (Z.of_nat n)).
  set (bd := set_current (Some p) b).
  assert (Hvp : _valid bd p = Ok true).
  { rewrite (valid_ext b bd) by reflexivity. subst p.
    destruct n as [|n]; [simpl; rewrite shift_down_0; exact Hv|].
    apply Hsteps. lia. }
  destruct (lock_piece_total bd p) as (cs & b1 & b2 & Hcs & Hl & Hwf1 & Hlock & Hs);
    [exact Hwf | reflexivity | exact Hvp |].
  exists n, cs, b1, (set_score (score b2 + 2 * Z.of_nat n) b2).
  split; [exact Hd|]. split; [exact Hcs|]. split; [exact Hl|]. split.
  - unfold hard_drop. rewrite Hcur, Hd. simpl. fold (shift_down cur (Z.of_nat n)).
    fold p. fold bd. rewrite Hlock. reflexivity.
  - simpl. apply lock_cells_frame in Hl.
    rewrite (lock_piece_score bd b1 b2 Hwf1 Hl Hs). reflexivity.
Qed.

(** ** Reachable boards *)

Lemma Board_init_queue (c r : Z) (g : G) (b : Board) :
  Board_init shuffle c r g = Ok b -> length (next_queue b) = 5%nat.
Proof.
  unfold Board_init. intros H. apply prefill_inv in H as [_ H]. exact H.
Qed.

Lemma reachable_queue_length (b : Board) :
  reachable shuffle b -> length (next_queue b) = 5%nat.
Proof.
  induction 1 as [c r g b Hinit|op b b' Hreach IH Hop].
  - eapply Board_init_queue; eauto.
  - rewrite (run_op_queue_length op b b' Hop); [exact IH|].
    destruct (next_queue b); [discriminate | congruence].
Qed.

Lemma spawn_queue_shift (b b' : Board) (k : Kind.t) (q : list Kind.t) :
  next_queue b = k :: q -> spawn shuffle b = Ok b' ->
  exists k' bq,
    _next_from_bag shuffle (set_next_queue q b) = Ok (k', bq) /\
    next_queue b' = q ++ [k'].
Proof.
  intros Hq H. unfold spawn in H. rewrite Hq in H. simpl in H. rewrite Hq in H.
  apply bind_Ok in H as (b2 & H2 & H).
  unfold append_next in H2. apply bind_Ok in H2 as ([k' bq] & Hn & H2).
  injection H2 as <-. exists k', bq. split; [exact Hn|].
  apply next_from_bag_frame in Hn as [_ Hnq]. simpl in Hnq.
  apply bind_Ok in H as (v & _ & H).
  destruct v; simpl in H; injection H as <-; simpl; rewrite Hnq; reflexivity.
Qed.

(** ** Gravity *)

(** The instrumented loop computes the same state as the loop itself. *)
Lemma gravity_loop_calls_state (fuel : nat) (g : Game) (interval : T) :
  gravity_loop shuffle t_sub t_ge fuel g interval = res_map fst (gravity_loop_calls shuffle t_sub t_ge fuel g interval).
Proof.
  revert g. induction fuel as [|fuel IH]; intros g; simpl; [reflexivity|].
  destruct (t_ge (time_since_gravity g) interval); [|reflexivity].
  destruct (try_move _ 0 1) as [[b1 moved]| |]; simpl; try reflexivity.
  destruct moved; simpl.
  - rewrite IH. destruct (gravity_loop_calls shuffle t_sub t_ge fuel _ interval) as [[g' calls]| |];
      reflexivity.
  - destruct (lock_piece shuffle b1); reflexivity.
Qed.

Lemma update_calls_state (g : Game) (dt : T) :
  update shuffle lit t_add t_sub t_ge g dt = res_map fst (update_calls shuffle lit t_add t_sub t_ge g dt).
Proof.
  unfold update, update_calls. destruct (game_over (board g)); [reflexivity|].
  destruct (gravity_interval lit _) as [interval| |]; simpl; try reflexivity.
  apply gravity_loop_calls_state.
Qed.

(** The loop of [update] finishes within [gravity_fuel] passes. *)
Lemma gravity_loop_calls_not_Diverge (fuel : nat) (g : Game) (interval : T) :
  (gravity_fuel (board g) <= fuel)%nat ->
  gravity_loop_calls shuffle t_sub t_ge fuel g interval <> Diverge.
Proof.
  revert g. induction fuel as [|fuel IH]; intros g Hfuel.
  - unfold gravity_fuel, drop_fuel in Hfuel. destruct (current (board g)); lia.
  - simpl. destruct (t_ge (time_since_gravity g) interval); [|discriminate].
    destruct (current (board g)) as [cur|] eqn:Ecur.
    + pose proof (try_move_cases (board g) cur 0 1 Ecur _ eq_refl) as Hm.
      simpl in Hm.
      pose proof (valid_not_Diverge (board g)
                    (Piece.mk (Piece.kind cur) (Piece.x cur + 0)
                       (Piece.y cur + 1) (Piece.rotation cur))) as Hnd.
      destruct (_valid (board g) _) as [[|]| |] eqn:Ev; try congruence;
        rewrite Hm; simpl.
      * match goal with |- context [gravity_loop_calls shuffle t_sub t_ge fuel ?g2 interval] =>
          assert (Hrec : gravity_loop_calls shuffle t_sub t_ge fuel g2 interval <> Diverge);
          [|destruct (gravity_loop_calls shuffle t_sub t_ge fuel g2 interval) as [[g' calls]| |];
            simpl; congruence] end.
        apply IH. apply valid_anchor_bound in Ev. simpl in Ev.
        unfold gravity_fuel, drop_fuel in *. rewrite Ecur in Hfuel. simpl. lia.
      * pose proof (lock_piece_not_Diverge (board g)).
        destruct (lock_piece shuffle (board g)); simpl; congruence.
      * discriminate.
    + unfold try_move. simpl. rewrite Ecur. simpl.
      pose proof (lock_piece_not_Diverge (board g)).
      destruct (lock_piece shuffle (board g)); simpl; congruence.
Qed.

(** The calls of one run of the loop: successful one-row moves, then
    either nothing more (the time is used up) or one failed move
    followed by one lock. *)
Lemma gravity_loop_calls_shape (fuel : nat) (g g' : Game) (interval : T)
    (calls : list BoardCall) :
  gravity_loop_calls shuffle t_sub t_ge fuel g interval = Ok (g', calls) ->
  exists n : nat,
    (calls = repeat (CallTryMoveDown true) n /\
     t_ge (time_since_gravity g') interval = false /\
     time_since_gravity g'
     = Nat.iter n (fun t => t_sub t interval) (time_since_gravity g))
    \/
    (calls = repeat (CallTryMoveDown true) n
             ++ [CallTryMoveDown false; CallLockPiece] /\
     time_since_gravity g'
     = Nat.iter (S n) (fun t => t_sub t interval) (time_since_gravity g)).
Proof.
  revert g g' calls. induction fuel as [|fuel IH]; intros g g' calls H;
    simpl in H; [discriminate|].
  destruct (t_ge (time_since_gravity g) interval) eqn:Ege.
  - apply bind_Ok in H as ([b1 moved] & Hm & H). simpl in H.
    destruct moved; simpl in H.
    + apply bind_Ok in H as ([g2 rest] & Hrec & H). injection H as <- <-.
      apply IH in Hrec as [n [(-> & Hstop & Htime)|(-> & Htime)]];
        exists (S n); [left | right].
      * split; [reflexivity|]. split; [exact Hstop|].
        rewrite Nat.iter_succ_r. exact Htime.
      * split; [reflexivity|].
        rewrite Nat.iter_succ_r. exact Htime.
    + apply bind_Ok in H as (b2 & _ & H). injection H as <- <-.
      exists 0%nat. right. split; reflexivity.
  - injection H as <- <-. exists 0%nat. left. auto.
Qed.

Lemma count_locks_moves (n : nat) (tail : list BoardCall) :
  count_locks (repeat (CallTryMoveDown true) n ++ tail) = count_locks tail.
Proof. induction n as [|n IH]; simpl; [reflexivity | exact IH]. Qed.


Lemma reachable_run_ops (ops : list Op) (b b' : Board) :
  reachable shuffle b -> run_ops shuffle ops b = Ok b' -> reachable shuffle b'.
Proof.
  revert b. induction ops as [|op ops IH]; intros b Hreach H; simpl in H.
  - injection H as <-. exact Hreach.
  - apply bind_Ok in H as (b1 & Hop & H). apply (IH b1); [|exact H].
    eapply reachable_step; eauto.
Qed.

Lemma lock_cells_game_over (b b1 : Board) (color : Color) (cs : list (Z * Z)) :
  lock_cells b color cs = Ok b1 ->
  game_over b1 = game_over b || existsb (fun c => snd c <? 0) cs.
Proof.
  revert b. induction cs as [|[x y] cs IH]; intros b H; simpl in H.
  - injection H as <-. simpl. rewrite orb_false_r. reflexivity.
  - simpl. destruct (y <? 0).
    + apply IH in H. rewrite H. simpl. rewrite orb_true_r. reflexivity.
    + apply bind_Ok in H as (b' & Hset & H). apply IH in H. rewrite H.
      apply grid_set_frame in Hset as [g' ->]. reflexivity.
Qed.

(** ** The piece and the flag after an operation *)

Lemma exactly_one_of_values (b : Board) (c : option Piece.t) (o : bool) :
  current b = c -> game_over b = o ->
  (exactly_one_of_piece_and_over b
   <-> (is_Some c /\ o = false) \/ (c = None /\ o = true)).
Proof. intros <- <-. reflexivity. Qed.

Ltac exactly_one_by Hc Ho :=
  match goal with
  | |- exactly_one_of_piece_and_over ?x <-> _ =>
      rewrite (exactly_one_of_values x _ _ Hc Ho)
  end.

Lemma spawn_spawn_outcome (b b' : Board) :
  spawn shuffle b = Ok b' -> spawn_outcome b b'.
Proof.
  intros H. apply spawn_inv in H as (kind & b2 & Hf & Hq & Hcase).
  destruct Hf as (_ & _ & _ & Hc & _ & _ & _ & _ & _ & Ho).
  exists kind.
  destruct Hcase as [[Hv ->]|[Hv ->]]; [exists false | exists true];
    (split; [intros k q E; apply (Hq k q E)|]); (split; [exact Hv|]).
  - assert (Hc' : current (set_game_over true b2) = current b) by exact Hc.
    split; [exact Hc'|]. split; [reflexivity|].
    exactly_one_by Hc' (eq_refl true). split.
    + intros [[_ H]|[H _]]; [discriminate H | exact H].
    + intros H. right. split; [exact H | reflexivity].
  - split; [reflexivity|]. split; [exact Ho|].
    assert (Hc' : current (set_can_hold true
                             (set_current (Some (spawn_piece (cols b) kind)) b2))
                  = Some (spawn_piece (cols b) kind)) by reflexivity.
    exactly_one_by Hc' Ho. split.
    + intros [[_ H]|[H _]]; [exact H | discriminate H].
    + intros H. left. split; [eexists; reflexivity | exact H].
Qed.

Lemma lock_piece_lock_outcome (b b' : Board) (cur : Piece.t) :
  current b = Some cur -> lock_piece shuffle b = Ok b' -> lock_outcome b cur b'.
Proof.
  intros Hcur H.
  destruct (lock_piece_inv b b' cur Hcur H) as (cs & b1 & Hcs & Hl & Hs).
  pose proof (lock_cells_game_over _ _ _ _ Hl) as Hover.
  apply lock_cells_frame in Hl as Hframe.
  destruct Hframe as (Hc1 & _ & _ & _ & _ & _ & Hq1 & _).
  destruct (clear_lines_frame (set_current None b1))
    as (Hc3 & _ & Hcur3 & _ & _ & _ & Hq3 & Ho3 & _).
  destruct (spawn_spawn_outcome _ _ Hs) as (kind & v & Hq & Hv & Hc & Ho & _).
  rewrite Hc3 in Hv, Hc. simpl in Hv, Hc. rewrite Hc1 in Hv, Hc.
  rewrite Hcur3 in Hc. simpl in Hc.
  rewrite Ho3 in Ho. simpl in Ho. rewrite Hover in Ho.
  exists cs, b1, kind, v.
  split; [exact Hcs|]. split; [exact Hl|]. split.
  { intros k q E. apply (Hq k q). rewrite Hq3. simpl. rewrite Hq1. exact E. }
  split; [exact Hv|]. split; [exact Hc|]. split; [exact Ho|].
  exactly_one_by Hc Ho. destruct v.
  - rewrite orb_false_iff. split.
    + intros [[_ H']|[H' _]]; [right; exact H' | discriminate H'].
    + intros [H'|H']; [discriminate H'|].
      left. split; [eexists; reflexivity | exact H'].
  - split; [left; reflexivity | right; split; reflexivity].
Qed.

Lemma hold_piece_hold_outcome (b b' : Board) (cur : Piece.t) :
  can_hold b = true -> current b = Some cur ->
  hold_piece shuffle b = Ok b' -> hold_outcome b cur b'.
Proof.
  intros Hch Hcur H. unfold hold_piece in H. rewrite Hch, Hcur in H.
  cbn [negb] in H. apply bind_Ok in H as (b1 & H1 & H). injection H as <-.
  unfold hold_outcome. destruct (hold b) as [held|] eqn:Eh.
  - apply bind_Ok in H1 as (v & Hv & H1).
    rewrite (valid_ext b) in Hv by reflexivity.
    exists (Piece.mk held (cols b / 2 - 2) 0 0), v.
    split; [intros h Hh; congruence|]. split; [discriminate|].
    split; [exact Hv|].
    destruct v; simpl in H1; injection H1 as <-; simpl;
      (split; [reflexivity|]); (split; [reflexivity|]).
    + unfold exactly_one_of_piece_and_over. simpl. split.
      * intros [[_ H']|[H' _]]; [auto | discriminate H'].
      * intros [_ H']. left. split; [eexists; reflexivity | exact H'].
    + unfold exactly_one_of_piece_and_over. simpl. split.
      * intros [[_ H']|[H' _]]; discriminate H'.
      * intros [H' _]. discriminate H'.
  - destruct (spawn_spawn_outcome _ _ H1) as (kind & v & Hq & Hv & Hc & Ho & _).
    simpl in Hq, Hv, Hc, Ho.
    rewrite (valid_ext b) in Hv by reflexivity. rewrite Hcur in Hc.
    exists (spawn_piece (cols b) kind), v.
    split; [discriminate|].
    split; [intros _ k q E; rewrite (Hq k q E); reflexivity|].
    split; [exact Hv|].
    assert (Hc' : current (set_can_hold false b1)
                  = Some (if v then spawn_piece (cols b) kind else cur)).
    { simpl. rewrite Hc. destruct v; reflexivity. }
    assert (Ho' : game_over (set_can_hold false b1)
                  = (if v then game_over b else true)) by exact Ho.
    split; [exact Hc'|]. split; [exact Ho'|].
    exactly_one_by Hc' Ho'. destruct v; split.
    + intros [[_ H']|[H' _]]; [auto | discriminate H'].
    + intros [_ H']. left. split; [eexists; reflexivity | exact H'].
    + intros [[_ H']|[H' _]]; discriminate H'.
    + intros [H' _]. discriminate H'.
Qed.

(** * The claims *)

(** C1. Line clearing: on a [rows] by [cols] grid the new grid is
    [cleared] all-empty rows followed by the rows that were not full, in
    their original order, where [cleared] is the number of full rows; the
    dimensions stay, and [lines_cleared] grows by exactly [cleared]. *)
Theorem clear_lines_prepends_empty_rows (b : Board) :
  grid_wf b ->
  let cleared := length (full_rows (grid b)) in
  let b' := _clear_lines_efficient b in
  grid b'
  = replicate cleared (replicate (Z.to_nat (cols b)) (None : Cell))
    ++ List.filter has_empty_cell (grid b) /\
  cols b' = cols b /\ rows b' = rows b /\ grid_wf b' /\
  lines_cleared b' = lines_cleared b + Z.of_nat cleared.
Proof.
  intros Hwf cleared b'. subst cleared b'.
  split; [apply clear_lines_grid, Hwf|].
  destruct (clear_lines_dims b) as [Hc Hr].
  split; [exact Hc|]. split; [exact Hr|].
  split; [apply clear_lines_wf, Hwf | apply clear_lines_lines_cleared, Hwf].
Qed.

(** C2. Scoring on a well-formed board with a valid current piece:
    the line-score table is 100/300/500/800 for 1/2/3/4 lines and 0
    otherwise, multiplied by the level at the time of the clear; the level
    is recomputed as [1 + lines_cleared // 10] by every line-clear event; a
    successful soft drop adds 1; a hard drop over [n] rows adds the
    line-clear score of its lock plus [2 * n]. *)
Theorem scoring_rules (b : Board) (cur : Piece.t) :
  grid_wf b -> current b = Some cur -> _valid b cur = Ok true ->
  (line_scores_get 1 = 100 /\ line_scores_get 2 = 300 /\
   line_scores_get 3 = 500 /\ line_scores_get 4 = 800 /\
   forall c, c <> 1 -> c <> 2 -> c <> 3 -> c <> 4 -> line_scores_get c = 0) /\
  (forall cleared,
      score (_apply_scoring b cleared)
      = score b + line_scores_get cleared * level b /\
      lines_cleared (_apply_scoring b cleared) = lines_cleared b + cleared /\
      level (_apply_scoring b cleared)
      = 1 + lines_cleared (_apply_scoring b cleared) / 10) /\
  (let n := Z.of_nat (length (full_rows (grid b))) in
   score (_clear_lines_efficient b) = score b + line_scores_get n * level b /\
   level (_clear_lines_efficient b)
   = if 0 <? n then 1 + lines_cleared (_clear_lines_efficient b) / 10
     else level b) /\
  (exists b' moved,
      soft_drop b = Ok (b', moved) /\
      score b' = score b + (if moved then 1 else 0)) /\
  (exists (n : nat) cs b1 b',
      hard_drop_distance b = Ok (Z.of_nat n) /\
      Piece.cells (shift_down cur (Z.of_nat n)) None = Ok cs /\
      lock_cells (set_current (Some (shift_down cur (Z.of_nat n))) b)
        (Piece.color cur) cs = Ok b1 /\
      hard_drop shuffle b = Ok b' /\
      score b'
      = score b
        + line_scores_get (Z.of_nat (length (full_rows (grid b1)))) * level b
        + 2 * Z.of_nat n).
Proof using Type shuffle_perm.
  intros Hwf Hcur Hv. split; [|split; [|split; [|split]]].
  - repeat split; try reflexivity.
    intros c H1 H2 H3 H4. unfold line_scores_get.
    destruct (c =? 1) eqn:E1; [lia|]. destruct (c =? 2) eqn:E2; [lia|].
    destruct (c =? 3) eqn:E3; [lia|]. destruct (c =? 4) eqn:E4; [lia|].
    reflexivity.
  - intros cleared. unfold _apply_scoring. simpl. auto.
  - split; [apply clear_lines_score, Hwf|].
    destruct (0 <? Z.of_nat (length (full_rows (grid b)))) eqn:E.
    + apply clear_lines_level; [exact Hwf | lia].
    + unfold _clear_lines_efficient. rewrite (cleared_count b Hwf), E. reflexivity.
  - unfold soft_drop, try_move. rewrite Hcur.
    match goal with |- context [_valid b ?p] =>
      destruct (valid_total b p Hwf) as [v ->] end.
    { apply valid_rotation_ok in Hv. exact Hv. }
    destruct v; simpl; eexists _, _; (split; [reflexivity|]); simpl; lia.
  - apply hard_drop_total; assumption.
Qed.

(** C3. Rotation tries the kicks (0,0), (+1,0), (-1,0), (0,-1), (+2,0),
    (-2,0) in this order on the rotated piece, commits the first valid
    candidate and returns true, and returns false with the state
    unchanged when none is valid; when (0,0) is blocked and (+1,0) is
    free, the (+1,0) candidate is the one committed. *)
Theorem try_rotate_kick_order (b : Board) (cur : Piece.t) (dr : Z) :
  grid_wf b -> current b = Some cur ->
  let rotated := Piece.rotated cur dr in
  WALL_KICKS = [(0, 0); (1, 0); (-1, 0); (0, -1); (2, 0); (-2, 0)] /\
  ((exists i k,
       WALL_KICKS !! i = Some k /\
       _valid b (kick_candidate rotated k) = Ok true /\
       (forall j k', (j < i)%nat -> WALL_KICKS !! j = Some k' ->
                     _valid b (kick_candidate rotated k') = Ok false) /\
       try_rotate b dr
       = Ok (set_current (Some (kick_candidate rotated k)) b, true))
   \/
   ((forall k, k ∈ WALL_KICKS ->
               _valid b (kick_candidate rotated k) = Ok false) /\
    try_rotate b dr = Ok (b, false))) /\
  (_valid b (kick_candidate rotated (0, 0)) = Ok false ->
   _valid b (kick_candidate rotated (1, 0)) = Ok true ->
   try_rotate b dr
   = Ok (set_current (Some (kick_candidate rotated (1, 0))) b, true)).
Proof.
  intros Hwf Hcur rotated. split; [reflexivity|]. split.
  - unfold try_rotate. rewrite Hcur. fold rotated.
    apply try_kicks_first_valid. intros k _.
    apply valid_total; [exact Hwf|]. apply rotated_rotation_ok.
  - intros H0 H1. unfold try_rotate. rewrite Hcur. fold rotated.
    unfold WALL_KICKS. rewrite try_kicks_cons, H0. cbn [bind].
    rewrite try_kicks_cons, H1. reflexivity.
Qed.

(** C4, as the code has it.  After a completed public operation a
    current piece is present or game-over is true, provided one of the two
    held before (a spawn needs no such premise); exactly one of them holds
    after a spawn entered with no current piece and game-over false; move,
    rotate and soft drop leave both unchanged.  For the other operations
    the piece and the flag are given by the test the operation makes:
    after a spawn exactly one holds when the piece fits and the game was
    not over, or it does not fit and there was no piece; after a lock or
    a hard drop, when the next piece does not fit, or the game was not
    over and no locked cell is above the top edge; after a hold that does
    not return at once, when the piece brought in fits and the game was
    not over.  In the remaining cases both hold. *)
Theorem piece_or_game_over_after_operation (op : Op) (b b' : Board) :
  run_op shuffle op b = Ok b' ->
  (op = OpSpawn \/ piece_or_over b -> piece_or_over b') /\
  (op = OpSpawn -> current b = None -> game_over b = false ->
   exactly_one_of_piece_and_over b') /\
  (match op with
   | OpMove _ _ | OpRotate _ | OpSoftDrop =>
       (is_Some (current b') <-> is_Some (current b)) /\
       game_over b' = game_over b
   | OpSpawn => spawn_outcome b b'
   | OpLock =>
       match current b with
       | Some cur => lock_outcome b cur b'
       | None => b' = b
       end
   | OpHardDrop =>
       match current b with
       | Some cur =>
           exists drop,
             hard_drop_distance b = Ok drop /\
             lock_outcome (set_current (Some (shift_down cur drop)) b)
               (shift_down cur drop) b'
       | None => b' = b
       end
   | OpHold =>
       match current b with
       | Some cur => if can_hold b then hold_outcome b cur b' else b' = b
       | None => b' = b
       end
   end).
Proof.
  intros H. split; [|split].
  - intros [->|Hinv].
    + eapply spawn_piece_or_over. exact H.
    + eapply run_op_piece_or_over; eauto.
  - intros -> Hcur Hover. eapply spawn_exactly_one; eauto.
  - destruct op; simpl in *.
    + apply spawn_spawn_outcome. exact H.
    + apply bind_Ok in H as ([b1 r] & H1 & H). injection H as <-.
      apply try_move_inv in H1 as [[_ ->]|(_ & cur & Hc & ->)]; simpl.
      * prop_tauto.
      * rewrite Hc. split; [split; eauto | reflexivity].
    + apply bind_Ok in H as ([b1 r] & H1 & H). injection H as <-.
      apply try_rotate_inv in H1 as [[_ ->]|(_ & p & Hc & ->)]; simpl.
      * prop_tauto.
      * split; [split; eauto | reflexivity].
    + apply bind_Ok in H as ([b1 r] & H1 & H). injection H as <-.
      apply soft_drop_inv in H1 as [[_ ->]|(_ & b2 & Hm & ->)]; simpl.
      * prop_tauto.
      * apply try_move_inv in Hm as [[_ ->]|(_ & cur & Hc & ->)]; simpl.
        -- prop_tauto.
        -- rewrite Hc. split; [split; eauto | reflexivity].
    + destruct (current b) as [cur|] eqn:Ecur.
      * destruct (hard_drop_inv b b' cur Ecur H) as (drop & b2 & Hd & Hl & ->).
        exists drop. split; [exact Hd|].
        destruct (lock_piece_lock_outcome
                    (set_current (Some (shift_down cur drop)) b) b2
                    (shift_down cur drop) eq_refl Hl)
          as (cs & b1 & kind & v & Hout).
        exists cs, b1, kind, v. exact Hout.
      * unfold hard_drop in H. rewrite Ecur in H. congruence.
    + destruct (current b) as [cur|] eqn:Ecur.
      * apply lock_piece_lock_outcome; assumption.
      * unfold lock_piece in H. rewrite Ecur in H. congruence.
    + destruct (current b) as [cur|] eqn:Ecur.
      * destruct (can_hold b) eqn:Ech.
        -- apply hold_piece_hold_outcome; assumption.
        -- unfold hold_piece in H. rewrite Ech in H. simpl in H. congruence.
      * unfold hold_piece in H. rewrite Ecur in H.
        destruct (can_hold b); simpl in H; congruence.
Qed.



(** C7. A move either commits the current piece translated by exactly
    [(dx, dy)], everything else unchanged, and returns true, or returns
    false with the whole board unchanged; it raises nothing. *)
Theorem try_move_commits_or_leaves_unchanged (b : Board) (cur : Piece.t)
    (dx dy : Z) :
  grid_wf b -> current b = Some cur -> rotation_ok cur ->
  let moved :=
    Piece.mk (Piece.kind cur) (Piece.x cur + dx) (Piece.y cur + dy)
      (Piece.rotation cur) in
  (_valid b moved = Ok true /\
   try_move b dx dy = Ok (set_current (Some moved) b, true))
  \/
  (_valid b moved = Ok false /\ try_move b dx dy = Ok (b, false)).
Proof.
  intros Hwf Hcur Hrot moved.
  destruct (valid_total b moved Hwf Hrot) as [v Hv].
  pose proof (try_move_cases b cur dx dy Hcur _ eq_refl) as H.
  fold moved in H. rewrite Hv in H.
  destruct v; [left | right]; auto.
Qed.

(** C8. One call of [update] never loops forever and locks at most once:
    its calls on the board are successful one-row moves, one interval
    being subtracted for each, followed by nothing more (the accumulated
    time is then below the interval) or by one failed move and one lock,
    after which no further interval is processed. *)
Theorem update_locks_at_most_once (g : Game) (dt : T) :
  update_calls shuffle lit t_add t_sub t_ge g dt <> Diverge /\
  update shuffle lit t_add t_sub t_ge g dt = res_map fst (update_calls shuffle lit t_add t_sub t_ge g dt) /\
  match update_calls shuffle lit t_add t_sub t_ge g dt with
  | Ok (g', calls) =>
      (count_locks calls <= 1)%nat /\
      ((game_over (board g) = true /\ calls = [] /\ g' = g) \/
       (game_over (board g) = false /\
        exists interval (n : nat),
          gravity_interval lit
            (set_time_since_gravity (t_add (time_since_gravity g) dt) g)
          = Ok interval /\
          ((calls = repeat (CallTryMoveDown true) n /\
            t_ge (time_since_gravity g') interval = false /\
            time_since_gravity g'
            = Nat.iter n (fun t => t_sub t interval)
                (t_add (time_since_gravity g) dt))
           \/
           (calls = repeat (CallTryMoveDown true) n
                    ++ [CallTryMoveDown false; CallLockPiece] /\
            time_since_gravity g'
            = Nat.iter (S n) (fun t => t_sub t interval)
                (t_add (time_since_gravity g) dt)))))
  | Raise _ => True
  | Diverge => False
  end.
Proof.
  assert (Hnd : update_calls shuffle lit t_add t_sub t_ge g dt <> Diverge).
  { unfold update_calls. destruct (game_over (board g)); [discriminate|].
    pose proof (py_getitem_not_Diverge (LEVEL_SPEEDS lit)
                  (Z.min (level (board g) - 1)
                     (Z.of_nat (length (LEVEL_SPEEDS lit)) - 1))) as Hi.
    unfold gravity_interval. simpl board.
    destruct (py_getitem (LEVEL_SPEEDS lit) _) as [interval| |]; simpl; try congruence.
    apply gravity_loop_calls_not_Diverge. apply Nat.le_refl. }
  split; [exact Hnd|]. split; [apply update_calls_state|].
  destruct (update_calls shuffle lit t_add t_sub t_ge g dt) as [[g' calls]| |] eqn:E; [|exact Logic.I|congruence].
  unfold update_calls in E. destruct (game_over (board g)) eqn:Eover.
  - injection E as <- <-. split; [unfold count_locks; simpl; lia|]. left. auto.
  - apply bind_Ok in E as (interval & Hint & E).
    apply gravity_loop_calls_shape in E as [n Hshape]. simpl in Hshape.
    split.
    + destruct Hshape as [(-> & _)|(-> & _)].
      * rewrite <- (app_nil_r (repeat _ n)), count_locks_moves.
        unfold count_locks. simpl. lia.
      * rewrite count_locks_moves. unfold count_locks. simpl. lia.
    + right. split; [reflexivity|]. exists interval, n. split; [exact Hint|].
      exact Hshape.
Qed.

(** C9. The queue holds 5 kinds after construction and in every
    reachable board; a spawn takes the kind at the front and appends the
    kind freshly drawn from the bag, so the length is 5 after it. *)
Theorem next_queue_keeps_lookahead :
  (forall c r g,
      exists b, Board_init shuffle c r g = Ok b /\ length (next_queue b) = 5%nat) /\
  (forall b, reachable shuffle b -> length (next_queue b) = 5%nat) /\
  (forall b b',
      reachable shuffle b -> spawn shuffle b = Ok b' ->
      exists k q k' bq,
        next_queue b = k :: q /\
        _next_from_bag shuffle (set_next_queue q b) = Ok (k', bq) /\
        next_queue b' = q ++ [k'] /\
        length (next_queue b') = 5%nat).
Proof using Type shuffle_perm.
  split; [|split].
  - intros c r g. unfold Board_init.
    destruct (prefill_total 5
                (mkBoard c r (replicate (Z.to_nat r) (replicate (Z.to_nat c) None))
                   None None true [] [] 0 0 1 false g)) as [b Hb].
    exists b. split; [exact Hb|]. apply prefill_inv in Hb as [_ Hb]. exact Hb.
  - apply reachable_queue_length.
  - intros b b' Hreach Hs. pose proof (reachable_queue_length b Hreach) as Hlen.
    destruct (next_queue b) as [|k q] eqn:Eq; [discriminate|].
    destruct (spawn_queue_shift b b' k q Eq Hs) as (k' & bq & Hn & Hq').
    exists k, q, k', bq. repeat split; auto.
    rewrite Hq', length_app. simpl in *. lia.
Qed.

(** C10. Without a current piece every public operation returns at once:
    move, rotate and soft drop answer false, hard drop, lock and hold
    return, the drop distance is 0 and the ghost has no cells; the board
    is the same afterwards and nothing is raised. *)
Theorem operations_without_current_piece (b : Board) :
  current b = None ->
  (forall dx dy, try_move b dx dy = Ok (b, false)) /\
  (forall dr, try_rotate b dr = Ok (b, false)) /\
  soft_drop b = Ok (b, false) /\
  hard_drop shuffle b = Ok b /\
  lock_piece shuffle b = Ok b /\
  hold_piece shuffle b = Ok b /\
  hard_drop_distance b = Ok 0 /\
  ghost_cells b = Ok [].
Proof.
  intros Hcur.
  unfold try_move, try_rotate, soft_drop, try_move, hard_drop, lock_piece,
    hold_piece, hard_drop_distance, ghost_cells.
  rewrite Hcur. simpl. repeat split; try reflexivity.
  destruct (can_hold b); reflexivity.
Qed.

(** * Further properties of the engine *)

(** ** Shapes and rotation *)

Lemma rotate_point_four_times (p : Z * Z) :
  rotate_point (rotate_point (rotate_point (rotate_point p))) = p.
Proof. destruct p as [px py]. unfold rotate_point. f_equal; lia. Qed.

(** X1. The shape table holds, for every kind, four states: the base
    layout and its successive images under [(x, y) -> (3 - y, x)]; a
    fourth rotation gives the base layout back, and every state has four
    distinct offsets inside the 4 by 4 box. *)
Theorem shape_table_rotation_states (k : Kind.t) :
  exists s0 s1 s2 s3,
    TETROMINO_SHAPES k = [s0; s1; s2; s3] /\
    s1 = map rotate_point s0 /\
    s2 = map rotate_point s1 /\
    s3 = map rotate_point s2 /\
    map rotate_point s3 = s0 /\
    Forall (fun s => length s = 4%nat /\ NoDup s /\ Forall offset_in_box s)
      [s0; s1; s2; s3].
Proof.
  destruct k;
    (eexists _, _, _, _; split; [vm_compute; reflexivity|];
     repeat (split; [vm_compute; reflexivity|]);
     repeat (constructor;
             [split; [reflexivity|];
              split; [by apply (bool_decide_unpack _)|];
              repeat (constructor; [unfold offset_in_box; simpl; lia|]);
              constructor|]);
     constructor).
Qed.

(** Looks the states of a known kind up in the table. *)
Ltac eval_shape_lookups :=
  repeat match goal with
    | |- context [py_getitem (TETROMINO_SHAPES ?k) ?i] =>
        let v := eval vm_compute in (py_getitem (TETROMINO_SHAPES k) i) in
        change (py_getitem (TETROMINO_SHAPES k) i) with v
    end.

Lemma rotation_cases (r : Z) :
  0 <= r < 4 -> r = 0 \/ r = 1 \/ r = 2 \/ r = 3.
Proof. lia. Qed.

(** X2. A clockwise turn of a piece whose rotation is in [0 .. 3] sends
    the cell at box offset [(cx, cy)] to the offset [(3 - cy, cx)]; a
    clockwise and a counter-clockwise turn cancel, and four clockwise
    turns give the piece back. *)
Theorem rotated_turns_cells (p : Piece.t) :
  0 <= Piece.rotation p < 4 ->
  (exists cs,
      Piece.cells p None = Ok cs /\
      Piece.cells (Piece.rotated p 1) None
      = Ok (map (fun '(cx, cy) =>
                   (Piece.x p + (3 - (cy - Piece.y p)),
                    Piece.y p + (cx - Piece.x p))) cs)) /\
  Piece.rotated (Piece.rotated p 1) (-1) = p /\
  Piece.rotated (Piece.rotated p (-1)) 1 = p /\
  Piece.rotated (Piece.rotated (Piece.rotated (Piece.rotated p 1) 1) 1) 1 = p.
Proof.
  destruct p as [k x y r]. simpl. intros Hr.
  apply rotation_cases in Hr.
  destruct Hr as [-> | [-> | [-> | ->]]];
    (split; [|repeat split; reflexivity]);
    destruct k; unfold Piece.cells, Piece.rotated;
    cbn [Piece.kind Piece.x Piece.y Piece.rotation];
    eval_shape_lookups; eexists; (split; [reflexivity|]);
    simpl; repeat (f_equal; try lia).
Qed.


(** Compares the cells after a turn with the cells before, moved by
    [(dx, dy)]. *)
Ltac turn_by dx dy :=
  match goal with
  | |- map ?f _ ≡ₚ map _ ?l =>
      trans (map f (map (fun '(cx, cy) => (cx + dx, cy + dy)) l));
      [apply Permutation_map; by apply (bool_decide_unpack _)
      |simpl;
       match goal with
       | |- ?a ≡ₚ ?b =>
           replace b with a; [reflexivity | repeat (f_equal; try lia)]
       end]
  end.

(** X3. The O piece is not fixed by rotation: its 2 by 2 block sits in
    rows 0-1 of the box and turns about the box centre, so each clockwise
    turn moves the four cells by one column and one row, by (+1,+1),
    (-1,+1), (-1,-1), (+1,-1) from the rotations 0, 1, 2, 3. *)
Theorem O_piece_turn_shifts_block (p : Piece.t) :
  Piece.kind p = Kind.O -> 0 <= Piece.rotation p < 4 ->
  exists cs cs',
    Piece.cells p None = Ok cs /\
    Piece.cells (Piece.rotated p 1) None = Ok cs' /\
    let d :=
      if Piece.rotation p =? 0 then (1, 1)
      else if Piece.rotation p =? 1 then (-1, 1)
      else if Piece.rotation p =? 2 then (-1, -1)
      else (1, -1) in
    cs' ≡ₚ map (fun '(cx, cy) => (cx + fst d, cy + snd d)) cs.
Proof.
  destruct p as [k x y r]. simpl. intros -> Hr.
  apply rotation_cases in Hr.
  destruct Hr as [-> | [-> | [-> | ->]]];
    unfold Piece.cells, Piece.rotated;
    cbn [Piece.kind Piece.x Piece.y Piece.rotation];
    eval_shape_lookups; cbn [bind];
    (eexists _, _; split; [reflexivity|]; split; [reflexivity|]);
    cbn [Z.eqb fst snd]; rewrite map_map.
  - turn_by 1 1.
  - turn_by (-1) 1.
  - turn_by (-1) (-1).
  - turn_by 1 (-1).
Qed.


(** ** Validity, drops and the ghost *)

(** X4. On a [rows] by [cols] grid [_valid] raises nothing for a piece
    whose rotation indexes the table, and it answers true exactly when
    every cell of the piece is inside the side walls and, unless it is
    above the top edge, above the floor and on an empty grid cell. *)
Theorem valid_iff_all_cells_free (b : Board) (p : Piece.t) :
  grid_wf b -> rotation_ok p ->
  exists cs v,
    Piece.cells p None = Ok cs /\
    _valid b p = Ok v /\
    (v = true <-> Forall (cell_free b) cs).
Proof.
  intros Hwf Hrot. destruct (cells_total p Hrot) as [cs Hcs].
  destruct (valid_cells_total b cs Hwf) as [v Hv].
  exists cs, v. split; [exact Hcs|]. split.
  - unfold _valid. rewrite Hcs. exact Hv.
  - rewrite <- valid_cells_true, Hv. split; congruence.
Qed.

(** X5. [hard_drop_distance] returns the number [n] of consecutive valid
    one-row steps below the current piece: the steps 1 to [n] are valid,
    step [n + 1] is not, and no longer run of valid steps exists. *)
Theorem hard_drop_distance_is_longest_fall (b : Board) (cur : Piece.t) :
  grid_wf b -> current b = Some cur -> rotation_ok cur ->
  exists n : nat,
    hard_drop_distance b = Ok (Z.of_nat n) /\
    (forall i, 1 <= i <= Z.of_nat n -> _valid b (shift_down cur i) = Ok true) /\
    _valid b (shift_down cur (Z.of_nat n + 1)) = Ok false /\
    (forall m,
        (forall i, 1 <= i <= m -> _valid b (shift_down cur i) = Ok true) ->
        m <= Z.of_nat n).
Proof.
  intros Hwf Hcur Hrot.
  destruct (hard_drop_distance_spec b cur Hwf Hcur Hrot) as (n & Hd & Hsteps & Hstop).
  exists n. split; [exact Hd|]. split; [exact Hsteps|]. split; [exact Hstop|].
  intros m Hm. destruct (Z_le_gt_dec m (Z.of_nat n)) as [Hle|Hgt]; [exact Hle|].
  rewrite Hm in Hstop by lia. discriminate Hstop.
Qed.

Lemma cells_shift_down (p : Piece.t) (d : Z) (cs : list (Z * Z)) :
  Piece.cells p None = Ok cs ->
  Piece.cells (shift_down p d) None = Ok (map (fun '(x, y) => (x, y + d)) cs).
Proof.
  unfold Piece.cells, shift_down. simpl. intros H.
  apply bind_Ok in H as (shape & -> & H). injection H as <-. simpl. f_equal.
  rewrite map_map. apply map_ext. intros [cx cy]. f_equal. lia.
Qed.

(** The piece at the end of its fall is valid. *)
Lemma fallen_piece_valid (b : Board) (cur : Piece.t) (n : nat) :
  _valid b cur = Ok true ->
  (forall i, 1 <= i <= Z.of_nat n -> _valid b (shift_down cur i) = Ok true) ->
  _valid b (shift_down cur (Z.of_nat n)) = Ok true.
Proof.
  intros Hv Hsteps. destruct n as [|n].
  - simpl. rewrite shift_down_0. exact Hv.
  - apply Hsteps. lia.
Qed.

(** X6. The ghost of a valid current piece is the piece moved down by
    the hard-drop distance: its cells are all free, and one row further
    down the piece would not be valid, so the ghost rests on the stack or
    on the floor. *)
Theorem ghost_cells_rest_on_the_stack (b : Board) (cur : Piece.t) :
  grid_wf b -> current b = Some cur -> _valid b cur = Ok true ->
  exists (n : nat) cs,
    hard_drop_distance b = Ok (Z.of_nat n) /\
    Piece.cells cur None = Ok cs /\
    ghost_cells b = Ok (map (fun '(x, y) => (x, y + Z.of_nat n)) cs) /\
    Piece.cells (shift_down cur (Z.of_nat n)) None
    = Ok (map (fun '(x, y) => (x, y + Z.of_nat n)) cs) /\
    Forall (cell_free b) (map (fun '(x, y) => (x, y + Z.of_nat n)) cs) /\
    _valid b (shift_down cur (Z.of_nat n + 1)) = Ok false.
Proof.
  intros Hwf Hcur Hv. pose proof (valid_rotation_ok _ _ _ Hv) as Hrot.
  destruct (hard_drop_distance_spec b cur Hwf Hcur Hrot) as (n & Hd & Hsteps & Hstop).
  destruct (cells_total cur Hrot) as [cs Hcs].
  pose proof (cells_shift_down cur (Z.of_nat n) cs Hcs) as Hgs.
  exists n, cs. split; [exact Hd|]. split; [exact Hcs|]. split.
  - unfold ghost_cells. rewrite Hcur, Hd. simpl. rewrite Hcs. reflexivity.
  - split; [exact Hgs|]. split; [|exact Hstop].
    pose proof (fallen_piece_valid b cur n Hv Hsteps) as Hvn.
    unfold _valid in Hvn. rewrite Hgs in Hvn. simpl in Hvn.
    apply valid_cells_true. exact Hvn.
Qed.

Lemma soft_dropped_0 (b : Board) (cur : Piece.t) :
  current b = Some cur -> soft_dropped b cur 0 = b.
Proof.
  intros Hcur. unfold soft_dropped. rewrite shift_down_0.
  destruct b. simpl in *. subst. unfold set_score, set_current. simpl.
  f_equal. lia.
Qed.

Lemma soft_drop_soft_dropped (b : Board) (cur : Piece.t) (n : nat) (j : Z) :
  (forall i, 1 <= i <= Z.of_nat n -> _valid b (shift_down cur i) = Ok true) ->
  _valid b (shift_down cur (Z.of_nat n + 1)) = Ok false ->
  0 <= j <= Z.of_nat n ->
  soft_drop (soft_dropped b cur j)
  = Ok (soft_dropped b cur (Z.min (j + 1) (Z.of_nat n)), j <? Z.of_nat n).
Proof.
  intros Hsteps Hstop Hj. unfold soft_drop, try_move. simpl.
  assert (Hp : Piece.mk (Piece.kind cur) (Piece.x cur + 0) (Piece.y cur + j + 1)
                 (Piece.rotation cur) = shift_down cur (j + 1)).
  { unfold shift_down. f_equal; lia. }
  rewrite Hp. rewrite (valid_ext b (soft_dropped b cur j)) by reflexivity.
  destruct (j <? Z.of_nat n) eqn:Ej.
  - rewrite Hsteps by lia. simpl. rewrite Z.min_l by lia.
    f_equal. f_equal. unfold soft_dropped, set_score, set_current. simpl.
    f_equal. lia.
  - assert (j = Z.of_nat n) as -> by lia. rewrite Hstop. simpl.
    rewrite Z.min_r by lia. reflexivity.
Qed.

Lemma soft_drops_soft_dropped (b : Board) (cur : Piece.t) (n k : nat) (j : Z) :
  (forall i, 1 <= i <= Z.of_nat n -> _valid b (shift_down cur i) = Ok true) ->
  _valid b (shift_down cur (Z.of_nat n + 1)) = Ok false ->
  0 <= j <= Z.of_nat n ->
  soft_drops k (soft_dropped b cur j)
  = Ok (soft_dropped b cur (Z.min (j + Z.of_nat k) (Z.of_nat n))).
Proof.
  intros Hsteps Hstop. revert j. induction k as [|k IH]; intros j Hj.
  - simpl. rewrite Z.min_l by lia. f_equal. f_equal. lia.
  - cbn [soft_drops]. rewrite (soft_drop_soft_dropped b cur n j Hsteps Hstop Hj).
    cbn [bind fst]. rewrite IH by lia. f_equal. f_equal. lia.
Qed.

(** X7. Soft drops and the hard drop agree on where the piece lands:
    with [n] the hard-drop distance, [k] soft drops in a row leave the
    piece [min k n] rows down and add [min k n] points, and change
    nothing else; the drops after the [n]-th are refused. *)
Theorem soft_drops_stop_at_hard_drop_distance (b : Board) (cur : Piece.t)
    (k : nat) :
  grid_wf b -> current b = Some cur -> rotation_ok cur ->
  exists n : nat,
    hard_drop_distance b = Ok (Z.of_nat n) /\
    soft_drops k b
    = Ok (set_score (score b + Z.min (Z.of_nat k) (Z.of_nat n))
            (set_current
               (Some (shift_down cur (Z.min (Z.of_nat k) (Z.of_nat n)))) b)).
Proof.
  intros Hwf Hcur Hrot.
  destruct (hard_drop_distance_spec b cur Hwf Hcur Hrot) as (n & Hd & Hsteps & Hstop).
  exists n. split; [exact Hd|].
  rewrite <- (soft_dropped_0 b cur Hcur) at 1.
  rewrite (soft_drops_soft_dropped b cur n k 0 Hsteps Hstop) by lia.
  reflexivity.
Qed.


(** ** Locking *)

Lemma grid_get_lookup (b : Board) (x y : Z) (row : list Cell) (c : Cell) :
  grid_wf b -> 0 <= x < cols b -> 0 <= y < rows b ->
  grid b !! Z.to_nat y = Some row -> row !! Z.to_nat x = Some c ->
  grid_get b x y = Ok c.
Proof.
  intros Hwf Hx Hy Hrow Hc.
  destruct (grid_get_in_bounds b x y Hwf Hx Hy) as (row' & c' & Hrow' & Hc' & ->).
  congruence.
Qed.

(** Reading the grid after one write. *)
Lemma grid_get_after_write (b : Board) (x y x' y' : Z) (row : list Cell)
    (v : Cell) :
  grid_wf b -> 0 <= x < cols b -> 0 <= y < rows b ->
  0 <= x' < cols b -> 0 <= y' < rows b ->
  grid b !! Z.to_nat y = Some row ->
  grid_get (set_grid (<[Z.to_nat y := <[Z.to_nat x := v]> row]> (grid b)) b) x' y'
  = if bool_decide (x' = x /\ y' = y) then Ok v else grid_get b x' y'.
Proof.
  intros Hwf Hx Hy Hx' Hy' Hrow.
  pose proof (grid_wf_insert b (Z.to_nat y) (Z.to_nat x) row v Hwf Hrow) as Hwf'.
  destruct (grid_get_in_bounds b x' y' Hwf Hx' Hy') as (row' & c' & Hrow' & Hc' & Hget).
  destruct Hwf as [Hlen Hrows].
  assert (Hw : Z.of_nat (length row) = cols b).
  { rewrite Forall_forall in Hrows. apply Hrows.
    eapply list_elem_of_lookup_2; eauto. }
  destruct (decide (y' = y)) as [->|Hney].
  - assert (row' = row) as -> by congruence.
    destruct (decide (x' = x)) as [->|Hnex].
    + rewrite bool_decide_eq_true_2 by auto.
      apply (grid_get_lookup _ x y (<[Z.to_nat x := v]> row)); auto; simpl.
      * apply list_lookup_insert_eq. lia.
      * apply list_lookup_insert_eq. lia.
    + rewrite bool_decide_eq_false_2 by (intros [? ?]; contradiction).
      rewrite Hget.
      apply (grid_get_lookup _ x' y (<[Z.to_nat x := v]> row)); auto; simpl.
      * apply list_lookup_insert_eq. lia.
      * rewrite list_lookup_insert_ne by lia. exact Hc'.
  - rewrite bool_decide_eq_false_2 by (intros [? ?]; contradiction).
    rewrite Hget.
    apply (grid_get_lookup _ x' y' row'); auto; simpl.
    rewrite list_lookup_insert_ne by lia. exact Hrow'.
Qed.

(** X8. Locking writes exactly the cells of the piece: after the loop of
    [lock_piece] over cells that are above the top edge or inside the
    grid, a grid cell holds the piece's color if it is one of the cells
    and is as before otherwise; the grid keeps its dimensions, and
    game-over is set exactly when it was set before or a cell is above
    the top edge. *)
Theorem lock_cells_writes_the_piece (b : Board) (color : Color)
    (cs : list (Z * Z)) :
  grid_wf b -> Forall (cell_in_range b) cs ->
  exists b1,
    lock_cells b color cs = Ok b1 /\
    grid_wf b1 /\ cols b1 = cols b /\ rows b1 = rows b /\
    (forall x y, 0 <= x < cols b -> 0 <= y < rows b ->
       grid_get b1 x y
       = if bool_decide ((x, y) ∈ cs) then Ok (Some color) else grid_get b x y) /\
    game_over b1 = game_over b || existsb (fun c => snd c <? 0) cs.
Proof.
  intros Hwf Hcs.
  assert (Hmain : exists b1,
             lock_cells b color cs = Ok b1 /\ grid_wf b1 /\
             cols b1 = cols b /\ rows b1 = rows b /\
             forall x y, 0 <= x < cols b -> 0 <= y < rows b ->
               grid_get b1 x y
               = if bool_decide ((x, y) ∈ cs) then Ok (Some color)
                 else grid_get b x y).
  { revert b Hwf Hcs. induction cs as [|[cx cy] cs IH]; intros b Hwf Hcs.
    - exists b. split; [reflexivity|]. split; [exact Hwf|].
      split; [reflexivity|]. split; [reflexivity|].
      intros x y _ _. rewrite bool_decide_eq_false_2; [reflexivity|].
      apply not_elem_of_nil.
    - apply Forall_cons in Hcs as [Hc Hcs]. unfold cell_in_range in Hc.
      simpl in Hc. cbn [lock_cells]. destruct (cy <? 0) eqn:Ecy.
      + destruct (IH (set_game_over true b) Hwf Hcs)
          as (b1 & Hl & Hwf1 & Hc1 & Hr1 & Hget).
        exists b1. split; [exact Hl|]. split; [exact Hwf1|].
        split; [exact Hc1|]. split; [exact Hr1|].
        intros x y Hx Hy. rewrite (Hget x y Hx Hy).
        assert (Hne : (x, y) <> (cx, cy)) by (intros [= -> ->]; lia).
        destruct (decide ((x, y) ∈ cs)) as [Hin|Hnin].
        * rewrite !bool_decide_eq_true_2; auto. right. exact Hin.
        * rewrite !bool_decide_eq_false_2; auto.
          rewrite elem_of_cons. intros [?|?]; contradiction.
      + destruct Hc as [Hc|[Hcx Hcy]]; [lia|].
        destruct (grid_set_in_bounds b cx cy (Some color) Hwf) as (row & Hrow & Hset);
          [lia | lia |].
        rewrite Hset. cbn [bind].
        pose proof (grid_wf_insert b (Z.to_nat cy) (Z.to_nat cx) row (Some color)
                      Hwf Hrow) as Hwf'.
        destruct (IH _ Hwf' Hcs) as (b1 & Hl & Hwf1 & Hc1 & Hr1 & Hget).
        exists b1. split; [exact Hl|]. split; [exact Hwf1|].
        split; [exact Hc1|]. split; [exact Hr1|].
        intros x y Hx Hy. rewrite (Hget x y Hx Hy).
        rewrite (grid_get_after_write b cx cy x y row (Some color))
          by (auto; lia).
        destruct (decide ((x, y) ∈ cs)) as [Hin|Hnin].
        * rewrite !bool_decide_eq_true_2; auto. right. exact Hin.
        * rewrite (bool_decide_eq_false_2 ((x, y) ∈ cs)) by exact Hnin.
          destruct (decide (x = cx /\ y = cy)) as [[-> ->]|Hne].
          -- rewrite !bool_decide_eq_true_2; auto. left.
          -- rewrite !bool_decide_eq_false_2; auto.
             rewrite elem_of_cons. intros [[= -> ->]|?]; [apply Hne; auto | contradiction]. }
  destruct Hmain as (b1 & Hl & Hwf1 & Hc1 & Hr1 & Hget).
  exists b1. repeat (split; [assumption|]).
  eapply lock_cells_game_over. exact Hl.
Qed.


(** X9. Locking a valid current piece, end to end: the cells are written,
    the full rows of the written grid are cleared, the lines and the
    score grow by the number of full rows and by its line score times the
    level before the lock, the hold slot is untouched, a cell above the
    top edge ends the game, and the next piece is spawned unless the game
    is over. *)
Theorem lock_piece_writes_clears_and_spawns (b : Board) (cur : Piece.t) :
  grid_wf b -> current b = Some cur -> _valid b cur = Ok true ->
  exists cs b1 b',
    Piece.cells cur None = Ok cs /\
    lock_cells b (Piece.color cur) cs = Ok b1 /\
    lock_piece shuffle b = Ok b' /\
    let cleared := length (full_rows (grid b1)) in
    grid b'
    = replicate cleared (replicate (Z.to_nat (cols b)) (None : Cell))
      ++ List.filter has_empty_cell (grid b1) /\
    lines_cleared b' = lines_cleared b + Z.of_nat cleared /\
    score b' = score b + line_scores_get (Z.of_nat cleared) * level b /\
    hold b' = hold b /\
    (existsb (fun c => snd c <? 0) cs = true -> game_over b' = true) /\
    piece_or_over b'.
Proof using Type shuffle_perm.
  intros Hwf Hcur Hv.
  destruct (lock_piece_total b cur Hwf Hcur Hv)
    as (cs & b1 & b' & Hcs & Hl & Hwf1 & Hlock & Hs).
  exists cs, b1, b'. split; [exact Hcs|]. split; [exact Hl|].
  split; [exact Hlock|]. cbv zeta.
  pose proof (lock_cells_frame _ _ _ _ Hl) as Hf.
  pose proof (lock_cells_game_over _ _ _ _ Hl) as Hover.
  pose proof (spawn_frame _ _ Hs) as (_ & _ & Hg & Hh & _ & Hlc & _).
  pose proof (clear_lines_frame (set_current None b1))
    as (_ & _ & _ & Hh' & _ & _ & _ & Hover' & _).
  unfold only_grid_and_over in Hf.
  destruct Hf as (Hc & _ & _ & Hhold & _ & _ & _ & _ & Hlines & _).
  split.
  - rewrite Hg, (clear_lines_grid (set_current None b1)) by exact Hwf1.
    simpl. rewrite Hc. reflexivity.
  - split.
    + rewrite Hlc, (clear_lines_lines_cleared (set_current None b1)) by exact Hwf1.
      simpl. rewrite Hlines. reflexivity.
    + split; [eapply lock_piece_score; eauto; apply (lock_cells_frame _ _ _ _ Hl)|].
      split; [rewrite Hh, Hh'; simpl; exact Hhold|].
      split; [|eapply spawn_piece_or_over; exact Hs].
      intros Hneg. apply (spawn_game_over_mono _ _ Hs).
      rewrite Hover'. simpl. rewrite Hover, Hneg. apply orb_true_r.
Qed.

(** ** What play keeps true *)

Lemma line_scores_get_nonneg (cleared : Z) : 0 <= line_scores_get cleared.
Proof.
  unfold line_scores_get.
  destruct (cleared =? 1); [lia|]. destruct (cleared =? 2); [lia|].
  destruct (cleared =? 3); [lia|]. destruct (cleared =? 4); lia.
Qed.

Lemma grows_refl (b : Board) : grows b b.
Proof. unfold grows. repeat split; lia. Qed.

Lemma grows_trans (b1 b2 b3 : Board) : grows b1 b2 -> grows b2 b3 -> grows b1 b3.
Proof. unfold grows. intros (? & ? & ? & ? & ?) (? & ? & ? & ? & ?). repeat split; lia. Qed.

Lemma board_inv_split (b : Board) :
  board_inv b <-> core_ok b /\ (game_over b = false -> current_valid b).
Proof. unfold board_inv, core_ok. hide_parameters. tauto. Qed.

Lemma grid_set_wf (b b' : Board) (x y : Z) (v : Cell) :
  grid_set b x y v = Ok b' -> grid_wf b -> grid_wf b'.
Proof.
  unfold grid_set. intros H Hwf. apply bind_Ok in H as (iy & _ & H).
  destruct (grid b !! iy) as [row|] eqn:Erow; [|discriminate].
  unfold py_setitem in H. apply bind_Ok in H as (row' & Hrow' & H).
  apply bind_Ok in Hrow' as (ix & _ & Hrow'). injection Hrow' as <-.
  injection H as <-. apply grid_wf_insert; assumption.
Qed.

Lemma lock_cells_wf (b b' : Board) (color : Color) (cs : list (Z * Z)) :
  lock_cells b color cs = Ok b' -> grid_wf b -> grid_wf b'.
Proof.
  revert b. induction cs as [|[x y] cs IH]; intros b H Hwf; simpl in H.
  - injection H as <-. exact Hwf.
  - destruct (y <? 0).
    + apply IH in H; [exact H | exact Hwf].
    + apply bind_Ok in H as (b1 & Hset & H). apply IH in H; [exact H|].
      eapply grid_set_wf; eauto.
Qed.

Lemma clear_lines_core (b : Board) :
  core_ok b ->
  core_ok (_clear_lines_efficient b) /\ grows b (_clear_lines_efficient b).
Proof.
  intros (Hwf & Hl & Hlv & Hs).
  pose proof (clear_lines_wf b Hwf) as Hwf'.
  pose proof (line_scores_get_nonneg
                (rows b - Z.of_nat (length (List.filter has_empty_cell (grid b)))))
    as Hls.
  assert (Hlevel : 1 <= level b).
  { rewrite Hlv. pose proof (Z.div_pos (lines_cleared b) 10). lia. }
  unfold core_ok, grows. split; [split; [exact Hwf'|]|];
    unfold _clear_lines_efficient;
    destruct (0 <? rows b - Z.of_nat (length (List.filter has_empty_cell (grid b))))
      eqn:E; simpl.
  - split; [lia|]. split; [reflexivity|]. nia.
  - split; [lia|]. split; [exact Hlv | lia].
  - split; [reflexivity|]. split; [reflexivity|]. split; [nia|]. split; [lia|].
    rewrite Hlv. apply Z.add_le_mono_l. apply Z.div_le_mono; lia.
  - repeat split; lia.
Qed.

Lemma spawn_core (b b' : Board) :
  spawn shuffle b = Ok b' -> core_ok b ->
  core_ok b' /\ grows b b' /\ (game_over b' = false -> current_valid b').
Proof.
  intros H (Hwf & Hl & Hlv & Hs).
  apply spawn_inv in H as (kind & b2 & Hf & _ & Hcase).
  unfold only_bag_and_queue in Hf.
  destruct Hf as (Hc & Hr & Hg & _ & _ & _ & Hsc & Hlc & Hlevel & Hover).
  assert (Hwf2 : grid_wf b2).
  { destruct Hwf as [H1 H2]. unfold grid_wf. rewrite Hg, Hc, Hr. auto. }
  assert (Hcount : 0 <= lines_cleared b2 /\
                   level b2 = 1 + lines_cleared b2 / 10 /\ 0 <= score b2).
  { rewrite Hlc, Hlevel, Hsc. auto. }
  destruct Hcase as [[Hv ->]|[Hv ->]]; unfold core_ok, grows, current_valid; simpl.
  - split; [split; [exact Hwf2 | exact Hcount]|].
    split; [repeat split; lia | discriminate].
  - split; [split; [exact Hwf2 | exact Hcount]|].
    split; [repeat split; lia|].
    intros _. rewrite <- Hv. apply valid_ext; simpl; auto.
Qed.

Lemma lock_piece_core (b b' : Board) :
  lock_piece shuffle b = Ok b' -> core_ok b ->
  core_ok b' /\ grows b b' /\
  (is_Some (current b) -> game_over b' = false -> current_valid b').
Proof.
  intros H Hcore. destruct (current b) as [cur|] eqn:Ecur.
  - destruct (lock_piece_inv b b' cur Ecur H) as (cs & b1 & _ & Hl & Hs).
    pose proof (lock_cells_frame _ _ _ _ Hl) as Hf.
    unfold only_grid_and_over in Hf.
    destruct Hf as (Hc & Hr & _ & _ & _ & _ & _ & Hsc & Hlc & Hlevel & _).
    destruct Hcore as (Hwf & Hlines & Hlv & Hscore).
    assert (Hcore1 : core_ok (set_current None b1)).
    { unfold core_ok. simpl. split; [apply (lock_cells_wf _ _ _ _ Hl Hwf)|].
      rewrite Hlc, Hlevel, Hsc. auto. }
    destruct (clear_lines_core _ Hcore1) as [Hcore2 Hgrow2].
    destruct (spawn_core _ _ Hs Hcore2) as (Hcore3 & Hgrow3 & Hvalid).
    split; [exact Hcore3|]. split; [|intros _; exact Hvalid].
    eapply grows_trans; [|exact Hgrow3]. eapply grows_trans; [|exact Hgrow2].
    unfold grows. simpl. repeat split; lia.
  - unfold lock_piece in H. rewrite Ecur in H. injection H as <-.
    split; [exact Hcore|]. split; [apply grows_refl|].
    intros [p Hp]. discriminate Hp.
Qed.

Lemma hard_drop_loop_ge (fuel : nat) (b : Board) (tmp : Piece.t) (dist d : Z) :
  hard_drop_loop fuel b tmp dist = Ok d -> dist <= d.
Proof.
  revert tmp dist. induction fuel as [|fuel IH]; intros tmp dist H; simpl in H;
    [discriminate|].
  apply bind_Ok in H as (v & _ & H). destruct v.
  - apply IH in H. lia.
  - injection H as <-. lia.
Qed.

Lemma hard_drop_distance_nonneg (b : Board) (d : Z) :
  hard_drop_distance b = Ok d -> 0 <= d.
Proof.
  unfold hard_drop_distance. destruct (current b) as [cur|].
  - apply hard_drop_loop_ge.
  - intros [= <-]. lia.
Qed.

Lemma try_kicks_committed_valid (b b' : Board) (rotated : Piece.t)
    (kicks : list (Z * Z)) :
  try_kicks b rotated kicks = Ok (b', true) ->
  exists k, k ∈ kicks /\
    _valid b (kick_candidate rotated k) = Ok true /\
    b' = set_current (Some (kick_candidate rotated k)) b.
Proof.
  induction kicks as [|k kicks IH]; [discriminate|].
  rewrite try_kicks_cons. intros H. apply bind_Ok in H as (v & Hv & H).
  destruct v.
  - injection H as <-. exists k. split; [left|]. auto.
  - apply IH in H as (k' & Hk' & Hv' & Hb'). exists k'.
    split; [right; exact Hk'|]. auto.
Qed.

Lemma try_move_committed_valid (b b' : Board) (dx dy : Z) :
  try_move b dx dy = Ok (b', true) ->
  exists cur,
    current b = Some cur /\
    _valid b (Piece.mk (Piece.kind cur) (Piece.x cur + dx) (Piece.y cur + dy)
                (Piece.rotation cur)) = Ok true /\
    b' = set_current
           (Some (Piece.mk (Piece.kind cur) (Piece.x cur + dx)
                    (Piece.y cur + dy) (Piece.rotation cur))) b.
Proof.
  unfold try_move. destruct (current b) as [cur|]; [|discriminate].
  intros H. apply bind_Ok in H as (v & Hv & H). destruct v; [|discriminate].
  injection H as <-. exists cur. auto.
Qed.

Lemma current_valid_ext (b b' : Board) :
  cols b' = cols b -> rows b' = rows b -> grid b' = grid b ->
  current b' = current b -> current_valid b -> current_valid b'.
Proof.
  intros Hc Hr Hg Hcur. unfold current_valid. rewrite Hcur.
  destruct (current b) as [cur|]; [|auto].
  rewrite (valid_ext b b') by assumption. auto.
Qed.

Ltac solve_grows :=
  first [apply grows_refl | unfold grows; simpl; repeat split; lia].

(** Every public operation keeps [board_inv] and lets no counter go
    down. *)
Lemma run_op_board_inv (op : Op) (b b' : Board) :
  run_op shuffle op b = Ok b' -> board_inv b -> board_inv b' /\ grows b b'.
Proof.
  intros H Hinv. apply board_inv_split in Hinv as [Hcore Hvalid].
  rewrite board_inv_split.
  destruct op; simpl in H.
  - destruct (spawn_core _ _ H Hcore) as (H1 & H2 & H3). auto.
  - apply bind_Ok in H as ([b1 r] & H1 & H). injection H as <-. simpl.
    destruct r.
    + apply try_move_committed_valid in H1 as (cur & Hcur & Hv & ->).
      split; [split; [exact Hcore|]|solve_grows].
      intros _. unfold current_valid. simpl. rewrite <- Hv. apply valid_ext; auto.
    + apply try_move_inv in H1 as [[_ ->]|[Hr _]]; [|discriminate].
      split; [auto | solve_grows].
  - apply bind_Ok in H as ([b1 r] & H1 & H). injection H as <-. simpl.
    destruct r.
    + unfold try_rotate in H1. destruct (current b) as [cur|]; [|discriminate].
      apply try_kicks_committed_valid in H1 as (k & _ & Hv & ->).
      split; [split; [exact Hcore|]|solve_grows].
      intros _. unfold current_valid. simpl. rewrite <- Hv. apply valid_ext; auto.
    + apply try_rotate_inv in H1 as [[_ ->]|[Hr _]]; [|discriminate].
      split; [auto | solve_grows].
  - apply bind_Ok in H as ([b1 r] & H1 & H). injection H as <-. simpl.
    apply soft_drop_inv in H1 as [[_ ->]|(_ & b2 & Hm & ->)].
    + split; [auto | solve_grows].
    + apply try_move_committed_valid in Hm as (cur & Hcur & Hv & ->).
      destruct Hcore as (Hwf & Hl & Hlv & Hs).
      split; [split|].
      * unfold core_ok. simpl. split; [exact Hwf|].
        split; [exact Hl|]. split; [exact Hlv | lia].
      * intros _. unfold current_valid. simpl. rewrite <- Hv. apply valid_ext; auto.
      * unfold grows. simpl. repeat split; lia.
  - destruct (current b) as [cur|] eqn:Ecur.
    + destruct (hard_drop_inv b b' cur Ecur H) as (drop & b2 & Hd & Hl & ->).
      apply hard_drop_distance_nonneg in Hd.
      assert (Hcore1 : core_ok (set_current (Some (shift_down cur drop)) b))
        by exact Hcore.
      destruct (lock_piece_core _ _ Hl Hcore1) as (Hcore2 & Hgrow & Hv).
      destruct Hcore2 as (Hwf & Hlines & Hlv & Hs).
      destruct Hgrow as (Hc & Hr & Hsc & Hlc & Hlevel). simpl in *.
      split; [split|].
      * unfold core_ok. simpl. split; [exact Hwf|].
        split; [exact Hlines|]. split; [exact Hlv | lia].
      * intros Hover. unfold current_valid. simpl.
        assert (Hv2 : current_valid b2) by (apply Hv; [eexists; reflexivity | exact Hover]).
        unfold current_valid in Hv2. destruct (current b2); [|exact Logic.I].
        rewrite <- Hv2. apply valid_ext; auto.
      * unfold grows. simpl. repeat split; lia.
    + unfold hard_drop in H. rewrite Ecur in H. injection H as <-.
      split; [auto | solve_grows].
  - destruct (lock_piece_core _ _ H Hcore) as (Hcore2 & Hgrow & Hv).
    split; [split; [exact Hcore2|]|exact Hgrow].
    intros Hover. destruct (current b) as [cur|] eqn:Ecur.
    + apply Hv; [eexists; reflexivity | exact Hover].
    + unfold lock_piece in H. rewrite Ecur in H. injection H as <-. auto.
  - apply hold_piece_inv in H
      as [->|(cur & _ & _ & [(_ & b1 & Hs & ->)|(held & v & _ & Hv & ->)])].
    + split; [auto | solve_grows].
    + assert (Hcore1 : core_ok (set_hold (Some (Piece.kind cur)) b)) by exact Hcore.
      destruct (spawn_core _ _ Hs Hcore1) as (Hcore2 & Hgrow & Hv).
      split; [split; [exact Hcore2|] | exact Hgrow].
      intros Hover. apply (current_valid_ext b1); try reflexivity.
      apply Hv. exact Hover.
    + cbv zeta in Hv. destruct v; simpl.
      * split; [split; [exact Hcore|]|solve_grows].
        intros _. unfold current_valid. simpl. rewrite <- Hv. apply valid_ext; auto.
      * split; [split; [exact Hcore | discriminate]|solve_grows].
Qed.


Lemma grid_wf_replicate (b : Board) (c r : Z) :
  0 <= c -> 0 <= r -> cols b = c -> rows b = r ->
  grid b = replicate (Z.to_nat r) (replicate (Z.to_nat c) None) ->
  grid_wf b.
Proof.
  intros Hc Hr Ecols Erows Egrid. unfold grid_wf. rewrite Egrid, Ecols, Erows.
  split.
  - rewrite length_replicate. lia.
  - apply Forall_replicate. rewrite length_replicate. lia.
Qed.

Lemma Board_init_fields (c r : Z) (g : G) (b : Board) :
  Board_init shuffle c r g = Ok b ->
  cols b = c /\ rows b = r /\
  grid b = replicate (Z.to_nat r) (replicate (Z.to_nat c) None) /\
  current b = None /\ hold b = None /\ can_hold b = true /\
  score b = 0 /\ lines_cleared b = 0 /\ level b = 1 /\ game_over b = false.
Proof.
  unfold Board_init. intros H. apply prefill_inv in H as [Hf _].
  unfold only_bag_and_queue in Hf. simpl in Hf. hide_parameters. tauto.
Qed.

Lemma Board_init_board_inv (c r : Z) (g : G) (b : Board) :
  0 <= c -> 0 <= r -> Board_init shuffle c r g = Ok b -> board_inv b.
Proof.
  intros Hc Hr H.
  apply Board_init_fields in H
    as (Ec & Er & Eg & Ecur & _ & _ & Es & El & Elv & _).
  unfold board_inv, current_valid. rewrite Ecur, Es, El, Elv.
  split; [apply (grid_wf_replicate b c r Hc Hr Ec Er Eg)|].
  split; [auto|]. split; [lia|]. split; [reflexivity | lia].
Qed.

Lemma run_ops_board_inv (ops : list Op) (b b' : Board) :
  run_ops shuffle ops b = Ok b' -> board_inv b -> board_inv b' /\ grows b b'.
Proof.
  revert b. induction ops as [|op ops IH]; intros b H Hinv; simpl in H.
  - injection H as <-. split; [exact Hinv | apply grows_refl].
  - apply bind_Ok in H as (b1 & Hop & H).
    destruct (run_op_board_inv op b b1 Hop Hinv) as [Hinv1 Hg1].
    destruct (IH b1 H Hinv1) as [Hinv' Hg']. split; [exact Hinv'|].
    eapply grows_trans; eauto.
Qed.

(** X10. Whatever sequence of public operations is played on a board
    built by the constructor with non-negative dimensions, the board
    keeps its dimensions and its grid stays a [rows] by [cols] matrix,
    the current piece is at a valid position as long as the game is not
    over, the level is [1 + lines_cleared // 10] (so at least 1), and the
    score and line counters are not negative. *)
Theorem play_keeps_board_invariants (c r : Z) (g : G) (ops : list Op)
    (b0 b : Board) :
  0 <= c -> 0 <= r ->
  Board_init shuffle c r g = Ok b0 -> run_ops shuffle ops b0 = Ok b ->
  cols b = c /\ rows b = r /\ grid_wf b /\
  (game_over b = false -> current_valid b) /\
  level b = 1 + lines_cleared b / 10 /\ 1 <= level b /\
  0 <= lines_cleared b /\ 0 <= score b.
Proof.
  intros Hc Hr Hinit Hrun.
  pose proof (Board_init_board_inv c r g b0 Hc Hr Hinit) as Hinv0.
  apply Board_init_fields in Hinit as (Ec & Er & _).
  destruct (run_ops_board_inv ops b0 b Hrun Hinv0)
    as [(Hwf & Hv & Hl & Hlv & Hs) (Hc' & Hr' & _)].
  split; [congruence|]. split; [congruence|]. split; [exact Hwf|].
  split; [exact Hv|]. split; [exact Hlv|]. split; [|split; assumption].
  rewrite Hlv. pose proof (Z.div_pos (lines_cleared b) 10). lia.
Qed.

(** X11. No public operation on a board in play lowers the score, the
    line count or the level, and none changes the dimensions. *)
Theorem counters_never_decrease (op : Op) (b b' : Board) :
  board_inv b -> run_op shuffle op b = Ok b' ->
  cols b' = cols b /\ rows b' = rows b /\
  score b <= score b' /\ lines_cleared b <= lines_cleared b' /\
  level b <= level b'.
Proof.
  intros Hinv Hop. destruct (run_op_board_inv op b b' Hop Hinv) as [_ Hg].
  exact Hg.
Qed.

(** Every public operation returns on a board in play that is not over. *)
Lemma run_op_total (op : Op) (b : Board) :
  board_inv b -> game_over b = false -> exists b', run_op shuffle op b = Ok b'.
Proof using Type shuffle_perm.
  intros (Hwf & Hvalid & _) Hover. specialize (Hvalid Hover).
  unfold current_valid in Hvalid. destruct op; simpl.
  - apply spawn_total; assumption.
  - unfold try_move. destruct (current b) as [cur|]; [|simpl; eauto].
    pose proof (valid_rotation_ok _ _ _ Hvalid) as Hrot.
    match goal with |- context [_valid b ?p] =>
      destruct (valid_total b p Hwf Hrot) as [v ->] end.
    destruct v; simpl; eauto.
  - unfold try_rotate. destruct (current b) as [cur|]; [|simpl; eauto].
    destruct (try_kicks_first_valid b (Piece.rotated cur dr) WALL_KICKS)
      as [(i & k & _ & _ & _ & ->)|[_ ->]]; simpl; eauto.
    intros k _. apply valid_total; [exact Hwf | apply rotated_rotation_ok].
  - unfold soft_drop, try_move. destruct (current b) as [cur|]; [|simpl; eauto].
    pose proof (valid_rotation_ok _ _ _ Hvalid) as Hrot.
    match goal with |- context [_valid b ?p] =>
      destruct (valid_total b p Hwf Hrot) as [v ->] end.
    destruct v; simpl; eauto.
  - destruct (current b) as [cur|] eqn:Ecur.
    + destruct (hard_drop_total b cur Hwf Ecur Hvalid)
        as (n & cs & b1 & b' & _ & _ & _ & H & _). eauto.
    + unfold hard_drop. rewrite Ecur. eauto.
  - destruct (current b) as [cur|] eqn:Ecur.
    + destruct (lock_piece_total b cur Hwf Ecur Hvalid)
        as (cs & b1 & b' & _ & _ & _ & H & _). eauto.
    + unfold lock_piece. rewrite Ecur. eauto.
  - unfold hold_piece. destruct (can_hold b); simpl; [|eauto].
    destruct (current b) as [cur|]; [|eauto].
    destruct (hold b) as [held|].
    + match goal with |- context [_valid ?bb ?p] =>
        destruct (valid_total bb p) as [v ->] end;
        [exact Hwf | unfold rotation_ok; simpl; lia |].
      destruct v; simpl; eauto.
    + destruct (spawn_total (set_hold (Some (Piece.kind cur)) b) Hwf) as [b1 ->].
      simpl. eauto.
Qed.

(** X12. On a board in play whose game is not over no public operation
    raises: spawn, move, rotate, soft drop, hard drop, lock and hold all
    return a board, which is in play again. *)
Theorem operations_never_raise_in_play (op : Op) (b : Board) :
  board_inv b -> game_over b = false ->
  exists b', run_op shuffle op b = Ok b' /\ board_inv b'.
Proof using Type shuffle_perm.
  intros Hinv Hover. destruct (run_op_total op b Hinv Hover) as [b' Hop].
  exists b'. split; [exact Hop|].
  apply (run_op_board_inv op b b' Hop Hinv).
Qed.


(** ** The game loop *)

Lemma lookup_map {A B : Type} (f : A -> B) (l : list A) (n : nat) :
  map f l !! n = f <$> (l !! n).
Proof.
  revert n. induction l as [|a l IH]; intros [|n]; simpl; auto.
Qed.

Lemma gravity_interval_lookup (g : Game) :
  1 <= level (board g) ->
  exists s,
    LEVEL_SPEEDS_hundredths !! Z.to_nat (Z.min (level (board g) - 1) 14) = Some s /\
    gravity_interval lit g = Ok (lit s).
Proof.
  intros Hlevel. unfold gravity_interval.
  change (Z.of_nat (length (LEVEL_SPEEDS lit)) - 1) with 14.
  destruct (py_getitem_nonneg (LEVEL_SPEEDS lit) (Z.min (level (board g) - 1) 14))
    as (a & -> & Ha).
  { change (Z.of_nat (length (LEVEL_SPEEDS lit))) with 15. lia. }
  unfold LEVEL_SPEEDS in Ha. rewrite lookup_map in Ha.
  change [80; 72; 63; 55; 47; 38; 30; 22; 13; 10; 9; 8; 7; 6; 5]
    with LEVEL_SPEEDS_hundredths in Ha.
  destruct (LEVEL_SPEEDS_hundredths !! _) as [s|] eqn:Es; [|discriminate].
  injection Ha as <-. eauto.
Qed.

(** The table of speeds never goes up. *)
Lemma level_speeds_sorted (i j : nat) (s t : Z) :
  LEVEL_SPEEDS_hundredths !! i = Some s ->
  LEVEL_SPEEDS_hundredths !! j = Some t ->
  (i <= j)%nat -> 5 <= t <= s /\ s <= 80.
Proof.
  intros Hi Hj Hle.
  do 15 (destruct i as [|i];
         [do 15 (destruct j as [|j];
                 [first [lia | (injection Hi as <-; injection Hj as <-; lia)]|]);
          discriminate Hj|]).
  discriminate Hi.
Qed.

(** X13. The interval of gravity follows the table: at level [l >= 1] it
    is entry [min (l - 1) 14], between 0.05 and 0.80 seconds, 0.05 from
    level 15 on, and a higher level never has a longer interval. *)
Theorem gravity_interval_follows_the_table (g g' : Game) :
  1 <= level (board g) -> level (board g) <= level (board g') ->
  exists s s',
    gravity_interval lit g = Ok (lit s) /\
    gravity_interval lit g' = Ok (lit s') /\
    LEVEL_SPEEDS_hundredths !! Z.to_nat (Z.min (level (board g) - 1) 14) = Some s /\
    5 <= s' <= s /\ s <= 80 /\
    (15 <= level (board g) -> s = 5).
Proof.
  intros Hl Hle.
  destruct (gravity_interval_lookup g Hl) as (s & Hs & Hg).
  destruct (gravity_interval_lookup g') as (s' & Hs' & Hg'); [lia|].
  exists s, s'. split; [exact Hg|]. split; [exact Hg'|]. split; [exact Hs|].
  split; [|split].
  - apply (level_speeds_sorted _ _ s s' Hs Hs'). lia.
  - apply (level_speeds_sorted _ _ s s Hs Hs). lia.
  - intros H15. rewrite Z.min_r in Hs by lia. injection Hs as <-. reflexivity.
Qed.

Lemma handle_event_exit_raises (g : Game) (event : Event) :
  handle_event shuffle g event
  = res_map fst
      (r <- handle_event_exit shuffle g event ;;
       if snd r then Raise SystemExit else Ok r).
Proof.
  destruct event as [|key|]; [reflexivity| |reflexivity].
  destruct key; try reflexivity; unfold handle_event_exit;
    destruct (handle_event shuffle g _); reflexivity.
Qed.

(** The loop with the visible exit is the loop of [handle_input]: it
    raises what the loop raises, [SystemExit] where the flag is set, and
    returns the game the loop returns. *)
Lemma handle_events_exit_raises (g : Game) (events : list Event) :
  handle_events shuffle g events
  = exit_raises (handle_events_exit shuffle g events).
Proof.
  revert g. induction events as [|event events IH]; intros g; [reflexivity|].
  cbn [handle_events handle_events_exit].
  rewrite handle_event_exit_raises.
  destruct (handle_event_exit shuffle g event) as [[g' [|]]| |];
    try reflexivity.
  cbn [bind snd fst res_map]. apply IH.
Qed.

Lemma handle_events_exit_Ok (g g1 : Game) (events : list Event) :
  handle_events shuffle g events = Ok g1 ->
  handle_events_exit shuffle g events = Ok (g1, false).
Proof.
  rewrite handle_events_exit_raises.
  destruct (handle_events_exit shuffle g events) as [[g' [|]]| |];
    simpl; congruence.
Qed.

Lemma handle_events_exit_app (g g1 : Game) (before rest : list Event) :
  handle_events_exit shuffle g before = Ok (g1, false) ->
  handle_events_exit shuffle g (before ++ rest)
  = handle_events_exit shuffle g1 rest.
Proof.
  revert g. induction before as [|event before IH]; intros g H.
  - injection H as <-. reflexivity.
  - cbn [app handle_events_exit] in *.
    destruct (handle_event_exit shuffle g event) as [[g' [|]]| |];
      cbn [bind snd fst] in *; try discriminate.
    apply IH. exact H.
Qed.

(** X14. Closing the window or pressing Escape ends the program whether
    or not the game is over: [sys.exit()] is called with the game as the
    events before it in the batch left it, so these have taken effect,
    and the events after it and the held keys are not looked at; the
    caller of [handle_input] sees [SystemExit]. *)
Theorem exit_event_ends_the_batch (g g1 : Game) (event : Event)
    (before after : list Event) :
  exit_event event -> handle_events shuffle g before = Ok g1 ->
  handle_events_exit shuffle g (before ++ event :: after) = Ok (g1, true) /\
  (forall (g0 : Game) events,
      handle_events shuffle g0 events
      = exit_raises (handle_events_exit shuffle g0 events)) /\
  handle_events shuffle g (before ++ event :: after) = Raise SystemExit /\
  forall dt keys clock_seconds,
    handle_input shuffle lit t_add t_gt g dt (before ++ event :: after) keys
      clock_seconds
    = Raise SystemExit.
Proof.
  intros Hexit Hbefore.
  assert (Hstate : handle_events_exit shuffle g (before ++ event :: after)
                   = Ok (g1, true)).
  { rewrite (handle_events_exit_app g g1 before)
      by (apply handle_events_exit_Ok; exact Hbefore).
    destruct Hexit as [-> | ->]; reflexivity. }
  assert (H : handle_events shuffle g (before ++ event :: after)
              = Raise SystemExit).
  { rewrite handle_events_exit_raises, Hstate. reflexivity. }
  split; [exact Hstate|]. split; [exact handle_events_exit_raises|].
  split; [exact H|]. intros dt keys clock_seconds.
  unfold handle_input. rewrite H. reflexivity.
Qed.

(** Runs one board operation for a key and puts the board back. *)
Ltac key_runs op Hinv Hover :=
  let b' := fresh "b'" in
  let Hop := fresh "Hop" in
  let Hinv' := fresh "Hinv'" in
  let r := fresh "r" in
  let Hr := fresh "Hr" in
  destruct (run_op_total op _ Hinv Hover) as [b' Hop];
  pose proof (run_op_board_inv op _ b' Hop Hinv) as [Hinv' _];
  simpl in Hop;
  first
    [ apply bind_Ok in Hop as (r & Hr & Hop); injection Hop as <-; rewrite Hr
    | rewrite Hop ];
  simpl; eexists; (split; [reflexivity | exact Hinv']).

Lemma handle_event_in_play (g : Game) (event : Event) :
  board_inv (board g) -> ~ exit_event event ->
  exists g', handle_event shuffle g event = Ok g' /\ board_inv (board g').
Proof using Type shuffle_perm.
  intros Hinv Hne. unfold exit_event in Hne.
  destruct event as [|key|]; [exfalso; auto| |simpl; eauto].
  destruct (game_over (board g)) eqn:Hover.
  - exists g. split; [|exact Hinv].
    destruct key; simpl; rewrite ?Hover; try reflexivity. exfalso. auto.
  - destruct key; simpl; rewrite ?Hover; [exfalso; auto|..];
      try (eexists; split; [reflexivity | exact Hinv]).
    + key_runs (OpMove (-1) 0) Hinv Hover.
    + key_runs (OpMove 1 0) Hinv Hover.
    + key_runs OpSoftDrop Hinv Hover.
    + key_runs (OpRotate 1) Hinv Hover.
    + key_runs (OpRotate 1) Hinv Hover.
    + key_runs (OpRotate (-1)) Hinv Hover.
    + key_runs OpHardDrop Hinv Hover.
    + key_runs OpHold Hinv Hover.
Qed.

Lemma handle_events_in_play (g : Game) (events : list Event) :
  board_inv (board g) -> Forall (fun event => ~ exit_event event) events ->
  exists g', handle_events shuffle g events = Ok g' /\ board_inv (board g').
Proof using Type shuffle_perm.
  intros Hinv Hev. revert g Hinv.
  induction Hev as [|event events Hne _ IH]; intros g Hinv; simpl; [eauto|].
  destruct (handle_event_in_play g event Hinv Hne) as (g1 & -> & Hinv1).
  simpl. apply IH. exact Hinv1.
Qed.

Lemma repeat_move_in_play (g : Game) (dx : Z) (clock_seconds : T) :
  board_inv (board g) -> game_over (board g) = false ->
  exists g', _repeat_move lit t_add t_gt g dx clock_seconds = Ok g' /\
             board_inv (board g').
Proof using Type shuffle_perm.
  intros Hinv Hover. unfold _repeat_move.
  match goal with |- context [if ?c then _ else _] => destruct c end.
  - match goal with |- context [try_move ?bb dx 0] =>
      assert (Hb : bb = board g) by (destruct (_move_accum g); reflexivity);
      rewrite Hb end.
    destruct (run_op_total (OpMove dx 0) _ Hinv Hover) as [b' Hop].
    pose proof (run_op_board_inv (OpMove dx 0) _ b' Hop Hinv) as [Hinv' _].
    simpl in Hop. apply bind_Ok in Hop as (r & Hr & Hop). injection Hop as <-.
    rewrite Hr. simpl. eexists. split; [reflexivity | exact Hinv'].
  - eexists. split; [reflexivity|]. destruct (_move_accum g); exact Hinv.
Qed.

Lemma gravity_loop_in_play (fuel : nat) (g : Game) (interval : T) :
  (gravity_fuel (board g) <= fuel)%nat ->
  board_inv (board g) -> game_over (board g) = false ->
  exists g', gravity_loop shuffle t_sub t_ge fuel g interval = Ok g' /\
             board_inv (board g').
Proof using Type shuffle_perm.
  revert g. induction fuel as [|fuel IH]; intros g Hfuel Hinv Hover.
  - unfold gravity_fuel, drop_fuel in Hfuel. destruct (current (board g)); lia.
  - simpl. destruct (t_ge (time_since_gravity g) interval); [|eauto].
    destruct (run_op_total (OpMove 0 1) _ Hinv Hover) as [b' Hop].
    pose proof (run_op_board_inv (OpMove 0 1) _ b' Hop Hinv) as [Hinv' _].
    simpl in Hop. apply bind_Ok in Hop as ([b1 moved] & Hr & Hop).
    injection Hop as <-. rewrite Hr. simpl. destruct moved; simpl.
    + apply try_move_committed_valid in Hr as (cur & Hcur & Hv & ->).
      apply IH; [|exact Hinv' | exact Hover].
      apply valid_anchor_bound in Hv. simpl in Hv.
      unfold gravity_fuel, drop_fuel in *. rewrite Hcur in Hfuel. simpl. lia.
    + destruct (run_op_total OpLock b1 Hinv') as [b2 Hlock].
      { apply try_move_inv in Hr as [[_ ->]|[Hr _]]; [exact Hover | discriminate]. }
      pose proof (run_op_board_inv OpLock b1 b2 Hlock Hinv') as [Hinv2 _].
      simpl in Hlock. rewrite Hlock. simpl. eauto.
Qed.

(** X15. A game whose board is in play never raises an index error: a
    batch of events without Quit and Escape is handled, and a gravity
    update of any length returns, each leaving a board in play. *)
Theorem game_step_never_raises (g : Game) :
  board_inv (board g) ->
  (forall dt events keys clock_seconds,
      Forall (fun event => ~ exit_event event) events ->
      exists g',
        handle_input shuffle lit t_add t_gt g dt events keys clock_seconds = Ok g' /\
        board_inv (board g')) /\
  (forall dt,
      exists g',
        update shuffle lit t_add t_sub t_ge g dt = Ok g' /\
        board_inv (board g')).
Proof using Type shuffle_perm.
  intros Hinv. split.
  - intros dt events keys clock_seconds Hev. unfold handle_input.
    destruct (handle_events_in_play g events Hinv Hev) as (g1 & -> & Hinv1).
    simpl. destruct (game_over (board g1)) eqn:Hover; simpl; [eauto|].
    destruct (keys K_LEFT); [apply repeat_move_in_play; assumption|].
    destruct (keys K_RIGHT); [apply repeat_move_in_play; assumption|]. eauto.
  - intros dt. unfold update.
    destruct (game_over (board g)) eqn:Hover; [eauto|].
    assert (Hlevel : 1 <= level (board g)).
    { destruct Hinv as (_ & _ & Hl & Hlv & _). rewrite Hlv.
      pose proof (Z.div_pos (lines_cleared (board g)) 10). lia. }
    destruct (gravity_interval_lookup
                (set_time_since_gravity (t_add (time_since_gravity g) dt) g) Hlevel)
      as (s & _ & ->).
    simpl. apply gravity_loop_in_play; auto.
Qed.


(** ** The bag *)

Lemma next_from_bag_snoc (b : Board) (l : list Kind.t) (a : Kind.t) :
  bag b = l ++ [a] -> _next_from_bag shuffle b = Ok (a, set_bag l b).
Proof.
  intros Hb. unfold _next_from_bag.
  destruct (bag b) as [|k ks] eqn:E; [destruct l; discriminate|].
  cbv zeta. rewrite E, Hb, py_pop_snoc. reflexivity.
Qed.

Lemma next_from_bag_refill (b : Board) (l : list Kind.t) (a : Kind.t) :
  bag b = [] -> fst (shuffle (rng b) SHAPE_DEFS_keys) = l ++ [a] ->
  _next_from_bag shuffle b
  = Ok (a, set_bag l (set_rng (snd (shuffle (rng b) SHAPE_DEFS_keys)) b)).
Proof.
  intros Hb Hl. unfold _next_from_bag, _refill_bag. rewrite Hb.
  destruct (shuffle (rng b) SHAPE_DEFS_keys) as [shuffled g]. simpl in *. subst.
  rewrite py_pop_snoc. reflexivity.
Qed.

Lemma draw_many_S (n : nat) (b : Board) :
  draw_many shuffle (S n) b
  = (r <- _next_from_bag shuffle b ;;
     rest <- draw_many shuffle n (snd r) ;;
     Ok (fst r :: fst rest, snd rest)).
Proof. reflexivity. Qed.

(** Drawing as many kinds as the bag holds empties it, last first. *)
Lemma draw_many_drains (l : list Kind.t) (b : Board) :
  bag b = l -> draw_many shuffle (length l) b = Ok (rev l, set_bag [] b).
Proof.
  revert b. induction l as [|a l IH] using rev_ind; intros b Hb.
  - simpl. destruct b. simpl in Hb. subst. reflexivity.
  - rewrite length_app, Nat.add_1_r, rev_unit, draw_many_S.
    rewrite (next_from_bag_snoc b l a Hb). cbn [bind fst snd].
    rewrite (IH (set_bag l b) eq_refl). reflexivity.
Qed.

Lemma shuffled_bag (g : G) :
  exists l a, fst (shuffle g SHAPE_DEFS_keys) = l ++ [a] /\ length l = 6%nat.
Proof using Type shuffle_perm.
  pose proof (shuffle_perm g SHAPE_DEFS_keys) as Hperm.
  apply Permutation_length in Hperm. change (length SHAPE_DEFS_keys) with 7%nat in Hperm.
  destruct (fst (shuffle g SHAPE_DEFS_keys)) as [|k ks] using rev_ind;
    [discriminate|].
  exists ks, k. split; [reflexivity|]. rewrite length_app in Hperm. simpl in Hperm. lia.
Qed.

Lemma SHAPE_DEFS_keys_NoDup : NoDup SHAPE_DEFS_keys.
Proof.
  change SHAPE_DEFS_keys
    with [Kind.I; Kind.J; Kind.L; Kind.O; Kind.S; Kind.T; Kind.Z].
  repeat (apply NoDup_cons_2;
          [rewrite ?elem_of_cons, elem_of_nil; hide_parameters; intuition discriminate|]).
  apply NoDup_nil_2.
Qed.

(** X16. The seven-bag: starting from an empty bag, seven draws return
    the seven kinds, each once, in the reverse of the order the shuffle
    gave, and leave the bag empty again; nothing but the bag and the
    generator changes. *)
Theorem seven_draws_are_one_bag (b : Board) :
  bag b = [] ->
  exists ks b',
    draw_many shuffle 7 b = Ok (ks, b') /\
    ks = rev (fst (shuffle (rng b) SHAPE_DEFS_keys)) /\
    ks ≡ₚ SHAPE_DEFS_keys /\ NoDup ks /\
    b' = set_rng (snd (shuffle (rng b) SHAPE_DEFS_keys)) b.
Proof using Type shuffle_perm.
  intros Hb. destruct (shuffled_bag (rng b)) as (l & a & Hl & Hlen).
  pose proof (shuffle_perm (rng b) SHAPE_DEFS_keys) as Hperm.
  assert (Hks : rev (fst (shuffle (rng b) SHAPE_DEFS_keys)) ≡ₚ SHAPE_DEFS_keys).
  { etrans; [symmetry; apply Permutation_rev | exact Hperm]. }
  exists (rev (fst (shuffle (rng b) SHAPE_DEFS_keys))),
    (set_rng (snd (shuffle (rng b) SHAPE_DEFS_keys)) b).
  split; [|split; [reflexivity|split; [exact Hks|split; [|reflexivity]]]].
  - replace 7%nat with (S (length l)) by (rewrite Hlen; reflexivity).
    rewrite draw_many_S.
    rewrite (next_from_bag_refill b l a Hb Hl). cbn [bind fst snd]. rewrite draw_many_drains by reflexivity.
    rewrite Hl, rev_unit. cbn [bind fst snd]. f_equal. f_equal.
    destruct b. simpl in Hb. subst. reflexivity.
  - rewrite Hks. apply SHAPE_DEFS_keys_NoDup.
Qed.

Lemma prefill_S (n : nat) (b : Board) :
  prefill shuffle (S n) b
  = (b' <- append_next shuffle b ;; prefill shuffle n b').
Proof. reflexivity. Qed.

Lemma append_next_snoc (b : Board) (l : list Kind.t) (a : Kind.t) :
  bag b = l ++ [a] ->
  append_next shuffle b
  = Ok (set_next_queue (next_queue b ++ [a]) (set_bag l b)).
Proof.
  intros Hb. unfold append_next. rewrite (next_from_bag_snoc b l a Hb).
  reflexivity.
Qed.

(** Filling the queue from a bag that holds enough kinds moves them
    over, last first. *)
Lemma prefill_drains (ks l : list Kind.t) (b : Board) :
  bag b = l ++ rev ks ->
  prefill shuffle (length ks) b
  = Ok (set_next_queue (next_queue b ++ ks) (set_bag l b)).
Proof.
  revert b. induction ks as [|k ks IH]; intros b Hb.
  - simpl in Hb. rewrite app_nil_r in Hb. rewrite app_nil_r.
    destruct b. simpl in Hb. subst. reflexivity.
  - cbn [length]. rewrite prefill_S. cbn [rev] in Hb. rewrite app_assoc in Hb.
    rewrite (append_next_snoc b _ k Hb). cbn [bind].
    rewrite IH by reflexivity. f_equal. unfold set_next_queue, set_bag.
    cbn [cols rows grid current hold can_hold bag next_queue score lines_cleared
         level game_over rng].
    rewrite <- app_assoc. reflexivity.
Qed.

(** The constructor draws the last five kinds of the first shuffle. *)
Lemma Board_init_draws (c r : Z) (g : G) :
  exists b,
    Board_init shuffle c r g = Ok b /\
    bag b ++ rev (next_queue b) = fst (shuffle g SHAPE_DEFS_keys) /\
    length (bag b) = 2%nat /\
    rng b = snd (shuffle g SHAPE_DEFS_keys).
Proof using Type shuffle_perm.
  destruct (shuffled_bag g) as (l & a & Hl & Hlen).
  set (b0 := mkBoard c r (replicate (Z.to_nat r) (replicate (Z.to_nat c) None))
               None None true [] [] 0 0 1 false g).
  set (ks := rev (drop 2 l)).
  assert (Hks : length ks = 4%nat).
  { subst ks. rewrite length_rev, length_drop. lia. }
  exists (set_next_queue ([a] ++ ks)
            (set_bag (take 2 l) (set_rng (snd (shuffle g SHAPE_DEFS_keys)) b0))).
  split; [|split; [|split]].
  - unfold Board_init. fold b0. rewrite (prefill_S 4). unfold append_next.
    rewrite (next_from_bag_refill b0 l a eq_refl Hl). cbn [bind fst snd].
    rewrite <- Hks. rewrite (prefill_drains ks (take 2 l)); [reflexivity|].
    subst ks. rewrite rev_involutive, take_drop. reflexivity.
  - cbn [bag next_queue set_next_queue set_bag]. rewrite Hl.
    change (rev ([a] ++ ks)) with (rev ks ++ [a]). subst ks.
    rewrite rev_involutive, app_assoc, take_drop. reflexivity.
  - cbn [bag next_queue set_next_queue set_bag]. rewrite length_take. lia.
  - reflexivity.
Qed.

(** X17. A new board shows five distinct kinds: the constructor shuffles
    one bag, moves its last five kinds to the queue, last first, and keeps
    the other two in the bag; the grid is empty, there is no piece and no
    held kind, the score and the lines are 0 and the level is 1. *)
Theorem new_board_previews_five_of_one_bag (c r : Z) (g : G) :
  exists b,
    Board_init shuffle c r g = Ok b /\
    bag b ++ rev (next_queue b) = fst (shuffle g SHAPE_DEFS_keys) /\
    length (next_queue b) = 5%nat /\ length (bag b) = 2%nat /\
    NoDup (next_queue b) /\
    (forall k, k ∈ bag b -> k ∉ next_queue b) /\
    grid b = replicate (Z.to_nat r) (replicate (Z.to_nat c) None) /\
    current b = None /\ hold b = None /\ can_hold b = true /\
    score b = 0 /\ lines_cleared b = 0 /\ level b = 1 /\ game_over b = false.
Proof using Type shuffle_perm.
  destruct (Board_init_draws c r g) as (b & Hinit & Hbag & Hlen & _).
  exists b. split; [exact Hinit|].
  pose proof (Board_init_fields c r g b Hinit)
    as (_ & _ & Hg & Hcur & Hh & Hch & Hs & Hl & Hlv & Ho).
  pose proof (shuffle_perm g SHAPE_DEFS_keys) as Hperm.
  assert (Hnd : NoDup (bag b ++ rev (next_queue b))).
  { rewrite Hbag. apply (NoDup_Permutation_proper _ _ Hperm).
    apply SHAPE_DEFS_keys_NoDup. }
  apply NoDup_app in Hnd as (_ & Hdisj & Hq).
  split; [exact Hbag|]. split; [exact (Board_init_queue c r g b Hinit)|].
  split; [exact Hlen|]. split.
  { rewrite (Permutation_rev (next_queue b)). exact Hq. }
  split.
  { intros k Hk Hin. apply (Hdisj k Hk).
    rewrite <- (Permutation_rev (next_queue b)). exact Hin. }
  repeat (split; [assumption|]). assumption.
Qed.


(** ** Line clearing, once more *)

Lemma filter_then_rest {A : Type} (f : A -> bool) (l : list A) :
  List.filter (fun a => negb (f a)) (List.filter f l) = [].
Proof.
  induction l as [|a l IH]; simpl; [reflexivity|].
  destruct (f a) eqn:E; simpl; rewrite ?E; simpl; exact IH.
Qed.

Lemma full_rows_of_empty_rows (n c : nat) :
  (0 < c)%nat -> full_rows (replicate n (replicate c (None : Cell))) = [].
Proof.
  intros Hc. destruct c as [|c]; [lia|].
  induction n as [|n IH]; simpl; [reflexivity | exact IH].
Qed.

Lemma clear_lines_nothing_to_do (b : Board) :
  grid_wf b -> full_rows (grid b) = [] -> _clear_lines_efficient b = b.
Proof.
  intros Hwf Hfull. unfold _clear_lines_efficient.
  rewrite (cleared_count b Hwf), Hfull. reflexivity.
Qed.

(** X18. On a board with at least one column, line clearing leaves no
    full row behind, so clearing a second time changes nothing: neither
    the grid nor the score, the lines and the level. *)
Theorem clear_lines_leaves_no_full_row (b : Board) :
  grid_wf b -> 0 < cols b ->
  full_rows (grid (_clear_lines_efficient b)) = [] /\
  _clear_lines_efficient (_clear_lines_efficient b) = _clear_lines_efficient b.
Proof.
  intros Hwf Hcols.
  assert (Hfull : full_rows (grid (_clear_lines_efficient b)) = []).
  { rewrite (clear_lines_grid b Hwf). unfold full_rows at 1.
    rewrite List.filter_app. fold (full_rows (replicate (length (full_rows (grid b)))
                                     (replicate (Z.to_nat (cols b)) (None : Cell)))).
    rewrite full_rows_of_empty_rows by lia.
    rewrite filter_then_rest. reflexivity. }
  split; [exact Hfull|].
  apply clear_lines_nothing_to_do; [apply clear_lines_wf; exact Hwf | exact Hfull].
Qed.

(** ** Hold *)

(** X19. Holding twice is holding once: whatever a call of [hold_piece]
    did, a second call right after it changes nothing. *)
Theorem hold_twice_is_hold_once (b b' : Board) :
  hold_piece shuffle b = Ok b' -> hold_piece shuffle b' = Ok b'.
Proof.
  intros H. unfold hold_piece in H.
  destruct (can_hold b) eqn:Ec; simpl in H.
  - destruct (current b) as [cur|] eqn:Ecur.
    + apply bind_Ok in H as (b1 & _ & H). injection H as <-.
      reflexivity.
    + injection H as <-. unfold hold_piece. rewrite Ec, Ecur. reflexivity.
  - injection H as <-. unfold hold_piece. rewrite Ec. reflexivity.
Qed.

(** X20. Swapping with the held kind: the held kind comes back at column
    [cols // 2 - 2] and row 0 with rotation 0, the I piece included, which
    [spawn] would have put at row -1; the kind of the current piece is
    held, holding is disabled, the queue, the bag, the grid and the score
    stay, and the game is over afterwards exactly when it was before or
    the piece does not fit. *)
Theorem hold_swap_enters_at_row_zero (b : Board) (cur : Piece.t) (held : Kind.t) :
  grid_wf b -> can_hold b = true -> current b = Some cur -> hold b = Some held ->
  let piece := Piece.mk held (cols b / 2 - 2) 0 0 in
  exists b',
    hold_piece shuffle b = Ok b' /\
    current b' = Some piece /\ hold b' = Some (Piece.kind cur) /\
    can_hold b' = false /\
    next_queue b' = next_queue b /\ bag b' = bag b /\ grid b' = grid b /\
    score b' = score b /\
    (game_over b' = true <-> game_over b = true \/ _valid b piece = Ok false) /\
    (held = Kind.I -> piece <> spawn_piece (cols b) held).
Proof.
  intros Hwf Hch Hcur Hh piece.
  destruct (valid_total b piece Hwf) as [v Hv].
  { unfold rotation_ok. simpl. lia. }
  unfold hold_piece. rewrite Hch, Hcur, Hh. cbn [negb].
  fold piece. rewrite (valid_ext b) by reflexivity. rewrite Hv.
  destruct v; simpl; eexists; (split; [reflexivity|]); simpl;
    repeat (split; [reflexivity|]); (split; [|intros ->; discriminate]).
  - split; [auto | intros [H|H]; [exact H | discriminate]].
  - split; auto.
Qed.

(** ** Moves *)

(** X21. A move that was accepted from a valid position is undone by
    the opposite move: the board is the one before, field for field. *)
Theorem try_move_back_restores_board (b b1 : Board) (dx dy : Z) :
  current_valid b -> try_move b dx dy = Ok (b1, true) ->
  try_move b1 (- dx) (- dy) = Ok (b, true).
Proof.
  intros Hv H. apply try_move_committed_valid in H as (cur & Hcur & _ & ->).
  unfold current_valid in Hv. rewrite Hcur in Hv.
  unfold try_move. simpl.
  assert (Hp : Piece.mk (Piece.kind cur) (Piece.x cur + dx + - dx)
                 (Piece.y cur + dy + - dy) (Piece.rotation cur) = cur).
  { destruct cur. simpl. f_equal; lia. }
  rewrite Hp. rewrite (valid_ext b) by reflexivity. rewrite Hv. simpl.
  destruct b. simpl in Hcur. subst. reflexivity.
Qed.

(** ** The end of the game *)

(** X22. Nothing resets the game-over flag: once it is set, it is set
    after every sequence of public operations. *)
Theorem game_over_is_permanent (ops : list Op) (b b' : Board) :
  game_over b = true -> run_ops shuffle ops b = Ok b' -> game_over b' = true.
Proof.
  revert b. induction ops as [|op ops IH]; intros b Hover H; simpl in H.
  - injection H as <-. exact Hover.
  - apply bind_Ok in H as (b1 & Hop & H).
    apply (IH b1); [|exact H]. exact (run_op_game_over_mono op b b1 Hop Hover).
Qed.

(** ** A new game *)

Lemma spawn_piece_fits_empty_board (b : Board) (kind : Kind.t) :
  cols b = COLUMNS -> rows b = ROWS ->
  grid b = replicate (Z.to_nat ROWS) (replicate (Z.to_nat COLUMNS) None) ->
  _valid b (spawn_piece COLUMNS kind) = Ok true.
Proof.
  intros Hc Hr Hg.
  rewrite (valid_ext
             (mkBoard COLUMNS ROWS
                (replicate (Z.to_nat ROWS) (replicate (Z.to_nat COLUMNS) None))
                None None true [] [] 0 0 1 false (rng b)) b)
    by assumption.
  destruct kind; vm_compute; reflexivity.
Qed.

(** X23. A new game never fails to start: the constructor returns a
    10 by 20 board in play whose current piece is the last kind of the
    first shuffle, at column 3, row -1 for the I piece and row 0 for the
    others; five kinds are queued, nothing is held, the score is 0, the
    level is 1 and the gravity timer is 0. *)
Theorem new_game_starts_in_play (g0 : G) :
  exists g kind,
    Game_init shuffle lit g0 = Ok g /\
    last (fst (shuffle g0 SHAPE_DEFS_keys)) = Some kind /\
    current (board g)
    = Some (Piece.mk kind 3 (if Kind.eqb kind Kind.I then -1 else 0) 0) /\
    game_over (board g) = false /\ can_hold (board g) = true /\
    hold (board g) = None /\ length (next_queue (board g)) = 5%nat /\
    cols (board g) = 10 /\ rows (board g) = 20 /\
    score (board g) = 0 /\ level (board g) = 1 /\
    board_inv (board g) /\
    time_since_gravity g = lit 0 /\ _move_accum g = None.
Proof using Type shuffle_perm.
  destruct (Board_init_draws COLUMNS ROWS g0) as (b & Hinit & Hbag & _ & _).
  pose proof (Board_init_fields _ _ _ _ Hinit)
    as (Hc & Hr & Hg & Hcur & Hh & Hch & Hs & Hl & Hlv & Ho).
  pose proof (Board_init_queue _ _ _ _ Hinit) as Hq.
  assert (Hinv : board_inv b).
  { apply (Board_init_board_inv COLUMNS ROWS g0 b);
      [unfold COLUMNS; lia | unfold ROWS; lia | exact Hinit]. }
  destruct (spawn_total b) as [b' Hspawn]; [apply Hinv|].
  pose proof (run_op_board_inv OpSpawn b b' Hspawn Hinv) as [Hinv' _].
  assert (Hq' : length (next_queue b') = 5%nat).
  { rewrite <- Hq. apply (spawn_queue_length b b' Hspawn).
    intros Hnil. rewrite Hnil in Hq. discriminate. }
  destruct (next_queue b) as [|kind q] eqn:Eq; [discriminate|].
  destruct (spawn_inv b b' Hspawn) as (kind' & b2 & Hf & Hkind & Hcase).
  destruct (Hkind kind q Eq) as [-> _].
  rewrite Hc in Hcase.
  rewrite (spawn_piece_fits_empty_board b kind Hc Hr Hg) in Hcase.
  destruct Hcase as [[Hcase _]|[_ Hb']]; [discriminate|].
  destruct Hf as (Hc2 & Hr2 & _ & _ & Hh2 & _ & Hs2 & _ & Hlv2 & Ho2).
  exists (mkGame b' (lit 0) None), kind.
  split. { unfold Game_init. rewrite Hinit. simpl. rewrite Hspawn. reflexivity. }
  split. { rewrite <- Hbag. simpl. rewrite app_assoc. apply last_snoc. }
  cbn [board time_since_gravity _move_accum].
  unfold COLUMNS in Hc. unfold ROWS in Hr.
  split; [rewrite Hb'; reflexivity|].
  split; [rewrite Hb'; cbn [game_over set_can_hold set_current]; congruence|].
  split; [rewrite Hb'; reflexivity|].
  split; [rewrite Hb'; cbn [hold set_can_hold set_current]; congruence|].
  split; [exact Hq'|].
  split; [rewrite Hb'; cbn [cols set_can_hold set_current]; congruence|].
  split; [rewrite Hb'; cbn [rows set_can_hold set_current]; congruence|].
  split; [rewrite Hb'; cbn [score set_can_hold set_current]; congruence|].
  split; [rewrite Hb'; cbn [level set_can_hold set_current]; congruence|].
  split; [exact Hinv'|]. split; reflexivity.
Qed.


(** ** Hard drop against soft drops *)

(** The score is carried along by everything [lock_piece] calls; only
    the scoring of cleared lines adds to it. *)
Lemma next_from_bag_set_score (b : Board) (s : Z) :
  _next_from_bag shuffle (set_score s b)
  = res_map (fun r => (fst r, set_score s (snd r))) (_next_from_bag shuffle b).
Proof.
  unfold _next_from_bag, _refill_bag. simpl.
  destruct (bag b) as [|k ks]; [destruct (shuffle (rng b) SHAPE_DEFS_keys)|];
    simpl; match goal with |- context [py_pop ?l] => destruct (py_pop l) end;
    reflexivity.
Qed.

Lemma append_next_set_score (b : Board) (s : Z) :
  append_next shuffle (set_score s b)
  = res_map (set_score s) (append_next shuffle b).
Proof.
  unfold append_next. rewrite next_from_bag_set_score.
  destruct (_next_from_bag shuffle b); reflexivity.
Qed.

Lemma spawn_set_score (b : Board) (s : Z) :
  spawn shuffle (set_score s b) = res_map (set_score s) (spawn shuffle b).
Proof.
  unfold spawn. cbn [next_queue set_score].
  assert (H1 : (match next_queue b with
                | [] => append_next shuffle (set_score s b)
                | _ :: _ => Ok (set_score s b)
                end)
               = res_map (set_score s)
                   (match next_queue b with
                    | [] => append_next shuffle b
                    | _ :: _ => Ok b
                    end)).
  { destruct (next_queue b); [apply append_next_set_score | reflexivity]. }
  rewrite H1.
  destruct (match next_queue b with [] => append_next shuffle b | _ :: _ => Ok b end)
    as [b1| |]; simpl; try reflexivity.
  destruct (next_queue b1) as [|kind rest]; [reflexivity|].
  change (set_next_queue rest (set_score s b1))
    with (set_score s (set_next_queue rest b1)).
  rewrite append_next_set_score.
  destruct (append_next shuffle (set_next_queue rest b1)) as [b2| |]; simpl;
    try reflexivity.
  match goal with |- context [_valid (set_score s b2) ?p] =>
    rewrite (valid_ext b2 (set_score s b2) p) by reflexivity;
    destruct (_valid b2 p) as [[|]| |] end; reflexivity.
Qed.

Lemma grid_set_set_score (b : Board) (x y : Z) (v : Cell) (s : Z) :
  grid_set (set_score s b) x y v = res_map (set_score s) (grid_set b x y v).
Proof.
  unfold grid_set. simpl. destruct (py_index (length (grid b)) y) as [iy| |];
    simpl; try reflexivity.
  destruct (grid b !! iy) as [row|]; [|reflexivity].
  destruct (py_setitem row x v); reflexivity.
Qed.

Lemma lock_cells_set_score (b : Board) (color : Color) (cs : list (Z * Z)) (s : Z) :
  lock_cells (set_score s b) color cs
  = res_map (set_score s) (lock_cells b color cs).
Proof.
  revert b. induction cs as [|[x y] cs IH]; intros b; simpl; [reflexivity|].
  destruct (y <? 0).
  - exact (IH (set_game_over true b)).
  - rewrite grid_set_set_score.
    destruct (grid_set b x y (Some color)) as [b1| |]; simpl;
      [apply IH | reflexivity | reflexivity].
Qed.

Lemma clear_lines_set_score (b : Board) (s : Z) :
  _clear_lines_efficient (set_score s b)
  = set_score (score (_clear_lines_efficient b) - score b + s)
      (_clear_lines_efficient b).
Proof.
  unfold _clear_lines_efficient. simpl.
  destruct (0 <? rows b - Z.of_nat (length (List.filter has_empty_cell (grid b)))).
  - unfold _apply_scoring, set_level, set_lines_cleared, set_score, set_grid.
    simpl. f_equal. lia.
  - unfold set_score. f_equal. lia.
Qed.

Lemma lock_piece_set_score (b : Board) (s : Z) :
  lock_piece shuffle (set_score s b)
  = res_map (fun b' => set_score (score b' - score b + s) b')
      (lock_piece shuffle b).
Proof.
  unfold lock_piece. simpl. destruct (current b) as [cur|].
  - destruct (Piece.cells cur None) as [cs| |]; simpl; try reflexivity.
    rewrite lock_cells_set_score.
    pose proof (lock_cells_frame b) as Hframe.
    destruct (lock_cells b (Piece.color cur) cs) as [b1| |] eqn:El; simpl;
      try reflexivity.
    apply Hframe in El. unfold only_grid_and_over in El.
    destruct El as (_ & _ & _ & _ & _ & _ & _ & Hs & _).
    change (set_current None (set_score s b1))
      with (set_score s (set_current None b1)).
    rewrite clear_lines_set_score, spawn_set_score.
    pose proof (spawn_frame (_clear_lines_efficient (set_current None b1))) as Hsp.
    destruct (spawn shuffle (_clear_lines_efficient (set_current None b1)))
      as [b'| |] eqn:Es; simpl; try reflexivity.
    f_equal. f_equal.
    specialize (Hsp b' eq_refl).
    destruct Hsp as (_ & _ & _ & _ & Hs' & _).
    rewrite Hs'. simpl in Hs. simpl. lia.
  - simpl. f_equal. unfold set_score. f_equal. lia.
Qed.

(** X24. A hard drop is the soft drops down to the floor followed by the
    lock, for one more point per row: with [n] the hard-drop distance,
    [n] soft drops succeed, and [hard_drop] ends like [lock_piece] on the
    board they leave, with [n] added to the score; a hard drop is worth
    two points per row and a soft drop one. *)
Theorem hard_drop_is_soft_drops_then_lock (b : Board) (cur : Piece.t) :
  grid_wf b -> current b = Some cur -> rotation_ok cur ->
  exists (n : nat) b1,
    hard_drop_distance b = Ok (Z.of_nat n) /\
    soft_drops n b = Ok b1 /\
    score b1 = score b + Z.of_nat n /\
    hard_drop shuffle b
    = res_map (fun b2 => set_score (score b2 + Z.of_nat n) b2)
        (lock_piece shuffle b1).
Proof.
  intros Hwf Hcur Hrot.
  destruct (hard_drop_distance_spec b cur Hwf Hcur Hrot) as (n & Hd & Hsteps & Hstop).
  exists n, (soft_dropped b cur (Z.of_nat n)).
  split; [exact Hd|]. split; [|split; [reflexivity|]].
  - rewrite <- (soft_dropped_0 b cur Hcur) at 1.
    rewrite (soft_drops_soft_dropped b cur n n 0 Hsteps Hstop) by lia.
    rewrite Z.min_l by lia. reflexivity.
  - unfold hard_drop. rewrite Hcur, Hd. cbn [bind].
    fold (shift_down cur (Z.of_nat n)).
    unfold soft_dropped. rewrite lock_piece_set_score.
    destruct (lock_piece shuffle (set_current (Some (shift_down cur (Z.of_nat n))) b))
      as [b2| |]; simpl; try reflexivity.
    f_equal. unfold set_score. simpl. f_equal. lia.
Qed.

End EngineFacts.

(** * The claims on concrete sessions *)

Lemma rev_shuffle_perm (g : unit) (l : list Kind.t) :
  fst (rev_shuffle g l) ≡ₚ l.
Proof. simpl. symmetry. apply Permutation_rev. Qed.

(** The four states of the long bar, as the table computes them. *)
Example long_bar_states :
  TETROMINO_SHAPES Kind.I
  = [ [(0, 1); (1, 1); (2, 1); (3, 1)]; [(2, 0); (2, 1); (2, 2); (2, 3)];
      [(3, 2); (2, 2); (1, 2); (0, 2)]; [(1, 3); (1, 2); (1, 1); (1, 0)] ].
Proof. reflexivity. Qed.


Lemma started_board_wf : grid_wf started_board.
Proof. split; [reflexivity | repeat constructor]. Defined.

Example new_board_constructed :
  Board_init rev_shuffle 10 20 tt = Ok new_board.
Proof. reflexivity. Qed.

Example started_board_spawned : spawn rev_shuffle new_board = Ok started_board.
Proof. reflexivity. Qed.

Example stacked_board_played :
  run_ops rev_shuffle stacking_ops started_board = Ok stacked_board.
Proof. vm_compute. reflexivity. Qed.

Lemma stacked_board_reachable : reachable rev_shuffle stacked_board.
Proof.
  apply (reachable_run_ops rev_shuffle (OpSpawn :: stacking_ops) new_board).
  - eapply reachable_init. exact new_board_constructed.
  - vm_compute. reflexivity.
Qed.

(** The line-clear example of the specification: rows 2 and 5 are full. *)
Lemma clear_lines_witness :
  grid_wf two_full_board /\
  grid (_clear_lines_efficient two_full_board)
  = map row_of_string
      ["...."; "...."; "...."; "X..."; ".X.."; "..X."; "...X"; "XX.."]%string /\
  rows (_clear_lines_efficient two_full_board) = 8 /\
  cols (_clear_lines_efficient two_full_board) = 4 /\
  lines_cleared (_clear_lines_efficient two_full_board) = 2.
Proof.
  assert (Hwf : grid_wf two_full_board).
  { split; [reflexivity | repeat constructor]. }
  destruct (clear_lines_prepends_empty_rows two_full_board Hwf)
    as (Hg & Hc & Hr & _ & Hl).
  split; [exact Hwf|]. split; [rewrite Hg; reflexivity|].
  split; [rewrite Hr; reflexivity|]. split; [rewrite Hc; reflexivity|].
  rewrite Hl. reflexivity.
Defined.

(** A hard drop of the first piece of a fresh game. *)
Lemma scoring_rules_witness :
  grid_wf started_board /\
  current started_board = Some (Piece.mk Kind.I 3 (-1) 0) /\
  _valid started_board (Piece.mk Kind.I 3 (-1) 0) = Ok true /\
  (exists b' moved,
      soft_drop started_board = Ok (b', moved) /\
      score b' = score started_board + (if moved then 1 else 0)) /\
  (exists (n : nat) cs b1 b',
      hard_drop_distance started_board = Ok (Z.of_nat n) /\
      Piece.cells (shift_down (Piece.mk Kind.I 3 (-1) 0) (Z.of_nat n)) None
      = Ok cs /\
      lock_cells
        (set_current
           (Some (shift_down (Piece.mk Kind.I 3 (-1) 0) (Z.of_nat n)))
           started_board)
        (Piece.color (Piece.mk Kind.I 3 (-1) 0)) cs = Ok b1 /\
      hard_drop rev_shuffle started_board = Ok b' /\
      score b'
      = score started_board
        + line_scores_get (Z.of_nat (length (full_rows (grid b1))))
          * level started_board
        + 2 * Z.of_nat n).
Proof.
  assert (Hcur : current started_board = Some (Piece.mk Kind.I 3 (-1) 0))
    by reflexivity.
  assert (Hv : _valid started_board (Piece.mk Kind.I 3 (-1) 0) = Ok true)
    by reflexivity.
  destruct (scoring_rules rev_shuffle rev_shuffle_perm started_board
              (Piece.mk Kind.I 3 (-1) 0) started_board_wf Hcur Hv)
    as (_ & _ & _ & Hsoft & Hhard).
  split; [exact started_board_wf|]. split; [exact Hcur|]. split; [exact Hv|].
  split; [exact Hsoft | exact Hhard].
Defined.

Example hard_drop_scores_twice_the_distance :
  hard_drop_distance started_board = Ok 19 /\
  res_map score (hard_drop rev_shuffle started_board) = Ok 38 /\
  res_map (fun r => score (fst r)) (soft_drop started_board) = Ok 1.
Proof. vm_compute. auto. Qed.

(** The kick example of the specification: (0,0) is blocked, (+1,0) and
    (-1,0) are both free, and (+1,0) is committed. *)
Lemma try_rotate_kick_order_witness :
  grid_wf kick_board /\
  current kick_board = Some kick_piece /\
  _valid kick_board (kick_candidate (Piece.rotated kick_piece 1) (0, 0))
  = Ok false /\
  _valid kick_board (kick_candidate (Piece.rotated kick_piece 1) (1, 0))
  = Ok true /\
  _valid kick_board (kick_candidate (Piece.rotated kick_piece 1) (-1, 0))
  = Ok true /\
  try_rotate kick_board 1
  = Ok (set_current (Some (Piece.mk Kind.I 4 5 1)) kick_board, true).
Proof.
  assert (Hwf : grid_wf kick_board).
  { split; [reflexivity | repeat constructor]. }
  assert (Hcur : current kick_board = Some kick_piece) by reflexivity.
  assert (H0 : _valid kick_board
                 (kick_candidate (Piece.rotated kick_piece 1) (0, 0))
               = Ok false) by reflexivity.
  assert (H1 : _valid kick_board
                 (kick_candidate (Piece.rotated kick_piece 1) (1, 0))
               = Ok true) by reflexivity.
  destruct (try_rotate_kick_order kick_board kick_piece 1 Hwf Hcur)
    as (_ & _ & Hkick).
  split; [exact Hwf|]. split; [exact Hcur|]. split; [exact H0|].
  split; [exact H1|]. split; [reflexivity|].
  rewrite (Hkick H0 H1). reflexivity.
Defined.

(** What the stacked board looks like: locked cells reach row 1 in
    columns 6 and 7 and row 0 in columns 7 and 8, the T piece has just
    spawned, the I kind is held and hold is allowed. *)
Example stacked_board_facts :
  map (map (fun c : Cell => bool_decide (is_Some c))) (take 2 (grid stacked_board))
  = [ [false; false; false; false; false; false; false; true; true; false];
      [false; false; false; false; false; false; true; true; false; false] ] /\
  current stacked_board = Some (Piece.mk Kind.T 3 0 0) /\
  hold stacked_board = Some Kind.I /\
  can_hold stacked_board = true /\
  game_over stacked_board = false /\
  _valid stacked_board (Piece.mk Kind.T 3 0 0) = Ok true /\
  _valid stacked_board (Piece.mk Kind.I 3 0 0) = Ok false.
Proof. vm_compute. repeat split; reflexivity. Qed.

(** C4 does not hold as the specification words it: in a game played
    from its start, a hold swap onto an occupied spawn row leaves the
    current piece present and game-over true at once. *)
Lemma hold_swap_leaves_piece_and_game_over :
  reachable rev_shuffle stacked_board /\
  exactly_one_of_piece_and_over stacked_board /\
  run_op rev_shuffle OpHold stacked_board = Ok swapped_board /\
  current swapped_board = Some (Piece.mk Kind.I 3 0 0) /\
  game_over swapped_board = true /\
  ~ exactly_one_of_piece_and_over swapped_board.
Proof.
  split; [exact stacked_board_reachable|].
  split; [left; split; [eexists|]; reflexivity|].
  split; [reflexivity|]. split; [reflexivity|]. split; [reflexivity|].
  intros [[_ H]|[H _]]; discriminate H.
Qed.

Lemma piece_or_game_over_witness :
  run_op rev_shuffle OpHold stacked_board = Ok swapped_board /\
  piece_or_over stacked_board /\
  piece_or_over swapped_board /\
  hold_outcome stacked_board (Piece.mk Kind.T 3 0 0) swapped_board.
Proof.
  assert (Hop : run_op rev_shuffle OpHold stacked_board = Ok swapped_board)
    by reflexivity.
  assert (Hinv : piece_or_over stacked_board).
  { left. eexists. reflexivity. }
  destruct (piece_or_game_over_after_operation rev_shuffle OpHold
              stacked_board swapped_board Hop) as (Hpost & _ & Hout).
  split; [exact Hop|]. split; [exact Hinv|].
  split; [apply Hpost; right; exact Hinv | exact Hout].
Defined.

(** A lock can leave both, too: the first piece of a fresh game, turned
    upright, pushed aside and locked while its top cell is above the
    grid, ends the game, and the next piece fits and is installed. *)
Example lock_above_the_top_leaves_piece_and_game_over :
  run_ops rev_shuffle upright_lock_ops started_board = Ok upright_lock_board /\
  current upright_lock_board = Some (Piece.mk Kind.J 3 0 0) /\
  game_over upright_lock_board = true /\
  ~ exactly_one_of_piece_and_over upright_lock_board.
Proof.
  split; [vm_compute; reflexivity|]. split; [reflexivity|].
  split; [reflexivity|]. intros [[_ H]|[H _]]; discriminate H.
Qed.




(** A spawn onto locked cells: the J piece would cover the locked cell
    of row 1, so the game is over and no piece is installed. *)
Example blocked_spawn_ends_the_game :
  res_map (fun b => (current b, game_over b)) (spawn rev_shuffle two_full_board)
  = Ok (None, true).
Proof. reflexivity. Qed.

Example first_spawn_is_the_long_bar_one_row_up :
  res_map current (spawn rev_shuffle new_board)
  = Ok (Some (Piece.mk Kind.I 3 (-1) 0)).
Proof. reflexivity. Qed.

(** A move to the right and a move into the left wall. *)
Lemma try_move_witness :
  grid_wf started_board /\
  current started_board = Some (Piece.mk Kind.I 3 (-1) 0) /\
  rotation_ok (Piece.mk Kind.I 3 (-1) 0) /\
  try_move started_board 1 0
  = Ok (set_current (Some (Piece.mk Kind.I 4 (-1) 0)) started_board, true) /\
  try_move started_board (-4) 0 = Ok (started_board, false).
Proof.
  assert (Hcur : current started_board = Some (Piece.mk Kind.I 3 (-1) 0))
    by reflexivity.
  assert (Hrot : rotation_ok (Piece.mk Kind.I 3 (-1) 0))
    by (unfold rotation_ok; simpl; lia).
  split; [exact started_board_wf|]. split; [exact Hcur|]. split; [exact Hrot|].
  split.
  - destruct (try_move_commits_or_leaves_unchanged started_board
                (Piece.mk Kind.I 3 (-1) 0) 1 0 started_board_wf Hcur Hrot)
      as [[_ H]|[Hv _]]; [exact H | discriminate Hv].
  - destruct (try_move_commits_or_leaves_unchanged started_board
                (Piece.mk Kind.I 3 (-1) 0) (-4) 0 started_board_wf Hcur Hrot)
      as [[Hv _]|[_ H]]; [discriminate Hv | exact H].
Defined.

(** A hundred seconds of gravity on a fresh game: nineteen rows down,
    one failed move, one lock, and more than a hundred intervals left
    over. *)
Lemma update_locks_at_most_once_witness :
  update_calls rev_shuffle hundredths Z.add Z.sub Z.geb started_game 10000
  = Ok (after_gravity_game, after_gravity_calls) /\
  after_gravity_calls
  = repeat (CallTryMoveDown true) 19 ++ [CallTryMoveDown false; CallLockPiece] /\
  (count_locks after_gravity_calls <= 1)%nat /\
  time_since_gravity after_gravity_game = 8400 /\
  gravity_interval hundredths after_gravity_game = Ok 80.
Proof.
  assert (E : update_calls rev_shuffle hundredths Z.add Z.sub Z.geb
                started_game 10000
              = Ok (after_gravity_game, after_gravity_calls))
    by (vm_compute; reflexivity).
  pose proof (update_locks_at_most_once rev_shuffle hundredths Z.add Z.sub
                Z.geb started_game 10000) as (_ & _ & Hshape).
  rewrite E in Hshape. destruct Hshape as [Hlocks _].
  split; [exact E|]. split; [reflexivity|]. split; [exact Hlocks|].
  split; reflexivity.
Defined.

Lemma next_queue_keeps_lookahead_witness :
  (forall g l, fst (rev_shuffle g l) ≡ₚ l) /\
  length (next_queue new_board) = 5%nat /\
  length (next_queue stacked_board) = 5%nat /\
  spawn rev_shuffle stacked_board = Ok respawned_board /\
  exists k q k' bq,
    next_queue stacked_board = k :: q /\
    _next_from_bag rev_shuffle (set_next_queue q stacked_board) = Ok (k', bq) /\
    next_queue respawned_board = q ++ [k'] /\
    length (next_queue respawned_board) = 5%nat.
Proof.
  destruct (next_queue_keeps_lookahead rev_shuffle rev_shuffle_perm)
    as (Hinit & Hreach & Hspawn).
  assert (E : spawn rev_shuffle stacked_board = Ok respawned_board)
    by (vm_compute; reflexivity).
  split; [exact rev_shuffle_perm|]. split.
  - destruct (Hinit 10 20 tt) as (b & Hb & Hlen).
    rewrite new_board_constructed in Hb. injection Hb as <-. exact Hlen.
  - split; [apply Hreach, stacked_board_reachable|]. split; [exact E|].
    exact (Hspawn stacked_board respawned_board stacked_board_reachable E).
Defined.

(** A board that has not spawned yet has no current piece. *)
Lemma operations_without_current_piece_witness :
  current new_board = None /\
  (forall dx dy, try_move new_board dx dy = Ok (new_board, false)) /\
  (forall dr, try_rotate new_board dr = Ok (new_board, false)) /\
  soft_drop new_board = Ok (new_board, false) /\
  hard_drop rev_shuffle new_board = Ok new_board /\
  lock_piece rev_shuffle new_board = Ok new_board /\
  hold_piece rev_shuffle new_board = Ok new_board /\
  hard_drop_distance new_board = Ok 0 /\
  ghost_cells new_board = Ok [].
Proof.
  split; [reflexivity|].
  exact (operations_without_current_piece rev_shuffle new_board eq_refl).
Defined.

(** * The further properties on concrete sessions *)

Lemma stacked_board_wf : grid_wf stacked_board.
Proof. split; [reflexivity | repeat constructor]. Defined.

Lemma started_board_inv : board_inv started_board.
Proof.
  split; [exact started_board_wf|]. split; [intros _; reflexivity|].
  split; [discriminate|]. split; [reflexivity | discriminate].
Defined.

Lemma stacked_board_inv : board_inv stacked_board.
Proof.
  split; [exact stacked_board_wf|]. split; [intros _; reflexivity|].
  split; [discriminate|]. split; [reflexivity | discriminate].
Defined.

(** The T piece pointing right, turned once more. *)
Lemma rotated_turns_cells_witness :
  0 <= Piece.rotation (Piece.mk Kind.T 3 0 1) < 4 /\
  Piece.cells (Piece.mk Kind.T 3 0 1) None
  = Ok [(6, 1); (5, 0); (5, 1); (5, 2)] /\
  Piece.cells (Piece.rotated (Piece.mk Kind.T 3 0 1) 1) None
  = Ok [(5, 3); (6, 2); (5, 2); (4, 2)] /\
  Piece.rotated (Piece.rotated (Piece.mk Kind.T 3 0 1) 1) (-1)
  = Piece.mk Kind.T 3 0 1.
Proof.
  assert (Hrot : 0 <= Piece.rotation (Piece.mk Kind.T 3 0 1) < 4)
    by (simpl; lia).
  destruct (rotated_turns_cells (Piece.mk Kind.T 3 0 1) Hrot)
    as ((cs & Hcs & Hturn) & Hback & _).
  split; [exact Hrot|]. split; [reflexivity|]. split; [|exact Hback].
  rewrite Hturn. injection Hcs as <-. reflexivity.
Defined.

(** The O piece of a fresh spawn: after one turn its block is one column
    to the right and one row down. *)
Lemma O_piece_turn_shifts_block_witness :
  Piece.kind (Piece.mk Kind.O 3 0 0) = Kind.O /\
  0 <= Piece.rotation (Piece.mk Kind.O 3 0 0) < 4 /\
  exists cs cs',
    Piece.cells (Piece.mk Kind.O 3 0 0) None = Ok cs /\
    Piece.cells (Piece.rotated (Piece.mk Kind.O 3 0 0) 1) None = Ok cs' /\
    cs' ≡ₚ map (fun '(cx, cy) => (cx + 1, cy + 1)) cs.
Proof.
  assert (Hrot : 0 <= Piece.rotation (Piece.mk Kind.O 3 0 0) < 4)
    by (simpl; lia).
  split; [reflexivity|]. split; [exact Hrot|].
  exact (O_piece_turn_shifts_block (Piece.mk Kind.O 3 0 0) eq_refl Hrot).
Defined.

Lemma valid_iff_all_cells_free_witness :
  grid_wf started_board /\ rotation_ok (Piece.mk Kind.I 3 (-1) 0) /\
  exists cs v,
    Piece.cells (Piece.mk Kind.I 3 (-1) 0) None = Ok cs /\
    _valid started_board (Piece.mk Kind.I 3 (-1) 0) = Ok v /\
    (v = true <-> Forall (cell_free started_board) cs).
Proof.
  assert (Hrot : rotation_ok (Piece.mk Kind.I 3 (-1) 0))
    by (unfold rotation_ok; simpl; lia).
  split; [exact started_board_wf|]. split; [exact Hrot|].
  exact (valid_iff_all_cells_free started_board (Piece.mk Kind.I 3 (-1) 0)
           started_board_wf Hrot).
Defined.

(** The first piece of a fresh game falls nineteen rows. *)
Lemma hard_drop_distance_is_longest_fall_witness :
  grid_wf started_board /\
  current started_board = Some (Piece.mk Kind.I 3 (-1) 0) /\
  rotation_ok (Piece.mk Kind.I 3 (-1) 0) /\
  hard_drop_distance started_board = Ok 19 /\
  (forall i, 1 <= i <= 19 ->
             _valid started_board (shift_down (Piece.mk Kind.I 3 (-1) 0) i)
             = Ok true) /\
  _valid started_board (shift_down (Piece.mk Kind.I 3 (-1) 0) 20) = Ok false.
Proof.
  assert (Hcur : current started_board = Some (Piece.mk Kind.I 3 (-1) 0))
    by reflexivity.
  assert (Hrot : rotation_ok (Piece.mk Kind.I 3 (-1) 0))
    by (unfold rotation_ok; simpl; lia).
  assert (Hd : hard_drop_distance started_board = Ok 19) by reflexivity.
  destruct (hard_drop_distance_is_longest_fall started_board
              (Piece.mk Kind.I 3 (-1) 0) started_board_wf Hcur Hrot)
    as (n & Hn & Hsteps & Hstop & _).
  rewrite Hd in Hn. injection Hn as Hn.
  split; [exact started_board_wf|]. split; [exact Hcur|]. split; [exact Hrot|].
  split; [exact Hd|]. split.
  - intros i Hi. apply Hsteps. lia.
  - rewrite <- Hn in Hstop. exact Hstop.
Defined.

Lemma ghost_cells_rest_on_the_stack_witness :
  grid_wf started_board /\
  current started_board = Some (Piece.mk Kind.I 3 (-1) 0) /\
  _valid started_board (Piece.mk Kind.I 3 (-1) 0) = Ok true /\
  ghost_cells started_board = Ok [(3, 19); (4, 19); (5, 19); (6, 19)] /\
  exists (n : nat) cs,
    hard_drop_distance started_board = Ok (Z.of_nat n) /\
    Piece.cells (Piece.mk Kind.I 3 (-1) 0) None = Ok cs /\
    ghost_cells started_board = Ok (map (fun '(x, y) => (x, y + Z.of_nat n)) cs) /\
    Piece.cells (shift_down (Piece.mk Kind.I 3 (-1) 0) (Z.of_nat n)) None
    = Ok (map (fun '(x, y) => (x, y + Z.of_nat n)) cs) /\
    Forall (cell_free started_board)
      (map (fun '(x, y) => (x, y + Z.of_nat n)) cs) /\
    _valid started_board
      (shift_down (Piece.mk Kind.I 3 (-1) 0) (Z.of_nat n + 1)) = Ok false.
Proof.
  assert (Hcur : current started_board = Some (Piece.mk Kind.I 3 (-1) 0))
    by reflexivity.
  assert (Hv : _valid started_board (Piece.mk Kind.I 3 (-1) 0) = Ok true)
    by reflexivity.
  split; [exact started_board_wf|]. split; [exact Hcur|]. split; [exact Hv|].
  split; [reflexivity|].
  exact (ghost_cells_rest_on_the_stack started_board (Piece.mk Kind.I 3 (-1) 0)
           started_board_wf Hcur Hv).
Defined.

(** Twenty-five soft drops on a fresh game: nineteen succeed. *)
Lemma soft_drops_stop_at_hard_drop_distance_witness :
  grid_wf started_board /\
  current started_board = Some (Piece.mk Kind.I 3 (-1) 0) /\
  rotation_ok (Piece.mk Kind.I 3 (-1) 0) /\
  soft_drops 25 started_board
  = Ok (set_score 19
          (set_current (Some (Piece.mk Kind.I 3 18 0)) started_board)).
Proof.
  assert (Hcur : current started_board = Some (Piece.mk Kind.I 3 (-1) 0))
    by reflexivity.
  assert (Hrot : rotation_ok (Piece.mk Kind.I 3 (-1) 0))
    by (unfold rotation_ok; simpl; lia).
  assert (Hd : hard_drop_distance started_board = Ok 19) by reflexivity.
  destruct (soft_drops_stop_at_hard_drop_distance started_board
              (Piece.mk Kind.I 3 (-1) 0) 25 started_board_wf Hcur Hrot)
    as (n & Hn & Hdrops).
  rewrite Hd in Hn. injection Hn as Hn. rewrite <- Hn in Hdrops.
  split; [exact started_board_wf|]. split; [exact Hcur|]. split; [exact Hrot|].
  exact Hdrops.
Defined.

(** Writing the long bar on the bottom row of the fresh board. *)
Lemma lock_cells_writes_the_piece_witness :
  grid_wf started_board /\
  Forall (cell_in_range started_board) [(3, 19); (4, 19); (5, 19); (6, 19)] /\
  exists b1,
    lock_cells started_board (COLORS Kind.I) [(3, 19); (4, 19); (5, 19); (6, 19)]
    = Ok b1 /\
    grid_get b1 4 19 = Ok (Some (COLORS Kind.I)) /\
    grid_get b1 7 19 = Ok None /\
    game_over b1 = false.
Proof.
  assert (Hcs : Forall (cell_in_range started_board)
                  [(3, 19); (4, 19); (5, 19); (6, 19)]).
  { repeat (apply Forall_cons_2; [right; simpl; lia|]). apply Forall_nil_2. }
  destruct (lock_cells_writes_the_piece started_board (COLORS Kind.I)
              [(3, 19); (4, 19); (5, 19); (6, 19)] started_board_wf Hcs)
    as (b1 & Hlock & _ & _ & _ & Hget & Hover).
  split; [exact started_board_wf|]. split; [exact Hcs|].
  exists b1. split; [exact Hlock|]. split; [|split].
  - rewrite (Hget 4 19) by (simpl; lia). reflexivity.
  - rewrite (Hget 7 19) by (simpl; lia). reflexivity.
  - rewrite Hover. reflexivity.
Defined.

Lemma lock_piece_writes_clears_and_spawns_witness :
  (forall g l, fst (rev_shuffle g l) ≡ₚ l) /\
  grid_wf started_board /\
  current started_board = Some (Piece.mk Kind.I 3 (-1) 0) /\
  _valid started_board (Piece.mk Kind.I 3 (-1) 0) = Ok true /\
  exists cs b1 b',
    Piece.cells (Piece.mk Kind.I 3 (-1) 0) None = Ok cs /\
    lock_cells started_board (Piece.color (Piece.mk Kind.I 3 (-1) 0)) cs = Ok b1 /\
    lock_piece rev_shuffle started_board = Ok b' /\
    (existsb (fun c => snd c <? 0) cs = true -> game_over b' = true) /\
    piece_or_over b'.
Proof.
  assert (Hcur : current started_board = Some (Piece.mk Kind.I 3 (-1) 0))
    by reflexivity.
  assert (Hv : _valid started_board (Piece.mk Kind.I 3 (-1) 0) = Ok true)
    by reflexivity.
  destruct (lock_piece_writes_clears_and_spawns rev_shuffle rev_shuffle_perm
              started_board (Piece.mk Kind.I 3 (-1) 0) started_board_wf Hcur Hv)
    as (cs & b1 & b' & Hcs & Hl & Hlock & _ & _ & _ & _ & Hover & Hpiece).
  split; [exact rev_shuffle_perm|].
  split; [exact started_board_wf|]. split; [exact Hcur|]. split; [exact Hv|].
  exists cs, b1, b'. auto.
Defined.

Lemma play_keeps_board_invariants_witness :
  0 <= 10 /\ 0 <= 20 /\
  Board_init rev_shuffle 10 20 tt = Ok new_board /\
  run_ops rev_shuffle (OpSpawn :: stacking_ops) new_board = Ok stacked_board /\
  cols stacked_board = 10 /\ rows stacked_board = 20 /\
  grid_wf stacked_board /\
  (game_over stacked_board = false -> current_valid stacked_board) /\
  level stacked_board = 1 + lines_cleared stacked_board / 10 /\
  1 <= level stacked_board /\
  0 <= lines_cleared stacked_board /\ 0 <= score stacked_board.
Proof.
  assert (Hc : 0 <= 10) by lia.
  assert (Hr : 0 <= 20) by lia.
  assert (Hplay : run_ops rev_shuffle (OpSpawn :: stacking_ops) new_board
                  = Ok stacked_board) by (vm_compute; reflexivity).
  split; [exact Hc|]. split; [exact Hr|].
  split; [exact new_board_constructed|]. split; [exact Hplay|].
  exact (play_keeps_board_invariants rev_shuffle 10 20 tt
           (OpSpawn :: stacking_ops) new_board stacked_board Hc Hr
           new_board_constructed Hplay).
Defined.

(** The hard drop of the first piece: nineteen rows, thirty-eight
    points. *)
Lemma counters_never_decrease_witness :
  board_inv started_board /\
  run_op rev_shuffle OpHardDrop started_board = Ok dropped_board /\
  score started_board = 0 /\ score dropped_board = 38 /\
  score started_board <= score dropped_board /\
  lines_cleared started_board <= lines_cleared dropped_board /\
  level started_board <= level dropped_board.
Proof.
  assert (Hop : run_op rev_shuffle OpHardDrop started_board = Ok dropped_board)
    by (vm_compute; reflexivity).
  destruct (counters_never_decrease rev_shuffle OpHardDrop started_board
              dropped_board started_board_inv Hop) as (_ & _ & Hrest).
  split; [exact started_board_inv|]. split; [exact Hop|].
  split; [reflexivity|]. split; [reflexivity | exact Hrest].
Defined.

Lemma operations_never_raise_in_play_witness :
  (forall g l, fst (rev_shuffle g l) ≡ₚ l) /\
  board_inv stacked_board /\ game_over stacked_board = false /\
  exists b', run_op rev_shuffle OpHold stacked_board = Ok b' /\ board_inv b'.
Proof.
  split; [exact rev_shuffle_perm|]. split; [exact stacked_board_inv|].
  split; [reflexivity|].
  exact (operations_never_raise_in_play rev_shuffle rev_shuffle_perm OpHold
           stacked_board stacked_board_inv eq_refl).
Defined.

Lemma gravity_interval_follows_the_table_witness :
  1 <= level (board started_game) /\
  level (board started_game) <= level (board after_gravity_game) /\
  exists s s',
    gravity_interval hundredths started_game = Ok (hundredths s) /\
    gravity_interval hundredths after_gravity_game = Ok (hundredths s') /\
    LEVEL_SPEEDS_hundredths
      !! Z.to_nat (Z.min (level (board started_game) - 1) 14) = Some s /\
    5 <= s' <= s /\ s <= 80 /\
    (15 <= level (board started_game) -> s = 5).
Proof.
  assert (H1 : 1 <= level (board started_game)) by (simpl; lia).
  assert (H2 : level (board started_game) <= level (board after_gravity_game))
    by (simpl; lia).
  split; [exact H1|]. split; [exact H2|].
  exact (gravity_interval_follows_the_table hundredths started_game
           after_gravity_game H1 H2).
Defined.

(** Escape between two key presses: the program exits with the piece
    one column to the left, where the first key press put it. *)
Lemma exit_event_ends_the_batch_witness :
  exit_event (KEYDOWN K_ESCAPE) /\
  handle_events rev_shuffle started_game [KEYDOWN K_LEFT]
  = Ok (mkGame (set_current (Some (Piece.mk Kind.I 2 (-1) 0)) started_board)
          0 None) /\
  handle_events_exit rev_shuffle started_game
    ([KEYDOWN K_LEFT] ++ KEYDOWN K_ESCAPE :: [KEYDOWN K_c])
  = Ok (mkGame (set_current (Some (Piece.mk Kind.I 2 (-1) 0)) started_board)
          0 None, true) /\
  handle_events rev_shuffle started_game
    ([KEYDOWN K_LEFT] ++ KEYDOWN K_ESCAPE :: [KEYDOWN K_c])
  = Raise SystemExit /\
  handle_input rev_shuffle hundredths Z.add Z.gtb started_game 2
    ([KEYDOWN K_LEFT] ++ KEYDOWN K_ESCAPE :: [KEYDOWN K_c]) (fun _ => false) 2
  = Raise SystemExit.
Proof.
  assert (Hexit : exit_event (KEYDOWN K_ESCAPE)) by (right; reflexivity).
  assert (Hbefore : handle_events rev_shuffle started_game [KEYDOWN K_LEFT]
                    = Ok (mkGame
                            (set_current (Some (Piece.mk Kind.I 2 (-1) 0))
                               started_board) 0 None)) by reflexivity.
  destruct (exit_event_ends_the_batch rev_shuffle hundredths Z.add Z.gtb
              started_game _ (KEYDOWN K_ESCAPE) [KEYDOWN K_LEFT] [KEYDOWN K_c]
              Hexit Hbefore) as (Hstate & _ & Hevents & Hinput).
  split; [exact Hexit|]. split; [exact Hbefore|]. split; [exact Hstate|].
  split; [exact Hevents|]. apply Hinput.
Defined.

Lemma game_step_never_raises_witness :
  (forall g l, fst (rev_shuffle g l) ≡ₚ l) /\
  board_inv (board started_game) /\
  (exists g',
      handle_input rev_shuffle hundredths Z.add Z.gtb started_game 2
        [KEYDOWN K_UP; KEYDOWN K_SPACE; OtherEvent] (fun _ => true) 20
      = Ok g' /\ board_inv (board g')) /\
  (exists g',
      update rev_shuffle hundredths Z.add Z.sub Z.geb started_game 10000 = Ok g' /\
      board_inv (board g')).
Proof.
  destruct (game_step_never_raises rev_shuffle hundredths Z.add Z.sub Z.geb
              Z.gtb rev_shuffle_perm started_game started_board_inv)
    as [Hinput Hupdate].
  split; [exact rev_shuffle_perm|]. split; [exact started_board_inv|]. split.
  - apply Hinput. repeat constructor; intros [H|H]; discriminate H.
  - apply Hupdate.
Defined.

Lemma seven_draws_are_one_bag_witness :
  (forall g l, fst (rev_shuffle g l) ≡ₚ l) /\
  bag no_board = [] /\
  draw_many rev_shuffle 7 no_board
  = Ok ([Kind.I; Kind.J; Kind.L; Kind.O; Kind.S; Kind.T; Kind.Z], no_board) /\
  exists ks b',
    draw_many rev_shuffle 7 no_board = Ok (ks, b') /\
    ks = rev (fst (rev_shuffle (rng no_board) SHAPE_DEFS_keys)) /\
    ks ≡ₚ SHAPE_DEFS_keys /\ NoDup ks /\
    b' = set_rng (snd (rev_shuffle (rng no_board) SHAPE_DEFS_keys)) no_board.
Proof.
  split; [exact rev_shuffle_perm|]. split; [reflexivity|]. split; [reflexivity|].
  exact (seven_draws_are_one_bag rev_shuffle rev_shuffle_perm no_board eq_refl).
Defined.

Lemma new_board_previews_five_of_one_bag_witness :
  (forall g l, fst (rev_shuffle g l) ≡ₚ l) /\
  next_queue new_board = [Kind.I; Kind.J; Kind.L; Kind.O; Kind.S] /\
  bag new_board = [Kind.Z; Kind.T] /\
  exists b,
    Board_init rev_shuffle 10 20 tt = Ok b /\
    bag b ++ rev (next_queue b) = fst (rev_shuffle tt SHAPE_DEFS_keys) /\
    length (next_queue b) = 5%nat /\ length (bag b) = 2%nat /\
    NoDup (next_queue b) /\
    (forall k, k ∈ bag b -> k ∉ next_queue b).
Proof.
  destruct (new_board_previews_five_of_one_bag rev_shuffle rev_shuffle_perm
              10 20 tt) as (b & H1 & H2 & H3 & H4 & H5 & H6 & _).
  split; [exact rev_shuffle_perm|]. split; [reflexivity|]. split; [reflexivity|].
  exists b. auto 10.
Defined.

Lemma clear_lines_leaves_no_full_row_witness :
  grid_wf two_full_board /\ 0 < cols two_full_board /\
  length (full_rows (grid two_full_board)) = 2%nat /\
  full_rows (grid (_clear_lines_efficient two_full_board)) = [] /\
  _clear_lines_efficient (_clear_lines_efficient two_full_board)
  = _clear_lines_efficient two_full_board.
Proof.
  assert (Hwf : grid_wf two_full_board).
  { split; [reflexivity | repeat constructor]. }
  assert (Hcols : 0 < cols two_full_board) by (simpl; lia).
  split; [exact Hwf|]. split; [exact Hcols|]. split; [reflexivity|].
  exact (clear_lines_leaves_no_full_row two_full_board Hwf Hcols).
Defined.

Lemma hold_twice_is_hold_once_witness :
  hold_piece rev_shuffle stacked_board = Ok swapped_board /\
  hold_piece rev_shuffle swapped_board = Ok swapped_board.
Proof.
  assert (H : hold_piece rev_shuffle stacked_board = Ok swapped_board)
    by reflexivity.
  split; [exact H|].
  exact (hold_twice_is_hold_once rev_shuffle stacked_board swapped_board H).
Defined.

(** The swap on the stacked board: the held I kind comes back at row 0,
    where it does not fit. *)
Lemma hold_swap_enters_at_row_zero_witness :
  grid_wf stacked_board /\ can_hold stacked_board = true /\
  current stacked_board = Some (Piece.mk Kind.T 3 0 0) /\
  hold stacked_board = Some Kind.I /\
  exists b',
    hold_piece rev_shuffle stacked_board = Ok b' /\
    current b' = Some (Piece.mk Kind.I 3 0 0) /\
    hold b' = Some Kind.T /\ can_hold b' = false /\
    game_over b' = true /\
    Piece.mk Kind.I 3 0 0 <> spawn_piece (cols stacked_board) Kind.I.
Proof.
  assert (Hcur : current stacked_board = Some (Piece.mk Kind.T 3 0 0))
    by reflexivity.
  assert (Hheld : hold stacked_board = Some Kind.I) by reflexivity.
  destruct (hold_swap_enters_at_row_zero rev_shuffle stacked_board
              (Piece.mk Kind.T 3 0 0) Kind.I stacked_board_wf eq_refl Hcur Hheld)
    as (b' & Hhold & Hc & Hh & Hch & _ & _ & _ & _ & Hover & Hrow).
  split; [exact stacked_board_wf|]. split; [reflexivity|]. split; [exact Hcur|].
  split; [exact Hheld|].
  exists b'. split; [exact Hhold|]. split; [exact Hc|]. split; [exact Hh|].
  split; [exact Hch|]. split; [|exact (Hrow eq_refl)].
  apply Hover. right. reflexivity.
Defined.

Lemma try_move_back_restores_board_witness :
  current_valid started_board /\
  try_move started_board 1 0
  = Ok (set_current (Some (Piece.mk Kind.I 4 (-1) 0)) started_board, true) /\
  try_move (set_current (Some (Piece.mk Kind.I 4 (-1) 0)) started_board) (-1) 0
  = Ok (started_board, true).
Proof.
  assert (Hv : current_valid started_board) by reflexivity.
  assert (Hmove : try_move started_board 1 0
                  = Ok (set_current (Some (Piece.mk Kind.I 4 (-1) 0))
                          started_board, true)) by reflexivity.
  split; [exact Hv|]. split; [exact Hmove|].
  exact (try_move_back_restores_board started_board _ 1 0 Hv Hmove).
Defined.

(** After the game-over swap a move and a hard drop still run, and the
    game stays over. *)
Lemma game_over_is_permanent_witness :
  game_over swapped_board = true /\
  run_ops rev_shuffle [OpMove (-1) 0; OpHardDrop; OpSpawn] swapped_board
  = Ok played_on_board /\
  score swapped_board < score played_on_board /\
  game_over played_on_board = true.
Proof.
  assert (Hover : game_over swapped_board = true) by reflexivity.
  assert (Hops : run_ops rev_shuffle [OpMove (-1) 0; OpHardDrop; OpSpawn]
                   swapped_board
                 = Ok played_on_board) by (vm_compute; reflexivity).
  split; [exact Hover|]. split; [exact Hops|]. split; [reflexivity|].
  exact (game_over_is_permanent rev_shuffle _ swapped_board played_on_board
           Hover Hops).
Defined.

Lemma new_game_starts_in_play_witness :
  (forall g l, fst (rev_shuffle g l) ≡ₚ l) /\
  Game_init rev_shuffle hundredths tt = Ok started_game /\
  exists g kind,
    Game_init rev_shuffle hundredths tt = Ok g /\
    last (fst (rev_shuffle tt SHAPE_DEFS_keys)) = Some kind /\
    current (board g)
    = Some (Piece.mk kind 3 (if Kind.eqb kind Kind.I then -1 else 0) 0) /\
    game_over (board g) = false /\ board_inv (board g).
Proof.
  destruct (new_game_starts_in_play rev_shuffle hundredths rev_shuffle_perm tt)
    as (g & kind & H1 & H2 & H3 & H4 & _ & _ & _ & _ & _ & _ & _ & H5 & _).
  split; [exact rev_shuffle_perm|]. split; [reflexivity|].
  exists g, kind. auto.
Defined.

Lemma hard_drop_is_soft_drops_then_lock_witness :
  grid_wf started_board /\
  current started_board = Some (Piece.mk Kind.I 3 (-1) 0) /\
  rotation_ok (Piece.mk Kind.I 3 (-1) 0) /\
  exists (n : nat) b1,
    hard_drop_distance started_board = Ok (Z.of_nat n) /\
    soft_drops n started_board = Ok b1 /\
    score b1 = score started_board + Z.of_nat n /\
    hard_drop rev_shuffle started_board
    = res_map (fun b2 => set_score (score b2 + Z.of_nat n) b2)
        (lock_piece rev_shuffle b1).
Proof.
  assert (Hcur : current started_board = Some (Piece.mk Kind.I 3 (-1) 0))
    by reflexivity.
  assert (Hrot : rotation_ok (Piece.mk Kind.I 3 (-1) 0))
    by (unfold rotation_ok; simpl; lia).
  split; [exact started_board_wf|]. split; [exact Hcur|]. split; [exact Hrot|].
  exact (hard_drop_is_soft_drops_then_lock rev_shuffle started_board
           (Piece.mk Kind.I 3 (-1) 0) started_board_wf Hcur Hrot).
Defined.
